(** * filet: a shallow embedding of [filet.c] and its specification

    The program is a full-screen directory browser written in C.  The
    embedding follows the source function by function:

    - C strings are the Rocq strings of their bytes before the terminating
      NUL.  [strcpy] and [strcat] are told the size of the buffer they
      write to (PATH_MAX for the path); the source checks no length, and a
      call that would write past the end of the buffer stops the model with
      [Overrun];
    - the operating system (directory streams, stat, fork, termios, the
      allocator) is a record of answers, [world], that the code consults;
    - the process state (globals, terminal attributes, everything written
      to the terminal) is threaded through a small state monad whose
      computations may also stop the process ([exit], [_exit], [execlp]);
    - [size_t] counters of array elements ([n], [sel], [ents_size]) are
      natural numbers: they count objects held in memory, and the one
      subtraction on them, [n - 1], is reached with [n != 0] only; the place
      where the source relies on unsigned wrap-around (the cursor row of
      [G]) is written out over [Z];
    - an entry of the listing holds a pointer into the buffer of the
      directory stream that produced it, which [main] keeps open
      ([last_dir]) until the next listing replaces this one.  [readdir] may
      overwrite what an earlier call on the same stream returned (glibc
      does when it refills its buffer, that is for a directory that does
      not fit one buffer), so the string an entry shows is the one the
      stream has kept at that place, [ent_kept], which need not be the name
      the member had when it was read, [ent_name].

    [main] is the program from the point where it first touches the
    terminal; what it does before that (isatty, malloc, getcwd, the
    environment) is [prologue], and [filet] is the two together.  Left
    out: a failing signal(), and [setvbuf]. *)

From Stdlib Require Import ZArith List String Ascii Bool Lia Sorted Permutation
  DecimalString.
Import ListNotations.

Local Open Scope string_scope.
Local Open Scope Z_scope.

(** ** C strings and the few libc string functions the program uses *)

Module Libc.

Definition byte (c : ascii) : Z := Z.of_N (N_of_ascii c).

(** [s[i]]: the byte at index [i], the terminating NUL at the end of the
    string.  (Further out the C program would read storage it never wrote;
    the model answers 0 there.  The source reads at most one byte past a
    non-empty prefix it has just checked, except for [path[1]] on an empty
    path.) *)
Definition char_at (s : string) (i : nat) : Z :=
  match String.get i s with
  | Some c => byte c
  | None => 0
  end.

(** [strcmp]: bytes are compared as unsigned chars; the C standard fixes
    only the sign of the result. *)
Fixpoint strcmp (a b : string) : Z :=
  match a, b with
  | EmptyString, EmptyString => 0
  | EmptyString, String _ _ => -1
  | String _ _, EmptyString => 1
  | String c a', String d b' =>
      match byte c ?= byte d with
      | Eq => strcmp a' b'
      | Lt => -1
      | Gt => 1
      end
  end.

(** [strcpy] and [strcat] write up to the NUL of the source, whatever the
    size of the destination.  The model is told that size, in bytes:
    [None] stands for a call that writes past the end of the buffer.  The
    result is the string in the buffer after the call. *)
Definition strcpy (size : nat) (src : string) : option string :=
  if (String.length src <? size)%nat then Some src else None.

Definition strcat (size : nat) (dst src : string) : option string :=
  if (String.length (dst ++ src) <? size)%nat then Some (dst ++ src) else None.

(** [qsort] over an array of [n] elements, here the list of these
    elements: the C standard asks for the elements in ascending order of
    the comparison function and leaves the order of equal elements open.
    The model inserts the elements one by one. *)
Fixpoint qsort_insert {A : Type} (cmp : A -> A -> Z) (x : A) (l : list A)
  : list A :=
  match l with
  | [] => [x]
  | y :: l' => if cmp x y <=? 0 then x :: l else y :: qsort_insert cmp x l'
  end.

Definition qsort {A : Type} (l : list A) (cmp : A -> A -> Z) : list A :=
  fold_right (qsort_insert cmp) [] l.

(** The digits [printf] writes for [%d] and [%lu]. *)
Definition decimal (z : Z) : string :=
  if z <? 0 then "-" ++ NilZero.string_of_uint (N.to_uint (Z.to_N (- z)))
  else NilZero.string_of_uint (N.to_uint (Z.to_N z)).

End Libc.
Import Libc.

(** ** <sys/stat.h> (Linux values) *)

Record stat := { st_mode : Z }.

Definition S_IFMT : Z := 0xF000.   (* 0170000 *)
Definition S_IFDIR : Z := 0x4000.  (* 0040000 *)
Definition S_IFLNK : Z := 0xA000.  (* 0120000 *)
Definition S_IFREG : Z := 0x8000.  (* 0100000 *)
Definition S_IFIFO : Z := 0x1000.  (* 0010000 *)
Definition S_IXUSR : Z := 0x40.    (* 0100 *)

Definition S_ISDIR (m : Z) : bool := Z.land m S_IFMT =? S_IFDIR.
Definition S_ISLNK (m : Z) : bool := Z.land m S_IFMT =? S_IFLNK.
Definition S_ISREG (m : Z) : bool := Z.land m S_IFMT =? S_IFREG.

Definition AT_SYMLINK_NOFOLLOW : Z := 0x100.
Definition AT_REMOVEDIR : Z := 0x200.

(** ** [struct direlement] and its comparison function *)

Inductive elem_type :=
| TYPE_DIR
| TYPE_SYML
| TYPE_SYML_TO_DIR
| TYPE_EXEC
| TYPE_NORM.

Record direlement := { type : elem_type; d_name : string }.

Definition elem_type_eqb (a b : elem_type) : bool :=
  match a, b with
  | TYPE_DIR, TYPE_DIR
  | TYPE_SYML, TYPE_SYML
  | TYPE_SYML_TO_DIR, TYPE_SYML_TO_DIR
  | TYPE_EXEC, TYPE_EXEC
  | TYPE_NORM, TYPE_NORM => true
  | _, _ => false
  end.

Definition direlemcmp (a b : direlement) : Z :=
  let a_is_dir :=
    elem_type_eqb (type a) TYPE_DIR || elem_type_eqb (type a) TYPE_SYML_TO_DIR in
  let b_is_dir :=
    elem_type_eqb (type b) TYPE_DIR || elem_type_eqb (type b) TYPE_SYML_TO_DIR in
  if negb (Bool.eqb a_is_dir b_is_dir) then
    if a_is_dir then -1 else 1
  else strcmp (d_name a) (d_name b).

(** ** The operating system as seen by one pass of the program

    Every field is the answer the system gives when the code asks; the
    theorems quantify over all of them. *)

Record termios := {
  c_iflag : Z;
  c_oflag : Z;
  c_cflag : Z;
  c_lflag : Z
}.

(** What one call of [readdir] hands out.  [ent->d_name] points into the
    buffer of the stream: [ent_name] is the string there when [readdir]
    returns, [ent_kept] the string the same pointer reads as once the
    stream has been read to its end. *)
Record dirent := {
  ent_name : string;
  ent_kept : string
}.

Record world := {
  (** [opendir] then [readdir] until NULL: what the stream yields, in
      order, [None] when the directory cannot be opened *)
  w_opendir : string -> option (list dirent);
  (** [fstatat(dirfd(dir), name, &sb, flags)], [None] for a result < 0 *)
  w_fstatat : string -> string -> Z -> option stat;
  (** does [realloc] to the given number of elements succeed *)
  w_realloc : nat -> bool;
  (** the value [fork] returns *)
  w_fork : Z;
  (** [chdir(path) >= 0] *)
  w_chdir : string -> bool;
  (** [execlp] replaces the process image ([false]: it returns) *)
  w_execlp : string -> bool;
  (** the statuses successive [waitpid] calls store *)
  w_waitpid : list Z;
  (** [tcgetattr(STDIN_FILENO, _) >= 0] *)
  w_tcgetattr : bool;
  (** [tcsetattr(STDIN_FILENO, action, t) >= 0] *)
  w_tcsetattr : Z -> termios -> bool;
  (** [ioctl(STDOUT_FILENO, TIOCGWINSZ, &wsize)]: [(ws_row, ws_col)],
      [None] for a result < 0 *)
  w_ioctl : option (Z * Z)
}.

(** ** Process state and effects *)

Inductive sighandler := SIG_IGN | Handle_winch.

Inductive event :=
| Stdout (s : string)                       (* printf *)
| Fflush                                    (* fflush(stdout) *)
| Perror (s : string)
| Signal (sig : Z) (h : sighandler)
| Closedir (dir : string)
| Unlinkat (dir name : string) (flags : Z)
| Forked (pid : Z).

Record machine := {
  g_old_termios : termios;
  g_row : Z;
  g_col : Z;
  (** attributes of the terminal on stdin *)
  tty : termios;
  (** [atexit(restore_terminal)] has been called *)
  at_exit : bool;
  (** what the process has done to the outside, oldest first *)
  trace : list event
}.

Inductive halt :=
| Exit (status : Z)                          (* exit, _exit *)
| Exec (cmd : string) (argv1 : option string) (* execlp succeeded *)
| Hang                                        (* waitpid never reports an end *)
| Undefined                                   (* a read out of bounds or through NULL *)
| Overrun.                                    (* a string written past its buffer *)

Inductive res (A : Type) :=
| Val (a : A)
| Stop (h : halt).
Arguments Val {A} a.
Arguments Stop {A} h.

Definition M (A : Type) : Type := machine -> res A * machine.

Definition ret {A} (a : A) : M A := fun m => (Val a, m).
Definition stop {A} (h : halt) : M A := fun m => (Stop h, m).
Definition bind {A B} (c : M A) (k : A -> M B) : M B :=
  fun m => match c m with
           | (Val a, m') => k a m'
           | (Stop h, m') => (Stop h, m')
           end.

Notation "x <- c ;; k" := (bind c (fun x => k))
  (at level 61, c at next level, right associativity).
Notation "c ;; k" := (bind c (fun _ => k))
  (at level 61, right associativity).

Definition emit (e : event) : M unit :=
  fun m => (Val tt, {| g_old_termios := g_old_termios m; g_row := g_row m;
                       g_col := g_col m; tty := tty m; at_exit := at_exit m;
                       trace := trace m ++ [e] |}).

Definition printf (s : string) : M unit := emit (Stdout s).
Definition perror (s : string) : M unit := emit (Perror s).

Definition set_tty (t : termios) : M unit :=
  fun m => (Val tt, {| g_old_termios := g_old_termios m; g_row := g_row m;
                       g_col := g_col m; tty := t; at_exit := at_exit m;
                       trace := trace m |}).

Definition set_old_termios (t : termios) : M unit :=
  fun m => (Val tt, {| g_old_termios := t; g_row := g_row m;
                       g_col := g_col m; tty := tty m; at_exit := at_exit m;
                       trace := trace m |}).

Definition set_size (row col : Z) : M unit :=
  fun m => (Val tt, {| g_old_termios := g_old_termios m; g_row := row;
                       g_col := col; tty := tty m; at_exit := at_exit m;
                       trace := trace m |}).

Definition set_at_exit : M unit :=
  fun m => (Val tt, {| g_old_termios := g_old_termios m; g_row := g_row m;
                       g_col := g_col m; tty := tty m; at_exit := true;
                       trace := trace m |}).

Definition get {A} (f : machine -> A) : M A := fun m => (Val (f m), m).

(** ** Constants of the system headers (Linux values) *)

Definition EXIT_SUCCESS : Z := 0.
Definition EXIT_FAILURE : Z := 1.
Definition ENT_ALLOC_NUM : nat := 64.
Definition PATH_MAX : nat := 4096.           (* <linux/limits.h> *)
Definition OPOST : Z := 0x1.
Definition ICANON : Z := 0x2.
Definition ECHO : Z := 0x8.
Definition TCSANOW : Z := 0.
Definition TCSAFLUSH : Z := 2.
Definition SIGWINCH : Z := 28.

Definition ESC : string := String "027"%char EmptyString.
Definition CR : string := String "013"%char EmptyString.
Definition LF : string := String "010"%char EmptyString.

Definition WIFEXITED (status : Z) : bool := Z.land status 0x7f =? 0.
Definition WIFSIGNALED (status : Z) : bool :=
  let v := Z.land status 0x7f + 1 in
  let sc := if 127 <? v then v - 256 else v in   (* (signed char) *)
  0 <? Z.shiftr sc 1.

(** [(size_t) z] and the arithmetic of [size_t] *)
Definition size_t (z : Z) : Z := z mod 2 ^ 64.

(** ** Terminal handling *)

Section Program.

Variable w : world.

Definition get_term_size : M bool :=
  match w_ioctl w with
  | None => perror "ioctl";; ret false
  | Some (ws_row, ws_col) => set_size ws_row ws_col;; ret true
  end.

Definition handle_winch (sig : Z) : M unit :=
  emit (Signal sig SIG_IGN);;
  _ <- get_term_size;;
  emit (Signal sig Handle_winch).

Definition restore_terminal : M unit :=
  old <- get g_old_termios;;
  (if w_tcsetattr w TCSAFLUSH old then set_tty old else perror "tcsetattr");;
  printf (ESC ++ "[?7h" ++ ESC ++ "[?25h" ++ ESC ++ "[;r" ++ ESC ++ "[?1049l").

Definition setup_terminal : M bool :=
  if negb (w_tcgetattr w) then perror "tcgetattr";; ret false
  else
    cur <- get tty;;
    set_old_termios cur;;
    let raw := {| c_iflag := c_iflag cur;
                  c_oflag := Z.land (c_oflag cur) (Z.lnot OPOST);
                  c_cflag := c_cflag cur;
                  c_lflag := Z.land (c_lflag cur) (Z.lnot (Z.lor ECHO ICANON)) |} in
    if negb (w_tcsetattr w TCSANOW raw) then perror "tcsetattr";; ret false
    else
      set_tty raw;;
      row <- get g_row;;
      printf (ESC ++ "[?1049h" ++ ESC ++ "[?7l" ++ ESC ++ "[?25l" ++ ESC ++ "[2J"
              ++ ESC ++ "[3;" ++ decimal row ++ "r");;
      ret true.

(** [exit]: the handler registered with [atexit] runs, stdout is flushed,
    the process ends.  [_exit] ends it at once. *)
Definition exit {A} (status : Z) : M A :=
  registered <- get at_exit;;
  (if registered then restore_terminal else ret tt);;
  emit Fflush;;
  stop (Exit status).

Definition _exit {A} (status : Z) : M A := stop (Exit status).

(** The outcome of a [strcpy] or [strcat]. *)
Definition written (r : option string) : M string :=
  match r with
  | Some s => ret s
  | None => stop Overrun
  end.

(** ** Spawning a child *)

Fixpoint wait_loop (statuses : list Z) : M unit :=
  match statuses with
  | [] => stop Hang
  | status :: rest =>
      if negb (WIFEXITED status) && negb (WIFSIGNALED status)
      then wait_loop rest
      else ret tt
  end.

Definition spawn (path cmd : string) (argv1 : option string) : M unit :=
  let pid := w_fork w in
  if pid <? 0 then ret tt
  else
    (if 0 <? pid then emit (Forked pid) else ret tt);;
    restore_terminal;;
    emit Fflush;;
    (if pid =? 0 then
       if negb (w_chdir w path) then _exit EXIT_FAILURE
       else if w_execlp w cmd then stop (Exec cmd argv1)
       else _exit EXIT_FAILURE
     else wait_loop (w_waitpid w));;
    _ <- setup_terminal;;
    ret tt.

(** ** Reading a directory *)

Definition dot : Z := byte "."%char.

Definition classify (dir name : string) (sb : stat) : elem_type :=
  if S_ISDIR (st_mode sb) then TYPE_DIR
  else if S_ISLNK (st_mode sb) then
    match w_fstatat w dir name 0 with
    | Some sb' => if negb (S_ISDIR (st_mode sb')) then TYPE_SYML
                  else TYPE_SYML_TO_DIR
    | None => TYPE_SYML
    end
  else if Z.land (st_mode sb) S_IXUSR =? 0 then TYPE_NORM
  else TYPE_EXEC.

(** The [while ((ent = readdir(dir)))] loop.  [acc] holds the [n] elements
    written to [*ents] so far, [size] is [*ents_size].  The loop has no
    effect on the process state until [realloc] fails, so it is a pure
    function; [None] stands for that failure, which [read_dir] turns into
    [perror] and [exit].

    The tests and both [fstatat] calls read the name before [readdir] is
    called again.  The element stores the pointer [ent->d_name], not a
    copy: [qsort] and everything after [read_dir] read through it when the
    stream has been read to its end. *)
Fixpoint read_entries (dir : string) (show_hidden : bool) (stream : list dirent)
    (acc : list direlement) (size : nat) : option (list direlement * nat) :=
  match stream with
  | [] => Some (acc, size)
  | ent :: rest =>
      let name := ent_name ent in
      if (char_at name 0 =? dot) &&
         ((char_at name 1 =? 0) ||
          ((char_at name 1 =? dot) && (char_at name 2 =? 0)))
      then read_entries dir show_hidden rest acc size
      else if negb show_hidden && (char_at name 0 =? dot)
      then read_entries dir show_hidden rest acc size
      else
        match w_fstatat w dir name AT_SYMLINK_NOFOLLOW with
        | None => read_entries dir show_hidden rest acc size
        | Some sb =>
            let elem := {| type := classify dir name sb;
                           d_name := ent_kept ent |} in
            if (List.length acc =? size)%nat then
              let size' := (size + ENT_ALLOC_NUM)%nat in
              if w_realloc w size'
              then read_entries dir show_hidden rest (acc ++ [elem])%list size'
              else None
            else read_entries dir show_hidden rest (acc ++ [elem])%list size
        end
  end.

(** A directory stream is identified by the path it was opened with.  The
    result is the first [n] elements of [*ents], the new [*ents_size] and
    the new [*last_dir]. *)
Definition read_dir (path : string) (size : nat) (last_dir : option string)
    (show_hidden : bool) : M (list direlement * nat * option string) :=
  match last_dir with
  | Some d => emit (Closedir d)
  | None => ret tt
  end;;
  match w_opendir w path with
  | None => ret ([], size, None)
  | Some stream =>
      match read_entries path show_hidden stream [] size with
      | None => perror "realloc";; exit EXIT_FAILURE
      | Some (elems, size') => ret (qsort elems direlemcmp, size', Some path)
      end
  end.

(** ** [main]: what is fixed before the loop, the variables of the loop *)

Record config := {
  editor : string;              (* getenv_or("EDITOR", "vi") *)
  shell : string;               (* getenv_or("SHELL", "/bin/sh") *)
  home : string;                (* getenv_or("HOME", "/") *)
  user_and_hostname : string;
  (** the bytes in the buffer after [dirname(buffer)] (<libgen.h>) *)
  dirname : string -> string
}.

Record locals := {
  path : string;
  show_hidden : bool;
  fetch_dir : bool;
  sel : nat;
  (** [ents[0]] ... [ents[n - 1]]; [n] is the length of this list *)
  ents : list direlement;
  ents_size : nat;
  last_dir : option string
}.

Definition n (l : locals) : nat := List.length (ents l).

Definition set_path (p : string) (l : locals) : locals :=
  {| path := p; show_hidden := show_hidden l; fetch_dir := fetch_dir l;
     sel := sel l; ents := ents l; ents_size := ents_size l;
     last_dir := last_dir l |}.

Definition set_show_hidden (b : bool) (l : locals) : locals :=
  {| path := path l; show_hidden := b; fetch_dir := fetch_dir l;
     sel := sel l; ents := ents l; ents_size := ents_size l;
     last_dir := last_dir l |}.

Definition set_fetch_dir (b : bool) (l : locals) : locals :=
  {| path := path l; show_hidden := show_hidden l; fetch_dir := b;
     sel := sel l; ents := ents l; ents_size := ents_size l;
     last_dir := last_dir l |}.

Definition set_sel (i : nat) (l : locals) : locals :=
  {| path := path l; show_hidden := show_hidden l; fetch_dir := fetch_dir l;
     sel := i; ents := ents l; ents_size := ents_size l;
     last_dir := last_dir l |}.

Variable cfg : config.

(** [ents[i]]; the array holds [n] meaningful elements. *)
Definition elem_at (l : locals) (i : nat) : M direlement :=
  match nth_error (ents l) i with
  | Some e => ret e
  | None => stop Undefined
  end.

Definition draw_line (ent : direlement) (is_sel : bool) : M unit :=
  printf (match type ent with
          | TYPE_DIR => ESC ++ "[34;1m"
          | TYPE_SYML | TYPE_SYML_TO_DIR => ESC ++ "[36;1m"
          | TYPE_EXEC => ESC ++ "[32;1m"
          | TYPE_NORM => ESC ++ "[0m"
          end);;
  if is_sel then printf (">  " ++ d_name ent)
  else printf ("  " ++ d_name ent ++ " ").

Fixpoint draw_lines (es : list direlement) (i s : nat) : M unit :=
  match es with
  | [] => ret tt
  | e :: es' => draw_line e (i =? s)%nat;; printf (CR ++ LF);;
                draw_lines es' (S i) s
  end.

(** The full repaint inside the [if (fetch_dir) { ... }] block. *)
Definition render (l : locals) : M unit :=
  printf (ESC ++ "[2J" ++ ESC ++ "[H" ++ user_and_hostname cfg
          ++ ESC ++ "[34;1m" ++ path l ++ CR ++ LF ++ LF);;
  (if (n l =? 0)%nat
   then printf (ESC ++ "[31;7mdirectory empty" ++ ESC ++ "[27m")
   else draw_lines (ents l) 0 (sel l));;
  printf (ESC ++ "[3;1H").

(** The [if (fetch_dir) { ... }] block at the head of the loop. *)
Definition fetch (l : locals) : M locals :=
  if fetch_dir l then
    r <- read_dir (path l) (ents_size l) (last_dir l) (show_hidden l);;
    let '(elems, size, dir) := r in
    let l' := {| path := path l; show_hidden := show_hidden l;
                 fetch_dir := false; sel := 0%nat; ents := elems;
                 ents_size := size; last_dir := dir |} in
    render l';;
    ret l'
  else ret l.

Definition key (c : ascii) : Z := byte c.

(** The first [switch (c)]. *)
Definition switch_always (c : Z) (l : locals) : M locals :=
  if c =? key "h" then ret (set_fetch_dir true (set_path (dirname cfg (path l)) l))
  else if c =? key "~" then
    p <- written (strcpy PATH_MAX (home cfg));;
    ret (set_fetch_dir true (set_path p l))
  else if c =? key "/" then
    p <- written (strcpy PATH_MAX "/");;
    ret (set_fetch_dir true (set_path p l))
  else if c =? key "." then
    ret (set_fetch_dir true (set_show_hidden (negb (show_hidden l)) l))
  else if c =? key "r" then ret (set_fetch_dir true l)
  else if c =? key "s" then
    spawn (path l) (shell cfg) None;; ret (set_fetch_dir true l)
  else if c =? key "q" then exit EXIT_SUCCESS
  else ret l.

(** The second [switch (c)], reached with [n != 0]. *)
Definition switch_entry (c : Z) (l : locals) : M locals :=
  if c =? key "j" then
    if (sel l <? n l - 1)%nat then
      e <- elem_at l (sel l);;
      draw_line e false;; printf (CR ++ LF);;
      let l' := set_sel (S (sel l)) l in
      e' <- elem_at l' (sel l');;
      draw_line e' true;; printf CR;;
      ret l'
    else ret l
  else if c =? key "k" then
    if (0 <? sel l)%nat then
      e <- elem_at l (sel l);;
      draw_line e false;; printf (CR ++ ESC ++ "[A");;
      let l' := set_sel (sel l - 1)%nat l in
      e' <- elem_at l' (sel l');;
      draw_line e' true;; printf CR;;
      ret l'
    else ret l
  else if c =? key "l" then
    e <- elem_at l (sel l);;
    if elem_type_eqb (type e) TYPE_DIR || elem_type_eqb (type e) TYPE_SYML_TO_DIR
    then
      p <- (if negb (char_at (path l) 1 =? 0)
            then written (strcat PATH_MAX (path l) "/")
            else ret (path l));;
      p' <- written (strcat PATH_MAX p (d_name e));;
      ret (set_fetch_dir true (set_path p' l))
    else ret l
  else if c =? key "g" then
    e <- elem_at l (sel l);;
    draw_line e false;; printf (ESC ++ "[3;1H");;
    let l' := set_sel 0%nat l in
    e' <- elem_at l' (sel l');;
    draw_line e' true;; printf CR;;
    ret l'
  else if c =? key "G" then
    e <- elem_at l (sel l);;
    draw_line e false;;
    row <- get g_row;;
    let cnt := size_t (Z.of_nat (n l)) in
    printf (ESC ++ "["
            ++ decimal (size_t (2 + (if cnt <? size_t (size_t row - 3)
                                     then cnt else size_t row)))
            ++ ";1H");;
    let l' := set_sel (n l - 1)%nat l in
    e' <- elem_at l' (sel l');;
    draw_line e' true;; printf CR;;
    ret l'
  else if c =? key "e" then
    e <- elem_at l (sel l);;
    spawn (path l) (editor cfg) (Some (d_name e));;
    ret (set_fetch_dir true l)
  else if c =? key "x" then
    e <- elem_at l (sel l);;
    match last_dir l with
    | Some d =>
        emit (Unlinkat d (d_name e)
                (if elem_type_eqb (type e) TYPE_DIR then AT_REMOVEDIR else 0));;
        ret (set_fetch_dir true l)
    | None => stop Undefined      (* dirfd(NULL) *)
    end
  else ret l.

(** From [getchar] returning [c] to the end of the loop body. *)
Definition dispatch (c : Z) (l : locals) : M locals :=
  l1 <- switch_always c l;;
  if (n l1 =? 0)%nat then ret l1
  else switch_entry c l1.

(** The part of the loop body before [getchar]. *)
Definition redraw (l : locals) : M locals :=
  l' <- fetch l;;
  emit Fflush;;
  ret l'.

End Program.

Arguments exit w {A} status.
Arguments _exit {A} status.

(** ** The loop, cut at [getchar]

    The process blocks in [getchar]; that is where a key arrives and where
    a SIGWINCH is delivered.  One step runs from one blocking point to the
    next: the rest of the loop body after [getchar], then the head of the
    next pass.  Each step has its own [world]: the system may have changed
    in between. *)

Inductive input :=
| Key (c : Z)        (* getchar returned c *)
| Resize.            (* SIGWINCH was delivered *)

Definition step (cfg : config) (w : world) (i : input) (l : locals)
  : M locals :=
  match i with
  | Key c => l' <- dispatch w cfg c l;; redraw w cfg l'
  | Resize => handle_winch w SIGWINCH;; ret l
  end.

Fixpoint run (cfg : config) (inputs : list (world * input)) (l : locals)
  : M locals :=
  match inputs with
  | [] => ret l
  | (w, i) :: rest => l' <- step cfg w i l;; run cfg rest l'
  end.

(** The part of [main] between the allocations and the loop.  ([n] is not
    assigned before the first pass, which always fetches; the list of
    elements starts empty.) *)
Definition startup (w : world) : M unit :=
  ok <- get_term_size w;;
  if negb ok then exit w EXIT_FAILURE
  else
    emit (Signal SIGWINCH Handle_winch);;
    ok' <- setup_terminal w;;
    if negb ok' then exit w EXIT_FAILURE
    else set_at_exit.

Definition initial (path0 : string) : locals :=
  {| path := path0; show_hidden := false; fetch_dir := true; sel := 0%nat;
     ents := []; ents_size := ENT_ALLOC_NUM; last_dir := None |}.

(** [main], up to the first [getchar], then along the inputs. *)
Definition main (cfg : config) (w0 : world) (path0 : string)
    (inputs : list (world * input)) : M locals :=
  startup w0;;
  l <- redraw w0 cfg (initial path0);;
  run cfg inputs l.

(** ** [main] before the terminal is set up, and the identity string

    Until [get_term_size] is called, [main] consults the environment and
    may write to stderr and exit; the process state of the model is not
    touched.  That part is a function of the environment. *)

Definition getenv_or (getenv : string -> option string) (name fallback : string)
  : string :=
  match getenv name with
  | None => fallback
  | Some r => r
  end.

Record environ := {
  isatty_stdin : bool;
  isatty_stdout : bool;
  (** [malloc(PATH_MAX)] does not return NULL *)
  malloc_path : bool;
  (** [argv[1]], when [argc > 1] *)
  argv1 : option string;
  (** the current directory, [None] when [getcwd] cannot tell *)
  getcwd : option string;
  getenv : string -> option string;
  (** the string [getlogin] returns, [None] for NULL *)
  getlogin : option string;
  malloc_hostname : bool;
  (** what [gethostname] stores, [None] for a result < 0 *)
  gethostname : option string;
  malloc_ents : bool;
  malloc_user_and_hostname : bool;
  libc_dirname : string -> string
}.

(** How [main] ends before it reaches the terminal. *)
Inductive early :=
| Not_a_tty                      (* fprintf(stderr, ...); exit(EXIT_FAILURE) *)
| Fatal (messages : list string) (* perror of each; exit(EXIT_FAILURE) *)
| Null_buffer                    (* perror("malloc"); gethostname(NULL, ...) *)
| Long_argument.                 (* strcpy(path, argv[1]) past the buffer *)

Record prepared := {
  p_path : string;
  p_editor : string;
  p_shell : string;
  p_home : string;
  p_user : option string;
  p_hostname : option string;     (* [None]: NULL *)
  p_perrors : list string         (* written with perror on the way *)
}.

Definition prologue (env : environ) : early + prepared :=
  if negb (isatty_stdin env && isatty_stdout env) then inl Not_a_tty
  else if negb (malloc_path env) then inl (Fatal ["malloc"])
  else
    match (match argv1 env with
           | Some a =>
               match strcpy PATH_MAX a with
               | Some p => inr p
               | None => inl Long_argument
               end
           | None =>
               (* getcwd(path, PATH_MAX) returns NULL when the buffer is
                  too small *)
               match getcwd env with
               | Some d => if (String.length d <? PATH_MAX)%nat then inr d
                           else inl (Fatal ["getcwd"])
               | None => inl (Fatal ["getcwd"])
               end
           end) with
    | inl e => inl e
    | inr path0 =>
        let editor := getenv_or (getenv env) "EDITOR" "vi" in
        let shell := getenv_or (getenv env) "SHELL" "/bin/sh" in
        let home := getenv_or (getenv env) "HOME" "/" in
        let user := getlogin env in
        if negb (malloc_hostname env) then inl Null_buffer
        else
          let '(hostname, perrors) :=
            match gethostname env with
            | None => (None, ["gethostname"])
            | Some h => (Some h, [])
            end in
          if negb (malloc_ents env) then inl (Fatal (perrors ++ ["malloc"])%list)
          else inr {| p_path := path0; p_editor := editor; p_shell := shell;
                      p_home := home; p_user := user; p_hostname := hostname;
                      p_perrors := perrors |}
    end.

(** The bytes [main] asks [malloc] for, and the string it then builds with
    [strcpy] and four [strcat]. *)
Definition user_and_hostname_size (user hostname : string) : nat :=
  (String.length user + String.length hostname
   + String.length (ESC ++ "[32;1m@" ++ ESC ++ "[0m:") + 1)%nat.

Definition and_then {A B} (r : option A) (f : A -> option B) : option B :=
  match r with
  | Some a => f a
  | None => None
  end.

Definition build_user_and_hostname (user hostname : string) : option string :=
  let size := user_and_hostname_size user hostname in
  and_then (strcpy size (ESC ++ "[32;1m")) (fun s =>
  and_then (strcat size s user) (fun s =>
  and_then (strcat size s "@") (fun s =>
  and_then (strcat size s hostname) (fun s =>
  strcat size s (ESC ++ "[0m:"))))).

Fixpoint perrors (messages : list string) : M unit :=
  match messages with
  | [] => ret tt
  | s :: rest => perror s;; perrors rest
  end.

(** The whole of [main], once it has got past [prologue]: the messages
    already written, the terminal, the identity string, the loop.
    [strlen] of a NULL user or host name is undefined. *)
Definition filet_from (env : environ) (p : prepared) (w0 : world)
    (inputs : list (world * input)) : M locals :=
  perrors (p_perrors p);;
  startup w0;;
  match p_user p, p_hostname p with
  | Some user, Some hostname =>
      if negb (malloc_user_and_hostname env)
      then perror "malloc";; exit w0 EXIT_FAILURE
      else
        s <- written (build_user_and_hostname user hostname);;
        let cfg := {| editor := p_editor p; shell := p_shell p;
                      home := p_home p; user_and_hostname := s;
                      dirname := libc_dirname env |} in
        l <- redraw w0 cfg (initial (p_path p));;
        run cfg inputs l
  | _, _ => stop Undefined
  end.

Definition filet (env : environ) (w0 : world) (inputs : list (world * input))
  : early + M locals :=
  match prologue env with
  | inl e => inl e
  | inr p => inr (filet_from env p w0 inputs)
  end.

(** ** Vocabulary of the specification *)

(** The kinds that sort first and that [enter] descends into. *)
Definition dir_kind (e : direlement) : Prop :=
  type e = TYPE_DIR \/ type e = TYPE_SYML_TO_DIR.

(** Byte-wise lexicographic order of names ([String.leb] compares the
    codes of the characters). *)
Definition name_le (a b : string) : Prop := String.leb a b = true.

(** The names of a listing. *)
Definition names_of (l : list direlement) : list string := map d_name l.

(** The selection addresses an entry, or is 0 in an empty listing. *)
Definition sel_in_range (l : locals) : Prop :=
  (n l <> 0%nat -> (sel l < n l)%nat) /\ (n l = 0%nat -> sel l = 0%nat).

(** A C string holds no NUL byte.  The names a directory stream yields and
    the path are C strings. *)
Fixpoint c_string (s : string) : bool :=
  match s with
  | EmptyString => true
  | String c r => negb (byte c =? 0) && c_string r
  end.

(** The stream has kept every name it handed out: what an entry shows is
    the name of the member.  (With glibc: the directory was read with one
    filling of the buffer.) *)
Definition stable (stream : list dirent) : Prop :=
  forall ent, In ent stream -> ent_kept ent = ent_name ent.

(** The stream of a directory read in one go. *)
Definition stream_of (names : list string) : list dirent :=
  map (fun name => {| ent_name := name; ent_kept := name |}) names.

(** Two states of the file system hold the same files: every directory has
    the same members and stat answers alike.  The members are enumerated
    in the same order, or in another order by a stream that keeps their
    names. *)
Definition same_files (w w' : world) : Prop :=
  (forall dir,
     match w_opendir w dir, w_opendir w' dir with
     | Some stream, Some stream' =>
         stream = stream' \/ (Permutation stream stream' /\ stable stream)
     | None, None => True
     | _, _ => False
     end) /\
  (forall dir name flags, w_fstatat w dir name flags = w_fstatat w' dir name flags).

(** A name is one of the two pseudo-entries. *)
Definition pseudo_entry (name : string) : Prop := name = "." \/ name = "..".

Definition hidden_name (name : string) : Prop :=
  exists rest, name = String "."%char rest.

(** ** Notions used in the statements and proofs *)

(** The order a comparison function stands for. *)
Definition le_by {A : Type} (cmp : A -> A -> Z) (a b : A) : Prop := cmp a b <= 0.

Definition is_dir (e : direlement) : bool :=
  elem_type_eqb (type e) TYPE_DIR || elem_type_eqb (type e) TYPE_SYML_TO_DIR.

(** The order [qsort] is asked to establish. *)
Definition elem_le (a b : direlement) : Prop := direlemcmp a b <= 0.

(** What one pass of the [readdir] loop appends for what [readdir] has
    handed out, if anything. *)
Definition entry_of (w : world) (dir : string) (show_hidden : bool) (ent : dirent)
  : option direlement :=
  let name := ent_name ent in
  if (char_at name 0 =? dot) &&
     ((char_at name 1 =? 0) || ((char_at name 1 =? dot) && (char_at name 2 =? 0)))
  then None
  else if negb show_hidden && (char_at name 0 =? dot) then None
  else match w_fstatat w dir name AT_SYMLINK_NOFOLLOW with
       | None => None
       | Some sb => Some {| type := classify w dir name sb;
                            d_name := ent_kept ent |}
       end.

(** The entries the loop appends, in the order of the stream. *)
Fixpoint visible (w : world) (dir : string) (show_hidden : bool)
    (stream : list dirent) : list direlement :=
  match stream with
  | [] => []
  | ent :: rest =>
      match entry_of w dir show_hidden ent with
      | Some e => e :: visible w dir show_hidden rest
      | None => visible w dir show_hidden rest
      end
  end.

(** The process state once [read_dir] has closed the previous stream. *)
Definition closed (last_dir : option string) (m : machine) : machine :=
  match last_dir with
  | Some d => snd (emit (Closedir d) m)
  | None => m
  end.

(** [safe c Q]: when [c] returns, the value it returns satisfies [Q]; when
    it stops the process, it is not for a read out of bounds or through
    NULL.  (A string written past its buffer is [Overrun].) *)
Definition safe {A} (c : M A) (Q : A -> Prop) : Prop :=
  forall m, match fst (c m) with
            | Val a => Q a
            | Stop h => h <> Undefined
            end.

Definition anything {A} (a : A) : Prop := True.

(** What holds of the variables of the loop each time round. *)
Definition loop_inv (l : locals) : Prop :=
  sel_in_range l /\ (n l <> 0%nat -> last_dir l <> None) /\
  StronglySorted elem_le (ents l).

Definition same_listing (l l' : locals) : Prop :=
  ents l' = ents l /\ last_dir l' = last_dir l.

(** [preserves f c]: [c] leaves the component [f] of the process state as
    it found it, however it ends. *)
Definition preserves {A X} (f : machine -> X) (c : M A) : Prop :=
  forall m, f (snd (c m)) = f m.

(** The geometry: the two globals [get_term_size] assigns. *)
Definition geometry (m : machine) : Z * Z := (g_row m, g_col m).

(** The listing [read_dir] returns when it returns. *)
Definition listing (w : world) (dir : string) (sh : bool) : list direlement :=
  match w_opendir w dir with
  | None => []
  | Some stream => qsort (visible w dir sh stream) direlemcmp
  end.

(** [returns c]: [c] never stops the process. *)
Definition returns {A} (c : M A) : Prop := forall m, exists a, fst (c m) = Val a.

(** The variables of the loop after a fetch that read [elems]. *)
Definition fetched (l : locals) (elems : list direlement) (size : nat)
    (dir : option string) : locals :=
  {| path := path l; show_hidden := show_hidden l; fetch_dir := false;
     sel := 0%nat; ents := elems; ents_size := size; last_dir := dir |}.

(** What [setup_terminal] makes of the attributes it finds. *)
Definition raw_of (t : termios) : termios :=
  {| c_iflag := c_iflag t;
     c_oflag := Z.land (c_oflag t) (Z.lnot OPOST);
     c_cflag := c_cflag t;
     c_lflag := Z.land (c_lflag t) (Z.lnot (Z.lor ECHO ICANON)) |}.

(** The path the key [l] asks for on an entry named [name]. *)
Definition entered (p name : string) : string :=
  if negb (char_at p 1 =? 0) then p ++ "/" ++ name else p ++ name.

(** [l'] is [l] with the path [p] and a listing marked stale. *)
Definition moved_to (p : string) (l l' : locals) : Prop :=
  path l' = p /\ fetch_dir l' = true /\ show_hidden l' = show_hidden l /\
  sel l' = sel l /\ ents l' = ents l /\ ents_size l' = ents_size l /\
  last_dir l' = last_dir l.

(** The identity string shown before the path. *)
Definition identity_string (user hostname : string) : string :=
  ESC ++ "[32;1m" ++ user ++ "@" ++ hostname ++ ESC ++ "[0m:".

(** The two control strings of the terminal protocol. *)
Definition setup_sequence (row : Z) : string :=
  ESC ++ "[?1049h" ++ ESC ++ "[?7l" ++ ESC ++ "[?25l" ++ ESC ++ "[2J"
  ++ ESC ++ "[3;" ++ decimal row ++ "r".

Definition restore_sequence : string :=
  ESC ++ "[?7h" ++ ESC ++ "[?25h" ++ ESC ++ "[;r" ++ ESC ++ "[?1049l".

(** The process state with more events in its trace. *)
Definition add_trace (es : list event) (m : machine) : machine :=
  {| g_old_termios := g_old_termios m; g_row := g_row m; g_col := g_col m;
     tty := tty m; at_exit := at_exit m; trace := (trace m ++ es)%list |}.

(** Every call on the terminal attributes succeeds. *)
Definition termios_ok (w : world) : Prop :=
  w_tcgetattr w = true /\ forall action t, w_tcsetattr w action t = true.

(** The terminal is set up over the attributes [t0], which [exit] will
    bring back. *)
Definition set_up_over (t0 : termios) (m : machine) : Prop :=
  at_exit m = true /\ g_old_termios m = t0 /\ tty m = raw_of t0.

(** The test a member of a directory passes to be listed. *)
Definition listed (w : world) (dir : string) (sh : bool) (ent : dirent) : bool :=
  match entry_of w dir sh ent with
  | Some _ => true
  | None => false
  end.

(** The colour [draw_line] switches to. *)
Definition colour (t : elem_type) : string :=
  match t with
  | TYPE_DIR => ESC ++ "[34;1m"
  | TYPE_SYML | TYPE_SYML_TO_DIR => ESC ++ "[36;1m"
  | TYPE_EXEC => ESC ++ "[32;1m"
  | TYPE_NORM => ESC ++ "[0m"
  end.

(** What [draw_line] writes. *)
Definition line_events (e : direlement) (is_sel : bool) : list event :=
  [ Stdout (colour (type e));
    Stdout (if is_sel then ">  " ++ d_name e else "  " ++ d_name e ++ " ") ].

(** The keys the first and the second [switch] know. *)
Definition always_keys : list Z :=
  map key ["h"; "~"; "/"; "."; "r"; "s"; "q"]%char.

Definition entry_keys : list Z :=
  map key ["j"; "k"; "l"; "g"; "G"; "e"; "x"]%char.

(** Some status reports the end of the child. *)
Definition ends (statuses : list Z) : bool :=
  existsb (fun s => WIFEXITED s || WIFSIGNALED s) statuses.

(** [keeps I c]: when [c] returns, it has kept [I] of the process state. *)
Definition keeps {A} (I : machine -> Prop) (c : M A) : Prop :=
  forall m a m', I m -> c m = (Val a, m') -> I m'.

(** [gives c Q]: when [c] returns, the value it returns satisfies [Q]. *)
Definition gives {A} (c : M A) (Q : A -> Prop) : Prop :=
  forall m a m', c m = (Val a, m') -> Q a.

(** The variables of the loop when the program waits for input. *)
Definition waiting (l : locals) : Prop :=
  fetch_dir l = false /\
  (List.length (ents l) <= ents_size l)%nat /\
  (ENT_ALLOC_NUM <= ents_size l)%nat /\
  (ents l <> [] -> last_dir l = Some (path l)).

(** ** A directory used in the examples: Scenario A of the specification *)

Module Example.

Definition mode (name : string) : option Z :=
  if String.eqb name "banana" then Some (Z.lor S_IFDIR 0x1ED)
  else if String.eqb name "Apple" then Some (Z.lor S_IFREG 0x1A4)
  else if String.eqb name "cherry.sh" then Some (Z.lor S_IFREG 0x1ED)
  else if String.eqb name ".hidden" then Some (Z.lor S_IFREG 0x1A4)
  else if String.eqb name "." then Some (Z.lor S_IFDIR 0x1ED)
  else if String.eqb name ".." then Some (Z.lor S_IFDIR 0x1ED)
  else None.

Definition cooked : termios :=
  {| c_iflag := 0x500; c_oflag := 0x5; c_cflag := 0xBF; c_lflag := 0x8A3B |}.

Definition world_a : world :=
  {| w_opendir := fun p =>
       if String.eqb p "/tmp/proj"
       then Some (stream_of
                    ["."; "cherry.sh"; ".hidden"; ".."; "banana"; "Apple"])
       else None;
     w_fstatat := fun _ name _ =>
       match mode name with
       | Some m => Some {| st_mode := m |}
       | None => None
       end;
     w_realloc := fun _ => true;
     w_fork := 4242;
     w_chdir := fun _ => true;
     w_execlp := fun _ => true;
     w_waitpid := [0];
     w_tcgetattr := true;
     w_tcsetattr := fun _ _ => true;
     w_ioctl := Some (24, 80) |}.

(** A directory that holds a FIFO with mode 0755. *)
Definition world_pipe : world :=
  {| w_opendir := fun _ => Some (stream_of ["."; ".."; "pipe"]);
     w_fstatat := fun _ name _ =>
       if String.eqb name "pipe" then Some {| st_mode := Z.lor S_IFIFO 0x1ED |}
       else Some {| st_mode := Z.lor S_IFDIR 0x1ED |};
     w_realloc := fun _ => true;
     w_fork := 4242;
     w_chdir := fun _ => true;
     w_execlp := fun _ => true;
     w_waitpid := [0];
     w_tcgetattr := true;
     w_tcsetattr := fun _ _ => true;
     w_ioctl := Some (24, 80) |}.

(** A directory the user may read but not search (mode r--): its names
    can be enumerated, stat on them fails with EACCES. *)
Definition world_unsearchable : world :=
  {| w_opendir := fun _ => Some (stream_of ["."; ".."; ".hidden"; "file"]);
     w_fstatat := fun _ _ _ => None;
     w_realloc := fun _ => true;
     w_fork := 4242;
     w_chdir := fun _ => true;
     w_execlp := fun _ => true;
     w_waitpid := [0];
     w_tcgetattr := true;
     w_tcsetattr := fun _ _ => true;
     w_ioctl := Some (24, 80) |}.

(** A directory of 65 regular files, and an allocator that has nothing
    left to give. *)
Definition world_full : world :=
  {| w_opendir := fun _ =>
       Some (stream_of (map (fun i => "f" ++ decimal (Z.of_nat i)) (seq 0 65)));
     w_fstatat := fun _ _ _ => Some {| st_mode := Z.lor S_IFREG 0x1A4 |};
     w_realloc := fun _ => false;
     w_fork := 4242;
     w_chdir := fun _ => true;
     w_execlp := fun _ => true;
     w_waitpid := [0];
     w_tcgetattr := true;
     w_tcsetattr := fun _ _ => true;
     w_ioctl := Some (24, 80) |}.

(** The system refuses to create a process. *)
Definition world_nofork : world :=
  {| w_opendir := w_opendir world_a;
     w_fstatat := w_fstatat world_a;
     w_realloc := fun _ => true;
     w_fork := -1;
     w_chdir := fun _ => true;
     w_execlp := fun _ => true;
     w_waitpid := [];
     w_tcgetattr := true;
     w_tcsetattr := fun _ _ => true;
     w_ioctl := Some (24, 80) |}.

(** The terminal in the state [setup_terminal] leaves it in. *)
Definition raw : termios :=
  {| c_iflag := 0x500; c_oflag := 0x4; c_cflag := 0xBF; c_lflag := 0x8A31 |}.

Definition machine_raw : machine :=
  {| g_old_termios := cooked; g_row := 24; g_col := 80; tty := raw;
     at_exit := true; trace := [] |}.

(** The program was started on the directory ".", which holds a
    directory "src". *)
Definition locals_dot : locals :=
  {| path := "."; show_hidden := false; fetch_dir := false; sel := 0%nat;
     ents := [ {| type := TYPE_DIR; d_name := "src" |} ];
     ents_size := 64%nat; last_dir := Some "." |}.

(** The terminal went away: the size query fails. *)
Definition world_notty : world :=
  {| w_opendir := w_opendir world_a;
     w_fstatat := w_fstatat world_a;
     w_realloc := fun _ => true;
     w_fork := 4242;
     w_chdir := fun _ => true;
     w_execlp := fun _ => true;
     w_waitpid := [0];
     w_tcgetattr := true;
     w_tcsetattr := fun _ _ => true;
     w_ioctl := None |}.

(** The files of [world_a], enumerated in another order. *)
Definition world_a' : world :=
  {| w_opendir := fun p =>
       if String.eqb p "/tmp/proj"
       then Some (stream_of
                    ["Apple"; "."; ".."; "banana"; ".hidden"; "cherry.sh"])
       else None;
     w_fstatat := w_fstatat world_a;
     w_realloc := fun _ => true;
     w_fork := 4242;
     w_chdir := fun _ => true;
     w_execlp := fun _ => true;
     w_waitpid := [0];
     w_tcgetattr := true;
     w_tcsetattr := fun _ _ => true;
     w_ioctl := Some (50, 132) |}.

(** [world_a] at a [getchar], hidden files not shown. *)
Definition locals_a : locals :=
  {| path := "/tmp/proj"; show_hidden := false; fetch_dir := false;
     sel := 0%nat;
     ents := [ {| type := TYPE_DIR; d_name := "banana" |};
               {| type := TYPE_NORM; d_name := "Apple" |};
               {| type := TYPE_EXEC; d_name := "cherry.sh" |} ];
     ents_size := 64%nat; last_dir := Some "/tmp/proj" |}.

(** Scenario B: a directory of five regular files. *)
Definition world_b : world :=
  {| w_opendir := fun _ => Some (stream_of ["."; ".."; "e"; "d"; "c"; "b"; "a"]);
     w_fstatat := fun _ _ _ => Some {| st_mode := Z.lor S_IFREG 0x1A4 |};
     w_realloc := fun _ => true;
     w_fork := 4242;
     w_chdir := fun _ => true;
     w_execlp := fun _ => true;
     w_waitpid := [0];
     w_tcgetattr := true;
     w_tcsetattr := fun _ _ => true;
     w_ioctl := Some (24, 80) |}.

(** The process is the child of the [fork]. *)
Definition world_child : world :=
  {| w_opendir := w_opendir world_a;
     w_fstatat := w_fstatat world_a;
     w_realloc := fun _ => true;
     w_fork := 0;
     w_chdir := fun _ => true;
     w_execlp := fun _ => true;
     w_waitpid := [];
     w_tcgetattr := true;
     w_tcsetattr := fun _ _ => true;
     w_ioctl := Some (24, 80) |}.

(** The child is stopped by SIGSTOP (status 0x137f) and never goes on. *)
Definition world_stopped : world :=
  {| w_opendir := w_opendir world_a;
     w_fstatat := w_fstatat world_a;
     w_realloc := fun _ => true;
     w_fork := 4242;
     w_chdir := fun _ => true;
     w_execlp := fun _ => true;
     w_waitpid := [0x137f; 0x137f];
     w_tcgetattr := true;
     w_tcsetattr := fun _ _ => true;
     w_ioctl := Some (24, 80) |}.

(** Attributes cannot be set with TCSAFLUSH. *)
Definition world_stuck : world :=
  {| w_opendir := w_opendir world_a;
     w_fstatat := w_fstatat world_a;
     w_realloc := fun _ => true;
     w_fork := 4242;
     w_chdir := fun _ => true;
     w_execlp := fun _ => true;
     w_waitpid := [0];
     w_tcgetattr := true;
     w_tcsetattr := fun action _ => negb (action =? TCSAFLUSH);
     w_ioctl := Some (24, 80) |}.

(** A directory of 130 regular files. *)
Definition world_many : world :=
  {| w_opendir := fun _ =>
       Some (stream_of
               (map (fun i => "f" ++ decimal (Z.of_nat i)) (seq 0 130)));
     w_fstatat := fun _ _ _ => Some {| st_mode := Z.lor S_IFREG 0x1A4 |};
     w_realloc := fun _ => true;
     w_fork := 4242;
     w_chdir := fun _ => true;
     w_execlp := fun _ => true;
     w_waitpid := [0];
     w_tcgetattr := true;
     w_tcsetattr := fun _ _ => true;
     w_ioctl := Some (24, 80) |}.

(** [filet /tmp/proj] with EDITOR=nano and HOME=/home/user. *)
Definition env_a : environ :=
  {| isatty_stdin := true; isatty_stdout := true; malloc_path := true;
     argv1 := Some "/tmp/proj"; getcwd := Some "/home/user";
     getenv := fun name =>
       if String.eqb name "EDITOR" then Some "nano"
       else if String.eqb name "HOME" then Some "/home/user"
       else None;
     getlogin := Some "user";
     malloc_hostname := true; gethostname := Some "host";
     malloc_ents := true; malloc_user_and_hostname := true;
     libc_dirname := fun p => if String.eqb p "/tmp/proj" then "/tmp" else "/" |}.

(** The same, with a host name that cannot be read. *)
Definition env_nohost : environ :=
  {| isatty_stdin := true; isatty_stdout := true; malloc_path := true;
     argv1 := Some "/tmp/proj"; getcwd := Some "/home/user";
     getenv := getenv env_a;
     getlogin := Some "user";
     malloc_hostname := true; gethostname := None;
     malloc_ents := true; malloc_user_and_hostname := true;
     libc_dirname := libc_dirname env_a |}.

(** A directory that did not fit the buffer of its stream: by the time
    the stream has been read to its end, the place where "alpha" was
    handed out holds "gamma". *)
Definition world_refilled : world :=
  {| w_opendir := fun _ =>
       Some [ {| ent_name := "alpha"; ent_kept := "gamma" |};
              {| ent_name := "beta"; ent_kept := "beta" |};
              {| ent_name := "gamma"; ent_kept := "gamma" |} ];
     w_fstatat := fun _ name _ =>
       if String.eqb name "alpha" then Some {| st_mode := Z.lor S_IFDIR 0x1ED |}
       else Some {| st_mode := Z.lor S_IFREG 0x1A4 |};
     w_realloc := fun _ => true;
     w_fork := 4242;
     w_chdir := fun _ => true;
     w_execlp := fun _ => true;
     w_waitpid := [0];
     w_tcgetattr := true;
     w_tcsetattr := fun _ _ => true;
     w_ioctl := Some (24, 80) |}.

(** [world_a] at a [getchar], with a listing read before "Apple" was
    created. *)
Definition locals_stale : locals :=
  {| path := "/tmp/proj"; show_hidden := false; fetch_dir := false;
     sel := 0%nat;
     ents := [ {| type := TYPE_DIR; d_name := "banana" |};
               {| type := TYPE_EXEC; d_name := "cherry.sh" |} ];
     ents_size := 64%nat; last_dir := Some "/tmp/proj" |}.

Fixpoint replicate (k : nat) (c : ascii) : string :=
  match k with
  | O => EmptyString
  | S k' => String c (replicate k' c)
  end.

(** A path of 4094 bytes, and the program in its directory, which holds a
    directory "b". *)
Definition long_path : string := String "/"%char (replicate 4093 "a"%char).

Definition locals_long : locals :=
  {| path := long_path; show_hidden := false; fetch_dir := false;
     sel := 0%nat;
     ents := [ {| type := TYPE_DIR; d_name := "b" |} ];
     ents_size := 64%nat; last_dir := Some long_path |}.

Definition cfg_a : config :=
  {| editor := "vi"; shell := "/bin/sh"; home := "/home/user";
     user_and_hostname := ESC ++ "[32;1muser@host" ++ ESC ++ "[0m:";
     dirname := fun p => if String.eqb p "/tmp/proj" then "/tmp" else "/" |}.

Definition machine_a : machine :=
  {| g_old_termios := cooked; g_row := 0; g_col := 0; tty := cooked;
     at_exit := false; trace := [] |}.

End Example.

(** * Properties *)

(** ** [strcmp] and [direlemcmp] *)

Lemma byte_compare (c d : ascii) : (byte c ?= byte d) = Ascii.compare c d.
Proof. unfold byte, Ascii.compare. apply N2Z.inj_compare. Qed.

Lemma strcmp_compare (a b : string) :
  strcmp a b = match String.compare a b with Eq => 0 | Lt => -1 | Gt => 1 end.
Proof.
  revert b; induction a as [|c a IH]; intros [|d b]; simpl; try reflexivity.
  rewrite byte_compare. destruct (Ascii.compare c d); auto.
Qed.

Lemma strcmp_le (a b : string) : strcmp a b <= 0 <-> name_le a b.
Proof.
  unfold name_le, String.leb. rewrite strcmp_compare.
  destruct (String.compare a b); split; intro H; try lia; auto; discriminate.
Qed.

Lemma strcmp_eq (a b : string) : strcmp a b = 0 -> a = b.
Proof.
  rewrite strcmp_compare. destruct (String.compare a b) eqn:E; try lia.
  intros _. now apply String.compare_eq_iff.
Qed.

Lemma strcmp_antisym (a b : string) : strcmp a b = - strcmp b a.
Proof.
  rewrite !strcmp_compare, String.compare_antisym.
  destruct (String.compare b a); reflexivity.
Qed.

Lemma strcmp_trans (a b c : string) :
  strcmp a b <= 0 -> strcmp b c <= 0 -> strcmp a c <= 0.
Proof.
  revert b c; induction a as [|x a IH]; intros [|y b] [|z c]; simpl;
    try lia.
  destruct (Z.compare_spec (byte x) (byte y)) as [Exy|Lxy|Gxy];
    destruct (Z.compare_spec (byte y) (byte z)) as [Eyz|Lyz|Gyz];
    destruct (Z.compare_spec (byte x) (byte z)) as [Exz|Lxz|Gxz];
    try lia.
  apply IH.
Qed.

Lemma is_dir_kind (e : direlement) : is_dir e = true <-> dir_kind e.
Proof.
  unfold is_dir, dir_kind. destruct (type e); simpl; split; intro H;
    try reflexivity; try discriminate; auto;
    destruct H as [H|H]; discriminate.
Qed.

Lemma direlemcmp_unfold (a b : direlement) :
  direlemcmp a b =
  if negb (Bool.eqb (is_dir a) (is_dir b))
  then (if is_dir a then -1 else 1)
  else strcmp (d_name a) (d_name b).
Proof. reflexivity. Qed.

Lemma elem_le_iff (a b : direlement) :
  elem_le a b <->
  (is_dir a = true /\ is_dir b = false) \/
  (is_dir a = is_dir b /\ name_le (d_name a) (d_name b)).
Proof.
  unfold elem_le. rewrite direlemcmp_unfold, <- strcmp_le.
  destruct (is_dir a), (is_dir b); simpl; split; intro H;
    try lia; auto;
    destruct H as [[H1 H2]|[H1 H2]]; try discriminate; try lia.
Qed.

Lemma elem_le_trans (a b c : direlement) :
  elem_le a b -> elem_le b c -> elem_le a c.
Proof.
  unfold elem_le. rewrite !direlemcmp_unfold.
  destruct (is_dir a), (is_dir b), (is_dir c); simpl; try lia;
    apply strcmp_trans.
Qed.

Lemma elem_le_total (a b : direlement) : elem_le a b \/ elem_le b a.
Proof.
  unfold elem_le. rewrite !direlemcmp_unfold.
  destruct (is_dir a), (is_dir b); simpl; try lia;
    rewrite (strcmp_antisym (d_name b)); lia.
Qed.

(** Entries that compare equal in both directions have the same name and
    belong to the same group. *)
Lemma elem_le_antisym (a b : direlement) :
  elem_le a b -> elem_le b a -> d_name a = d_name b /\ is_dir a = is_dir b.
Proof.
  unfold elem_le. rewrite !direlemcmp_unfold.
  destruct (is_dir a), (is_dir b); simpl; try lia; intros H1 H2;
    (split; [apply strcmp_eq; rewrite strcmp_antisym in H2; lia | reflexivity]).
Qed.

(** ** [qsort] *)

Section Qsort.

Context {A : Type} (cmp : A -> A -> Z).

Hypothesis le_trans :
  forall a b c, le_by cmp a b -> le_by cmp b c -> le_by cmp a c.
Hypothesis le_total : forall a b, le_by cmp a b \/ le_by cmp b a.

Lemma qsort_insert_perm (x : A) (l : list A) :
  Permutation (x :: l) (qsort_insert cmp x l).
Proof.
  induction l as [|y l IH]; simpl; [reflexivity|].
  destruct (cmp x y <=? 0); [reflexivity|].
  rewrite perm_swap. now constructor.
Qed.

Lemma qsort_perm (l : list A) : Permutation l (qsort l cmp).
Proof.
  induction l as [|x l IH]; simpl; [constructor|].
  unfold qsort in *; simpl.
  rewrite <- qsort_insert_perm. now constructor.
Qed.

Lemma qsort_insert_sorted (x : A) (l : list A) :
  StronglySorted (le_by cmp) l ->
  StronglySorted (le_by cmp) (qsort_insert cmp x l).
Proof.
  induction 1 as [|y l Hs IH Hy]; simpl.
  - repeat constructor.
  - destruct (Z.leb_spec (cmp x y) 0) as [Hle|Hgt].
    + constructor; [now constructor|].
      constructor; [exact Hle|].
      eapply Forall_impl; [|exact Hy]. intros z Hz. now apply le_trans with y.
    + constructor; [exact IH|].
      assert (Hyx : le_by cmp y x)
        by (destruct (le_total x y); [unfold le_by in *; lia|assumption]).
      eapply Permutation_Forall; [apply qsort_insert_perm|].
      now constructor.
Qed.

Lemma qsort_sorted (l : list A) : StronglySorted (le_by cmp) (qsort l cmp).
Proof.
  induction l as [|x l IH]; simpl; [constructor|].
  now apply qsort_insert_sorted.
Qed.

End Qsort.

Lemma StronglySorted_nth {A} (R : A -> A -> Prop) (l : list A) :
  StronglySorted R l ->
  forall i j a b, (i < j)%nat ->
    nth_error l i = Some a -> nth_error l j = Some b -> R a b.
Proof.
  induction 1 as [|x l Hs IH Hx]; intros i j a b Hij Hi Hj.
  - destruct i; discriminate.
  - destruct j as [|j]; [lia|]. simpl in Hj.
    destruct i as [|i]; simpl in Hi.
    + injection Hi as <-. rewrite Forall_forall in Hx.
      apply Hx. eapply nth_error_In; eassumption.
    + apply (IH i j); auto; lia.
Qed.

(** ** [read_dir] *)

Section ReadDir.

Variable w : world.

Lemma read_entries_cons dir sh ent rest acc size :
  read_entries w dir sh (ent :: rest) acc size =
  match entry_of w dir sh ent with
  | None => read_entries w dir sh rest acc size
  | Some e =>
      if (List.length acc =? size)%nat then
        if w_realloc w (size + ENT_ALLOC_NUM)%nat
        then read_entries w dir sh rest (acc ++ [e]) (size + ENT_ALLOC_NUM)%nat
        else None
      else read_entries w dir sh rest (acc ++ [e]) size
  end.
Proof.
  unfold entry_of; simpl.
  destruct ((char_at (ent_name ent) 0 =? dot) && _); [reflexivity|].
  destruct (negb sh && _); [reflexivity|].
  destruct (w_fstatat w dir (ent_name ent) AT_SYMLINK_NOFOLLOW); reflexivity.
Qed.

(** When the loop ends normally it has appended exactly the visible
    entries, in the order of the stream, and the buffer has only grown. *)
Lemma read_entries_some dir sh names :
  forall acc size es size',
    read_entries w dir sh names acc size = Some (es, size') ->
    es = (acc ++ visible w dir sh names)%list /\ (size <= size')%nat /\
    ((List.length acc <= size)%nat -> (List.length es <= size')%nat).
Proof.
  induction names as [|name rest IH]; intros acc size es size' H.
  - simpl in H. injection H as <- <-. rewrite app_nil_r. auto.
  - rewrite read_entries_cons in H. simpl.
    destruct (entry_of w dir sh name) as [e|]; [|now apply IH].
    destruct (Nat.eqb_spec (List.length acc) size) as [E|NE].
    + destruct (w_realloc w (size + ENT_ALLOC_NUM)); [|discriminate].
      apply IH in H. destruct H as (-> & Hs & Hl).
      rewrite <- app_assoc in *. simpl in *. repeat split; [lia|].
      intros _. apply Hl. rewrite length_app. simpl. unfold ENT_ALLOC_NUM. lia.
    + apply IH in H. destruct H as (-> & Hs & Hl).
      rewrite <- app_assoc in *. simpl in *. repeat split; [lia|].
      intros Hacc. apply Hl. rewrite length_app. simpl. lia.
Qed.

(** With room for every visible entry, [realloc] is not called. *)
Lemma read_entries_room dir sh names :
  forall acc size,
    (List.length acc + List.length (visible w dir sh names) <= size)%nat ->
    read_entries w dir sh names acc size
    = Some ((acc ++ visible w dir sh names)%list, size).
Proof.
  induction names as [|name rest IH]; intros acc size H.
  - simpl. now rewrite app_nil_r.
  - rewrite read_entries_cons. simpl in *.
    destruct (entry_of w dir sh name) as [e|]; [|now apply IH].
    simpl in H.
    destruct (Nat.eqb_spec (List.length acc) size) as [E|NE]; [lia|].
    rewrite IH; [now rewrite <- app_assoc|].
    rewrite length_app. simpl. lia.
Qed.

(** The loop fails only where [realloc] does. *)
Lemma read_entries_none dir sh names :
  forall acc size,
    read_entries w dir sh names acc size = None ->
    exists size', (size < size')%nat /\ w_realloc w size' = false.
Proof.
  induction names as [|name rest IH]; intros acc size H.
  - discriminate.
  - rewrite read_entries_cons in H.
    destruct (entry_of w dir sh name) as [e|]; [|now apply IH in H].
    destruct (List.length acc =? size)%nat.
    + destruct (w_realloc w (size + ENT_ALLOC_NUM)) eqn:R.
      * apply IH in H. destruct H as (s & Hs & Hr). exists s. split; [lia|easy].
      * exists (size + ENT_ALLOC_NUM)%nat. unfold ENT_ALLOC_NUM. split; [lia|easy].
    + now apply IH in H.
Qed.

Lemma exit_stop (A : Type) status m :
  fst (@exit w A status m) = Stop (Exit status).
Proof.
  unfold exit, bind, get, restore_terminal, bind, get, printf, perror, emit,
    set_tty, stop, ret.
  destruct (at_exit m); [destruct (w_tcsetattr w TCSAFLUSH _)|]; reflexivity.
Qed.

Lemma exit_not_val (A : Type) status m (a : A) m' :
  @exit w A status m <> (Val a, m').
Proof.
  intros H. pose proof (exit_stop A status m) as E. rewrite H in E.
  discriminate.
Qed.

(** The two ways [read_dir] returns. *)
Lemma read_dir_val path size last_dir sh m elems size' dir' m' :
  read_dir w path size last_dir sh m = (Val (elems, size', dir'), m') ->
  m' = closed last_dir m /\
  ((w_opendir w path = None /\ elems = [] /\ size' = size /\ dir' = None) \/
   (exists names,
      w_opendir w path = Some names /\
      read_entries w path sh names [] size
      = Some (visible w path sh names, size') /\
      elems = qsort (visible w path sh names) direlemcmp /\
      dir' = Some path)).
Proof.
  intros H. unfold read_dir, bind in H.
  assert (Hc : (match last_dir with
                | Some d => emit (Closedir d)
                | None => ret tt
                end) m = (Val tt, closed last_dir m))
    by (destruct last_dir; reflexivity).
  rewrite Hc in H.
  destruct (w_opendir w path) as [names|] eqn:O.
  - destruct (read_entries w path sh names [] size) as [[es sz]|] eqn:E.
    + injection H as <- <- <- <-. split; [reflexivity|].
      right. exists names.
      apply read_entries_some in E as E'. destruct E' as (-> & _).
      simpl in *. auto.
    + exfalso. unfold perror, emit in H. now apply exit_not_val in H.
  - injection H as <- <- <- <-. split; [reflexivity|]. left. auto.
Qed.

End ReadDir.

Lemma read_dir_sorted w path size last_dir sh m elems size' dir' m' :
  read_dir w path size last_dir sh m = (Val (elems, size', dir'), m') ->
  StronglySorted elem_le elems.
Proof.
  intros H. apply read_dir_val in H.
  destruct H as (_ & [(_ & -> & _)|(names & _ & _ & -> & _)]).
  - constructor.
  - apply (qsort_sorted direlemcmp elem_le_trans elem_le_total).
Qed.

(** C1.  In every listing [read_dir] returns, an entry of kind directory or
    symlink-to-directory stands before every entry of another kind, and two
    entries of the same group stand in byte-wise lexicographic order of
    their names. *)
Theorem read_dir_order w path size last_dir sh m elems size' dir' m' :
  read_dir w path size last_dir sh m = (Val (elems, size', dir'), m') ->
  forall i j a b,
    nth_error elems i = Some a -> nth_error elems j = Some b ->
    (dir_kind a -> ~ dir_kind b -> (i < j)%nat) /\
    ((dir_kind a <-> dir_kind b) -> (i < j)%nat ->
     name_le (d_name a) (d_name b)).
Proof.
  intros H i j a b Hi Hj. apply read_dir_sorted in H.
  pose proof (StronglySorted_nth elem_le elems H) as S.
  rewrite <- !is_dir_kind. split.
  - intros Ha Hb.
    destruct (Nat.lt_trichotomy i j) as [L|[E|G]]; [exact L| |].
    + subst j. rewrite Hi in Hj. injection Hj as <-. contradiction.
    + specialize (S j i b a G Hj Hi). apply elem_le_iff in S.
      destruct S as [[S _]|[S _]]; [contradiction|].
      rewrite Ha in S. contradiction.
  - intros Hab L. specialize (S i j a b L Hi Hj). apply elem_le_iff in S.
    destruct S as [[Sa Sb]|[_ S]]; [|exact S].
    apply Hab in Sa. rewrite Sa in Sb. discriminate.
Qed.

Lemma read_dir_order_witness :
  let l := [ {| type := TYPE_DIR; d_name := "banana" |};
             {| type := TYPE_NORM; d_name := "Apple" |};
             {| type := TYPE_EXEC; d_name := "cherry.sh" |} ] in
  read_dir Example.world_a "/tmp/proj" 64 None false Example.machine_a
  = (Val (l, 64%nat, Some "/tmp/proj"), Example.machine_a) /\
  (dir_kind {| type := TYPE_DIR; d_name := "banana" |} ->
   ~ dir_kind {| type := TYPE_NORM; d_name := "Apple" |} -> (0 < 1)%nat) /\
  ((dir_kind {| type := TYPE_NORM; d_name := "Apple" |} <->
    dir_kind {| type := TYPE_EXEC; d_name := "cherry.sh" |}) ->
   (1 < 2)%nat -> name_le "Apple" "cherry.sh").
Proof.
  intros l.
  assert (R : read_dir Example.world_a "/tmp/proj" 64 None false
                Example.machine_a
              = (Val (l, 64%nat, Some "/tmp/proj"), Example.machine_a))
    by reflexivity.
  split; [exact R|]. split.
  - exact (proj1 (read_dir_order _ _ _ _ _ _ _ _ _ _ R 0%nat 1%nat _ _
                    eq_refl eq_refl)).
  - exact (proj2 (read_dir_order _ _ _ _ _ _ _ _ _ _ R 1%nat 2%nat _ _
                    eq_refl eq_refl)).
Defined.

(** Scenario A of the specification. *)
Example scenario_a :
  fst (read_dir Example.world_a "/tmp/proj" 64 None false Example.machine_a)
  = Val ([ {| type := TYPE_DIR; d_name := "banana" |};
           {| type := TYPE_NORM; d_name := "Apple" |};
           {| type := TYPE_EXEC; d_name := "cherry.sh" |} ],
         64%nat, Some "/tmp/proj") /\
  fst (read_dir Example.world_a "/tmp/proj" 64 None true Example.machine_a)
  = Val ([ {| type := TYPE_DIR; d_name := "banana" |};
           {| type := TYPE_NORM; d_name := ".hidden" |};
           {| type := TYPE_NORM; d_name := "Apple" |};
           {| type := TYPE_EXEC; d_name := "cherry.sh" |} ],
         64%nat, Some "/tmp/proj").
Proof. split; reflexivity. Qed.

(** A directory that did not fit the buffer of its stream: the entry
    made for the directory "alpha" has its kind and shows "gamma". *)
Example scenario_refilled :
  fst (read_dir Example.world_refilled "/big" 64 None false Example.machine_a)
  = Val ([ {| type := TYPE_DIR; d_name := "gamma" |};
           {| type := TYPE_NORM; d_name := "beta" |};
           {| type := TYPE_NORM; d_name := "gamma" |} ],
         64%nat, Some "/big").
Proof. reflexivity. Qed.

(** ** Which members are listed, and with which kind *)

Section Members.

Variable w : world.

Lemma visible_In dir sh stream e :
  In e (visible w dir sh stream) <->
  exists ent, In ent stream /\ entry_of w dir sh ent = Some e.
Proof.
  induction stream as [|x stream IH]; simpl.
  - split; [easy|]. now intros (? & [] & _).
  - destruct (entry_of w dir sh x) as [e'|] eqn:E; simpl; rewrite IH; split.
    + intros [<-|(ent & Hn & He)]; eauto.
    + intros (ent & [<-|Hn] & He); [left; congruence|eauto].
    + intros (ent & Hn & He); eauto.
    + intros (ent & [<-|Hn] & He); [congruence|eauto].
Qed.

(** An entry shows what the stream has kept of the name. *)
Lemma entry_of_name dir sh ent e :
  entry_of w dir sh ent = Some e -> d_name e = ent_kept ent.
Proof.
  unfold entry_of.
  destruct (_ && _); [discriminate|].
  destruct (_ && _); [discriminate|].
  destruct (w_fstatat w dir (ent_name ent) AT_SYMLINK_NOFOLLOW); [|discriminate].
  now intros [= <-].
Qed.

Lemma visible_kept dir sh stream :
  names_of (visible w dir sh stream)
  = map ent_kept (filter (listed w dir sh) stream).
Proof.
  unfold listed. induction stream as [|x stream IH]; simpl; [reflexivity|].
  destruct (entry_of w dir sh x) as [e|] eqn:E; simpl; [|exact IH].
  now rewrite IH, (entry_of_name dir sh x e E).
Qed.

Lemma stable_kept (f : dirent -> bool) stream :
  stable stream ->
  map ent_kept (filter f stream) = map ent_name (filter f stream).
Proof.
  intros S. apply map_ext_in. intros ent H. apply filter_In in H.
  apply S, H.
Qed.

Lemma char_at_0 (c : ascii) (s : string) : char_at (String c s) 0 = byte c.
Proof. reflexivity. Qed.

Lemma byte_inj (c d : ascii) : byte c = byte d -> c = d.
Proof.
  unfold byte. intros H. apply N2Z.inj in H.
  rewrite <- (ascii_N_embedding c), <- (ascii_N_embedding d). now f_equal.
Qed.

Lemma byte_range (c : ascii) : 0 <= byte c < 256.
Proof.
  unfold byte. pose proof (N_ascii_bounded c). lia.
Qed.

Lemma starts_with_dot name :
  (char_at name 0 =? dot) = true <-> hidden_name name.
Proof.
  unfold hidden_name. destruct name as [|c s].
  - split; [discriminate|]. now intros (r & H).
  - rewrite char_at_0, Z.eqb_eq. unfold dot. split.
    + intros H. apply byte_inj in H. subst c. now exists s.
    + now intros (r & [= -> _]).
Qed.

(** The first test of the loop recognises "." and "..", and nothing else
    among C strings. *)
Lemma pseudo_entry_skipped name :
  pseudo_entry name ->
  (char_at name 0 =? dot) &&
  ((char_at name 1 =? 0) || ((char_at name 1 =? dot) && (char_at name 2 =? 0)))
  = true.
Proof. now intros [->| ->]. Qed.

Lemma char_at_S (c : ascii) (s : string) (i : nat) :
  char_at (String c s) (S i) = char_at s i.
Proof. reflexivity. Qed.

Lemma char_at_0_nul (s : string) :
  c_string s = true -> char_at s 0 = 0 -> s = "".
Proof.
  destruct s as [|c s]; [reflexivity|]. simpl. rewrite char_at_0.
  intros H E. rewrite E in H. discriminate.
Qed.

Lemma pseudo_entry_test name :
  c_string name = true ->
  (char_at name 0 =? dot) &&
  ((char_at name 1 =? 0) || ((char_at name 1 =? dot) && (char_at name 2 =? 0)))
  = true ->
  pseudo_entry name.
Proof.
  unfold pseudo_entry. intros C H.
  apply andb_true_iff in H. destruct H as [H0 H].
  apply starts_with_dot in H0. destruct H0 as (r & ->).
  simpl in C.
  rewrite !char_at_S in H. apply orb_true_iff in H. destruct H as [H|H].
  - left. apply Z.eqb_eq in H. now rewrite (char_at_0_nul r C H).
  - right. apply andb_true_iff in H. destruct H as [H1 H2].
    apply starts_with_dot in H1. destruct H1 as (r' & ->).
    simpl in C.
    rewrite char_at_S in H2. apply Z.eqb_eq in H2.
    now rewrite (char_at_0_nul r' C H2).
Qed.

Lemma entry_of_some_inv dir sh ent e :
  entry_of w dir sh ent = Some e ->
  ~ pseudo_entry (ent_name ent) /\ (hidden_name (ent_name ent) -> sh = true) /\
  exists sb, w_fstatat w dir (ent_name ent) AT_SYMLINK_NOFOLLOW = Some sb /\
             e = {| type := classify w dir (ent_name ent) sb;
                    d_name := ent_kept ent |}.
Proof.
  unfold entry_of. cbv zeta. intros H. split; [|split].
  - intros P. now rewrite (pseudo_entry_skipped _ P) in H.
  - intros Hd. apply starts_with_dot in Hd. rewrite Hd in H.
    destruct (_ && _); [discriminate|]. now destruct sh.
  - destruct (_ && _); [discriminate|].
    destruct (_ && _); [discriminate|].
    destruct (w_fstatat w dir (ent_name ent) AT_SYMLINK_NOFOLLOW) as [sb|];
      [|discriminate].
    injection H as <-. eauto.
Qed.

Lemma entry_of_some_intro dir sh ent sb :
  c_string (ent_name ent) = true ->
  ~ pseudo_entry (ent_name ent) -> (hidden_name (ent_name ent) -> sh = true) ->
  w_fstatat w dir (ent_name ent) AT_SYMLINK_NOFOLLOW = Some sb ->
  entry_of w dir sh ent
  = Some {| type := classify w dir (ent_name ent) sb; d_name := ent_kept ent |}.
Proof.
  intros C NP Hh St. unfold entry_of. cbv zeta.
  destruct (_ && (_ || _)) eqn:T.
  - now apply pseudo_entry_test in T.
  - rewrite St. destruct (negb sh && _) eqn:Hd; [|reflexivity].
    apply andb_true_iff in Hd. destruct Hd as [Hs Hd].
    apply starts_with_dot in Hd. rewrite (Hh Hd) in Hs. discriminate.
Qed.

(** The test a member passes to be listed, in words. *)
Lemma listed_iff dir sh ent :
  c_string (ent_name ent) = true ->
  (listed w dir sh ent = true <->
   ~ pseudo_entry (ent_name ent) /\ (hidden_name (ent_name ent) -> sh = true) /\
   w_fstatat w dir (ent_name ent) AT_SYMLINK_NOFOLLOW <> None).
Proof.
  intros C. unfold listed. split.
  - destruct (entry_of w dir sh ent) as [e|] eqn:E; [|discriminate].
    intros _. apply entry_of_some_inv in E.
    destruct E as (NP & Hh & sb & St & _). rewrite St. repeat split; easy.
  - intros (NP & Hh & St).
    destruct (w_fstatat w dir (ent_name ent) AT_SYMLINK_NOFOLLOW) as [sb|] eqn:F;
      [|contradiction].
    now rewrite (entry_of_some_intro dir sh ent sb C NP Hh F).
Qed.

(** The tests look at the name only. *)
Lemma listed_name dir sh a b :
  ent_name a = ent_name b -> listed w dir sh a = listed w dir sh b.
Proof.
  intros E. unfold listed, entry_of. cbv zeta. rewrite E.
  destruct (_ && _); [reflexivity|]. destruct (_ && _); [reflexivity|].
  now destruct (w_fstatat w dir (ent_name b) AT_SYMLINK_NOFOLLOW).
Qed.

Lemma listed_pseudo dir sh ent :
  pseudo_entry (ent_name ent) -> listed w dir sh ent = false.
Proof.
  intros P. unfold listed, entry_of. cbv zeta.
  now rewrite (pseudo_entry_skipped _ P).
Qed.

Lemma listed_stat dir sh ent :
  w_fstatat w dir (ent_name ent) AT_SYMLINK_NOFOLLOW = None ->
  listed w dir sh ent = false.
Proof.
  intros F. unfold listed, entry_of. cbv zeta. rewrite F.
  destruct (_ && _); [reflexivity|]. now destruct (_ && _).
Qed.

(** The listing [read_dir] returns holds exactly the entries of the
    visible members of the directory. *)
Lemma read_dir_In path size last_dir sh m elems size' dir' m' :
  read_dir w path size last_dir sh m = (Val (elems, size', dir'), m') ->
  forall e,
    In e elems <->
    exists stream ent,
      w_opendir w path = Some stream /\ In ent stream /\
      entry_of w path sh ent = Some e.
Proof.
  intros H e. apply read_dir_val in H.
  destruct H as (_ & [(O & -> & _)|(names & O & _ & -> & _)]).
  - split; [easy|]. intros (names & name & O' & _). congruence.
  - split.
    + intros Hin. apply (Permutation_in _ (Permutation_sym (qsort_perm _ _)))
        in Hin.
      apply visible_In in Hin. destruct Hin as (name & Hn & He). eauto.
    + intros (names' & name & O' & Hn & He).
      apply (Permutation_in _ (qsort_perm _ _)).
      apply visible_In. exists name. split; [congruence|exact He].
Qed.

(** The strings the listing shows: what the stream has kept of the names
    of the members that pass the tests, each as often as the stream has
    handed it out. *)
Lemma read_dir_names path size last_dir sh m elems size' dir' m' stream :
  read_dir w path size last_dir sh m = (Val (elems, size', dir'), m') ->
  w_opendir w path = Some stream ->
  Permutation (names_of elems)
              (map ent_kept (filter (listed w path sh) stream)).
Proof.
  intros H O. apply read_dir_val in H.
  destruct H as (_ & [(O' & _)|(stream' & O' & _ & -> & _)]); [congruence|].
  rewrite O in O'. injection O' as <-.
  rewrite <- visible_kept. unfold names_of. apply Permutation_map.
  apply Permutation_sym, qsort_perm.
Qed.

End Members.

(** ** Claims about [read_dir] *)

Lemma S_ISLNK_not_dir (mode : Z) : S_ISLNK mode = true -> S_ISDIR mode = false.
Proof.
  unfold S_ISLNK, S_ISDIR. intros H. apply Z.eqb_eq in H. rewrite H.
  reflexivity.
Qed.

(** The claim C4 as the specification words it fails on a FIFO whose owner
    may execute it: the member is neither a directory, nor a symlink, nor a
    regular file, and is listed as executable, not as regular. *)
Lemma classify_fifo_executable :
  let sb := {| st_mode := Z.lor S_IFIFO 0x1ED |} in
  w_fstatat Example.world_pipe "/run" "pipe" AT_SYMLINK_NOFOLLOW = Some sb /\
  S_ISDIR (st_mode sb) = false /\ S_ISLNK (st_mode sb) = false /\
  S_ISREG (st_mode sb) = false /\
  fst (read_dir Example.world_pipe "/run" 64 None false Example.machine_a)
  = Val ([ {| type := TYPE_EXEC; d_name := "pipe" |} ], 64%nat, Some "/run") /\
  TYPE_EXEC <> TYPE_NORM.
Proof. repeat split; try reflexivity. discriminate. Qed.

(** C4 (amended).  Every entry of a listing was made for a member the
    stream handed out; it shows what the stream has kept of the name of
    that member and carries the kind computed from the member's stat result,
    taken without following links: a directory is Directory; a symlink is
    SymlinkToDirectory when the stat that follows the link succeeds and
    finds a directory, Symlink otherwise; every other member, whatever its
    file type, is Executable when the owner-execute bit is set and Regular
    when it is not. *)
Theorem read_dir_kinds w path size last_dir sh m elems size' dir' m' :
  read_dir w path size last_dir sh m = (Val (elems, size', dir'), m') ->
  forall e, In e elems ->
  exists stream ent sb,
    w_opendir w path = Some stream /\ In ent stream /\
    d_name e = ent_kept ent /\
    w_fstatat w path (ent_name ent) AT_SYMLINK_NOFOLLOW = Some sb /\
    let mode := st_mode sb in
    let to_dir := exists sb', w_fstatat w path (ent_name ent) 0 = Some sb' /\
                              S_ISDIR (st_mode sb') = true in
    (S_ISDIR mode = true -> type e = TYPE_DIR) /\
    (S_ISLNK mode = true ->
     (to_dir -> type e = TYPE_SYML_TO_DIR) /\
     (~ to_dir -> type e = TYPE_SYML)) /\
    (S_ISDIR mode = false -> S_ISLNK mode = false ->
     (Z.land mode S_IXUSR <> 0 -> type e = TYPE_EXEC) /\
     (Z.land mode S_IXUSR = 0 -> type e = TYPE_NORM)).
Proof.
  intros H e Hin. apply (read_dir_In w _ _ _ _ _ _ _ _ _ H) in Hin.
  destruct Hin as (stream & ent & O & Hs & He).
  apply entry_of_some_inv in He. destruct He as (_ & _ & sb & St & ->).
  simpl. exists stream, ent, sb.
  split; [exact O|]. split; [exact Hs|]. split; [reflexivity|].
  split; [exact St|]. unfold classify.
  split; [|split].
  - now intros ->.
  - intros L. rewrite (S_ISLNK_not_dir _ L), L. split.
    + intros (sb' & -> & ->). reflexivity.
    + intros N. destruct (w_fstatat w path (ent_name ent) 0) as [sb'|];
        [|reflexivity].
      destruct (S_ISDIR (st_mode sb')) eqn:D; [|reflexivity].
      exfalso. apply N. eauto.
  - intros -> ->. split; intros X.
    + apply Z.eqb_neq in X. now rewrite X.
    + now rewrite X.
Qed.

Lemma read_dir_kinds_witness :
  let e := {| type := TYPE_DIR; d_name := "banana" |} in
  exists stream ent sb,
    w_opendir Example.world_a "/tmp/proj" = Some stream /\ In ent stream /\
    d_name e = ent_kept ent /\
    w_fstatat Example.world_a "/tmp/proj" (ent_name ent) AT_SYMLINK_NOFOLLOW
    = Some sb /\
    let mode := st_mode sb in
    let to_dir :=
      exists sb', w_fstatat Example.world_a "/tmp/proj" (ent_name ent) 0
                  = Some sb' /\
                  S_ISDIR (st_mode sb') = true in
    (S_ISDIR mode = true -> type e = TYPE_DIR) /\
    (S_ISLNK mode = true ->
     (to_dir -> type e = TYPE_SYML_TO_DIR) /\
     (~ to_dir -> type e = TYPE_SYML)) /\
    (S_ISDIR mode = false -> S_ISLNK mode = false ->
     (Z.land mode S_IXUSR <> 0 -> type e = TYPE_EXEC) /\
     (Z.land mode S_IXUSR = 0 -> type e = TYPE_NORM)).
Proof.
  intros e.
  apply (read_dir_kinds Example.world_a "/tmp/proj" 64 None false
           Example.machine_a _ _ _ _ eq_refl e).
  simpl. auto.
Defined.

(** The claim C5 as the specification words it fails where the stat of a
    hidden member fails: with [show_hidden] true, [".hidden"] is a member of
    the directory, starts with a dot, is neither "." nor "..", and is not in
    the listing. *)
Lemma hidden_member_not_listed :
  ~ (forall elems size' dir' m',
       read_dir Example.world_unsearchable "/srv" 64 None true
         Example.machine_a = (Val (elems, size', dir'), m') ->
       forall stream ent,
         w_opendir Example.world_unsearchable "/srv" = Some stream ->
         In ent stream -> hidden_name (ent_name ent) ->
         ~ pseudo_entry (ent_name ent) ->
         (In (ent_name ent) (names_of elems) <-> true = true)).
Proof.
  intros H.
  specialize (H [] 64%nat (Some "/srv") Example.machine_a eq_refl
                _ {| ent_name := ".hidden"; ent_kept := ".hidden" |} eq_refl).
  assert (X : In ".hidden" (names_of [])).
  { apply H; [simpl; auto | now exists "hidden" | | reflexivity].
    intros [E|E]; discriminate. }
  exact X.
Qed.

(** C5 (amended).  The listing shows one string for each member that
    passes the tests of the loop: what the stream has kept of its name.
    "." and ".." never pass.  A member whose name starts with a dot, is
    neither of the two, and whose stat succeeds passes if and only if
    [show_hidden] is true.  Where the stream has kept the names, this is
    to say: "." and ".." are never in the listing, and such a member is in
    the listing if and only if [show_hidden] is true. *)
Theorem read_dir_hidden w path size last_dir sh m elems size' dir' m' :
  read_dir w path size last_dir sh m = (Val (elems, size', dir'), m') ->
  (w_opendir w path = None -> elems = []) /\
  forall stream, w_opendir w path = Some stream ->
    Permutation (names_of elems)
                (map ent_kept (filter (listed w path sh) stream)) /\
    (forall ent, pseudo_entry (ent_name ent) -> listed w path sh ent = false) /\
    (forall ent sb,
       c_string (ent_name ent) = true ->
       hidden_name (ent_name ent) -> ~ pseudo_entry (ent_name ent) ->
       w_fstatat w path (ent_name ent) AT_SYMLINK_NOFOLLOW = Some sb ->
       (listed w path sh ent = true <-> sh = true)) /\
    (stable stream ->
     (forall name, pseudo_entry name -> ~ In name (names_of elems)) /\
     (forall ent sb,
        In ent stream -> c_string (ent_name ent) = true ->
        hidden_name (ent_name ent) -> ~ pseudo_entry (ent_name ent) ->
        w_fstatat w path (ent_name ent) AT_SYMLINK_NOFOLLOW = Some sb ->
        (In (ent_name ent) (names_of elems) <-> sh = true))).
Proof.
  intros H. split.
  { intros O. apply read_dir_val in H.
    destruct H as (_ & [(_ & -> & _)|(stream & O' & _)]);
      [reflexivity|congruence]. }
  intros stream O.
  pose proof (read_dir_names w _ _ _ _ _ _ _ _ _ stream H O) as P.
  assert (Hid : forall ent sb,
             c_string (ent_name ent) = true ->
             hidden_name (ent_name ent) -> ~ pseudo_entry (ent_name ent) ->
             w_fstatat w path (ent_name ent) AT_SYMLINK_NOFOLLOW = Some sb ->
             (listed w path sh ent = true <-> sh = true)).
  { intros ent sb C Hd NP St. rewrite (listed_iff w path sh ent C). split.
    - intros (_ & Hs & _). auto.
    - intros ->. repeat split; auto. now rewrite St. }
  split; [exact P|]. split; [apply listed_pseudo|]. split; [exact Hid|].
  intros S. rewrite (stable_kept _ _ S) in P. split.
  - intros name Pn Hin. apply (Permutation_in _ P) in Hin.
    apply in_map_iff in Hin. destruct Hin as (ent & <- & Hin).
    apply filter_In in Hin. destruct Hin as [_ L].
    now rewrite (listed_pseudo w path sh ent Pn) in L.
  - intros ent sb Hin C Hd NP St. rewrite <- (Hid ent sb C Hd NP St). split.
    + intros Hn. apply (Permutation_in _ P) in Hn.
      apply in_map_iff in Hn. destruct Hn as (ent' & E & Hn).
      apply filter_In in Hn. destruct Hn as [Hn L].
      now rewrite <- (listed_name w path sh ent' ent E).
    + intros L. apply (Permutation_in _ (Permutation_sym P)).
      apply in_map. apply filter_In. auto.
Qed.

Lemma read_dir_hidden_witness :
  let elems := [ {| type := TYPE_DIR; d_name := "banana" |};
                 {| type := TYPE_NORM; d_name := ".hidden" |};
                 {| type := TYPE_NORM; d_name := "Apple" |};
                 {| type := TYPE_EXEC; d_name := "cherry.sh" |} ] in
  let stream :=
    stream_of ["."; "cherry.sh"; ".hidden"; ".."; "banana"; "Apple"] in
  Permutation (names_of elems)
    (map ent_kept (filter (listed Example.world_a "/tmp/proj" true) stream)) /\
  (forall name, pseudo_entry name -> ~ In name (names_of elems)) /\
  (In ".hidden" (names_of elems) <-> true = true).
Proof.
  intros elems stream.
  destruct (read_dir_hidden Example.world_a "/tmp/proj" 64 None true
              Example.machine_a elems 64%nat (Some "/tmp/proj")
              Example.machine_a eq_refl) as [_ H].
  destruct (H stream eq_refl) as (P & _ & _ & S).
  assert (St : stable stream).
  { intros ent Hin. unfold stream, stream_of in Hin.
    apply in_map_iff in Hin. now destruct Hin as (name & <- & _). }
  destruct (S St) as [H1 H2].
  split; [exact P|]. split; [exact H1|].
  apply (H2 {| ent_name := ".hidden"; ent_kept := ".hidden" |}
            {| st_mode := Z.lor S_IFREG 0x1A4 |});
    try reflexivity.
  - simpl. auto.
  - now exists "hidden".
  - intros [E|E]; discriminate.
Defined.

(** When [read_dir] stops the process: the directory was opened, the
    array had to grow, [realloc] failed. *)
Lemma read_dir_stops w path size last_dir sh m h m' :
  read_dir w path size last_dir sh m = (Stop h, m') ->
  h = Exit EXIT_FAILURE /\ w_opendir w path <> None /\
  exists size', (size < size')%nat /\ w_realloc w size' = false.
Proof.
  intros R. unfold read_dir, bind in R.
  assert (Hc : (match last_dir with
                | Some d => emit (Closedir d)
                | None => ret tt
                end) m = (Val tt, closed last_dir m))
    by (destruct last_dir; reflexivity).
  rewrite Hc in R.
  destruct (w_opendir w path) as [names|] eqn:O; [|discriminate].
  destruct (read_entries w path sh names [] size) as [[es sz]|] eqn:E;
    [discriminate|].
  apply read_entries_none in E.
  unfold perror, emit in R.
  match type of R with
  | @exit _ ?A _ ?m0 = _ => pose proof (exit_stop w A EXIT_FAILURE m0) as X
  end.
  rewrite R in X. simpl in X. injection X as ->.
  repeat split; [discriminate|exact E].
Qed.

(** The claim C3 as the specification words it fails when the array of
    entries has to grow and [realloc] returns NULL: [read_dir] does not
    return, the process exits with EXIT_FAILURE. *)
Lemma read_dir_exits :
  fst (read_dir Example.world_full "/var/spool" 64 None false Example.machine_a)
  = Stop (Exit EXIT_FAILURE).
Proof. vm_compute. reflexivity. Qed.

(** C3 (amended).  [read_dir] has two outcomes.  Either it returns a
    listing, which is empty when the directory cannot be opened and which
    has no entry for a member whose stat fails: it shows one string for
    each member that passes the tests, what the stream has kept of its
    name, and where the stream has kept the names no name whose stat fails
    is in it.  Or the directory was opened, the array of entries had to
    grow, [realloc] failed, and the process exits with EXIT_FAILURE. *)
Theorem read_dir_total w path size last_dir sh m :
  (exists elems size' dir' m',
     read_dir w path size last_dir sh m = (Val (elems, size', dir'), m') /\
     (w_opendir w path = None -> elems = []) /\
     (forall stream, w_opendir w path = Some stream ->
        Permutation (names_of elems)
                    (map ent_kept (filter (listed w path sh) stream)) /\
        (forall ent,
           w_fstatat w path (ent_name ent) AT_SYMLINK_NOFOLLOW = None ->
           listed w path sh ent = false) /\
        (stable stream ->
         forall name, w_fstatat w path name AT_SYMLINK_NOFOLLOW = None ->
                      ~ In name (names_of elems))))
  \/
  (exists m' size',
     read_dir w path size last_dir sh m = (Stop (Exit EXIT_FAILURE), m') /\
     (size < size')%nat /\ w_realloc w size' = false /\
     w_opendir w path <> None).
Proof.
  destruct (read_dir w path size last_dir sh m) as [[[[elems size'] dir']|h] m']
    eqn:R.
  - left. exists elems, size', dir', m'. split; [reflexivity|]. split.
    + intros O. apply read_dir_val in R.
      destruct R as (_ & [(_ & -> & _)|(names & O' & _)]);
        [reflexivity|congruence].
    + intros stream O.
      pose proof (read_dir_names w _ _ _ _ _ _ _ _ _ stream R O) as P.
      split; [exact P|]. split; [apply listed_stat|].
      intros S name St Hin. rewrite (stable_kept _ _ S) in P.
      apply (Permutation_in _ P) in Hin. apply in_map_iff in Hin.
      destruct Hin as (ent & <- & Hin). apply filter_In in Hin.
      destruct Hin as [_ L]. now rewrite (listed_stat w path sh ent St) in L.
  - right. apply read_dir_stops in R.
    destruct R as (-> & O & size' & Hs & Hr). exists m', size'. auto.
Qed.

(** ** Reasoning about computations *)

Lemma bind_val {A B} (c : M A) (k : A -> M B) m b m' :
  bind c k m = (Val b, m') ->
  exists a m1, c m = (Val a, m1) /\ k a m1 = (Val b, m').
Proof.
  unfold bind. destruct (c m) as [[a|h] m1]; [eauto|discriminate].
Qed.

Lemma safe_val {A} (c : M A) (Q : A -> Prop) m a m' :
  safe c Q -> c m = (Val a, m') -> Q a.
Proof. intros S E. specialize (S m). now rewrite E in S. Qed.

Lemma safe_ret {A} (a : A) (Q : A -> Prop) : Q a -> safe (ret a) Q.
Proof. intros H m. exact H. Qed.

Lemma safe_stop {A} (h : halt) (Q : A -> Prop) :
  h <> Undefined -> safe (stop h) Q.
Proof. intros H m. exact H. Qed.

Lemma safe_bind {A B} (c : M A) (k : A -> M B) (R : A -> Prop)
    (Q : B -> Prop) :
  safe c R -> (forall a, R a -> safe (k a) Q) -> safe (bind c k) Q.
Proof.
  intros Hc Hk m. unfold bind. specialize (Hc m).
  destruct (c m) as [[a|h] m1]; simpl in *; [now apply Hk|exact Hc].
Qed.

Lemma safe_weaken {A} (c : M A) (R Q : A -> Prop) :
  safe c R -> (forall a, R a -> Q a) -> safe c Q.
Proof.
  intros Hc HQ m. specialize (Hc m). destruct (fst (c m)); auto.
Qed.

Lemma safe_emit e : safe (emit e) anything.
Proof. intros m. exact I. Qed.

Lemma safe_printf s : safe (printf s) anything.
Proof. apply safe_emit. Qed.

Lemma safe_perror s : safe (perror s) anything.
Proof. apply safe_emit. Qed.

Lemma safe_get {A} (f : machine -> A) : safe (get f) anything.
Proof. intros m. exact I. Qed.

Lemma safe_set_tty t : safe (set_tty t) anything.
Proof. intros m. exact I. Qed.

Lemma safe_set_old_termios t : safe (set_old_termios t) anything.
Proof. intros m. exact I. Qed.

Lemma safe_set_size r c : safe (set_size r c) anything.
Proof. intros m. exact I. Qed.

Lemma safe_set_at_exit : safe set_at_exit anything.
Proof. intros m. exact I. Qed.

Lemma safe__exit {A} status (Q : A -> Prop) : safe (_exit status) Q.
Proof. apply safe_stop. discriminate. Qed.

Lemma safe_ret_any {A} (a : A) : safe (ret a) anything.
Proof. now apply safe_ret. Qed.

Lemma safe_stop_defined {A} (h : halt) :
  h <> Undefined -> safe (@stop A h) anything.
Proof. apply safe_stop. Qed.

Lemma safe_written r : safe (written r) anything.
Proof. intros m. destruct r; simpl; [exact I|discriminate]. Qed.

Lemma safe__exit_any {A} status : safe (@_exit A status) anything.
Proof. apply safe__exit. Qed.

Create HintDb safedb.

#[local] Hint Resolve safe_emit safe_printf safe_perror safe_get safe_set_tty
  safe_set_old_termios safe_set_size safe_set_at_exit : safedb.
#[local] Hint Resolve safe_ret_any safe__exit_any safe_stop_defined
  safe_written : safedb.
#[local] Hint Extern 1 (anything _) => exact I : safedb.
#[local] Hint Extern 1 (_ <> Undefined) => discriminate : safedb.

(** One step through a computation: the first action by a known fact, the
    rest under what that fact says of its result. *)
Ltac safe_step :=
  match goal with
  | |- safe (bind (if ?b then _ else _) _) _ => destruct b eqn:?
  | |- safe (bind _ _) _ =>
      eapply safe_bind; [solve [eauto with safedb]|intros ? ?]
  | |- safe (if ?b then _ else _) _ => destruct b eqn:?
  | |- safe (ret _) _ => apply safe_ret
  | |- safe (stop _) _ => apply safe_stop; discriminate
  | |- safe (_exit _) _ => apply safe__exit
  | |- safe _ anything => solve [eauto with safedb]
  end.

Section Safety.

Variable w : world.
Variable cfg : config.

Lemma safe_get_term_size : safe (get_term_size w) anything.
Proof.
  unfold get_term_size. destruct (w_ioctl w) as [[r c]|]; repeat safe_step;
    exact I.
Qed.

Lemma safe_handle_winch sig : safe (handle_winch w sig) anything.
Proof.
  unfold handle_winch. pose proof safe_get_term_size. repeat safe_step.
Qed.

Lemma safe_restore_terminal : safe (restore_terminal w) anything.
Proof. unfold restore_terminal. repeat safe_step. Qed.

Lemma safe_setup_terminal : safe (setup_terminal w) anything.
Proof. unfold setup_terminal. repeat safe_step; exact I. Qed.

Lemma safe_exit {A} status (Q : A -> Prop) : safe (@exit w A status) Q.
Proof.
  unfold exit. pose proof safe_restore_terminal. repeat safe_step.
Qed.

Lemma safe_wait_loop statuses : safe (wait_loop statuses) anything.
Proof.
  induction statuses as [|s statuses IH]; simpl; repeat safe_step;
    auto; exact I.
Qed.

Lemma safe_spawn dir cmd argv1 : safe (spawn w dir cmd argv1) anything.
Proof.
  unfold spawn. pose proof safe_restore_terminal.
  pose proof safe_setup_terminal. pose proof (safe_wait_loop (w_waitpid w)).
  repeat safe_step; try exact I.
Qed.

(** A listing that is not empty comes with its directory stream, and
    every listing is sorted. *)
Lemma safe_read_dir dir size last_dir sh :
  safe (read_dir w dir size last_dir sh)
       (fun r => (fst (fst r) <> [] -> snd r <> None) /\
                 StronglySorted elem_le (fst (fst r))).
Proof.
  intros m.
  destruct (read_dir w dir size last_dir sh m)
    as [[[[elems size'] dir']|h] m'] eqn:R; simpl.
  2: { apply read_dir_stops in R. destruct R as (-> & _). discriminate. }
  split; [|exact (read_dir_sorted _ _ _ _ _ _ _ _ _ _ R)].
  apply read_dir_val in R.
  destruct R as (_ & [(_ & -> & _)|(names & _ & _ & _ & ->)]);
    [congruence|discriminate].
Qed.

Lemma safe_draw_line e b : safe (draw_line e b) anything.
Proof. unfold draw_line. repeat safe_step. Qed.

Lemma safe_draw_lines es : forall i s, safe (draw_lines es i s) anything.
Proof.
  induction es as [|e es IH]; intros i s; simpl.
  - safe_step. exact I.
  - pose proof (safe_draw_line e (i =? s)%nat). repeat safe_step.
Qed.

Lemma safe_render l : safe (render cfg l) anything.
Proof.
  unfold render. pose proof (safe_draw_lines (ents l) 0 (sel l)).
  repeat safe_step.
Qed.

Lemma safe_elem_at l i :
  (i < n l)%nat ->
  safe (elem_at l i) (fun e => nth_error (ents l) i = Some e).
Proof.
  intros L m. unfold elem_at.
  destruct (nth_error (ents l) i) as [e|] eqn:E; [reflexivity|].
  apply nth_error_None in E. unfold n in L. lia.
Qed.

Lemma safe_fetch l : loop_inv l -> safe (fetch w cfg l) loop_inv.
Proof.
  intros Hl. unfold fetch. destruct (fetch_dir l); [|now apply safe_ret].
  eapply safe_bind; [apply safe_read_dir|].
  intros [[elems size] dir] [Hd Hs]. simpl in Hd, Hs.
  eapply safe_bind; [apply safe_render|]. intros _ _. apply safe_ret.
  unfold loop_inv, sel_in_range, n. simpl. repeat split; try lia.
  - intros N. apply Hd. now destruct elems.
  - exact Hs.
Qed.

Lemma safe_redraw l : loop_inv l -> safe (redraw w cfg l) loop_inv.
Proof.
  intros Hl. unfold redraw. eapply safe_bind; [now apply safe_fetch|].
  intros l' Hl'. repeat safe_step. exact Hl'.
Qed.

Lemma safe_switch_always c l :
  safe (switch_always w cfg c l)
       (fun l' => same_listing l l' /\ sel l' = sel l).
Proof.
  unfold switch_always. pose proof (safe_spawn (path l) (shell cfg) None).
  repeat match goal with
         | |- safe (if ?b then _ else _) _ => destruct b
         end;
    try (apply safe_ret; repeat split; fail);
    try (repeat safe_step; repeat split; fail).
  apply safe_exit.
Qed.

Lemma safe_switch_entry c l :
  (sel l < n l)%nat -> last_dir l <> None ->
  safe (switch_entry w cfg c l)
       (fun l' => same_listing l l' /\ (sel l' < n l')%nat).
Proof.
  intros Hs Hd. unfold switch_entry.
  pose proof (fun e b => safe_draw_line e b).
  pose proof (fun e => safe_spawn (path l) (editor cfg) (Some (d_name e))).
  repeat match goal with
         | |- safe (bind (elem_at ?l' ?i) _) _ =>
             eapply safe_bind;
             [apply safe_elem_at; unfold n in *; simpl; lia|intros ? ?]
         | |- safe (match last_dir l with _ => _ end) _ =>
             destruct (last_dir l); [|congruence]
         | H : (_ <? _)%nat = true |- _ => apply Nat.ltb_lt in H
         | |- safe (ret _) _ =>
             apply safe_ret; unfold same_listing, n in *; simpl;
             repeat split; lia
         | |- _ => safe_step
         end.
Qed.

Lemma safe_dispatch c l : loop_inv l -> safe (dispatch w cfg c l) loop_inv.
Proof.
  intros ([Hpos Hzero] & Hdir & Hsort). unfold dispatch.
  eapply safe_bind; [apply safe_switch_always|].
  intros l1 [[He Hd] Hsel]. unfold n in *.
  rewrite <- He, <- Hd, <- Hsel in *.
  destruct (Nat.eqb_spec (List.length (ents l1)) 0) as [Z|NZ].
  - apply safe_ret. repeat split; unfold n; auto.
  - eapply safe_weaken; [apply safe_switch_entry; unfold n; auto|].
    intros l2 [[He2 Hd2] Hs2]. unfold loop_inv, sel_in_range, n in *.
    rewrite He2, Hd2 in *. repeat split; intros; auto. lia.
Qed.

Lemma safe_step_inv i l : loop_inv l -> safe (step cfg w i l) loop_inv.
Proof.
  intros Hl. destruct i as [c|]; simpl.
  - eapply safe_bind; [now apply safe_dispatch|]. apply safe_redraw.
  - pose proof (safe_handle_winch SIGWINCH). repeat safe_step. exact Hl.
Qed.

Lemma safe_startup : safe (startup w) anything.
Proof.
  unfold startup. pose proof safe_get_term_size.
  pose proof safe_setup_terminal.
  pose proof (@safe_exit unit EXIT_FAILURE anything).
  repeat safe_step; auto.
Qed.

End Safety.

Lemma safe_run cfg inputs :
  forall l, loop_inv l -> safe (run cfg inputs l) loop_inv.
Proof.
  induction inputs as [|[w i] inputs IH]; intros l Hl; simpl.
  - now apply safe_ret.
  - eapply safe_bind; [now apply safe_step_inv|]. exact IH.
Qed.

Lemma safe_main cfg w0 path0 inputs :
  safe (main cfg w0 path0 inputs) loop_inv.
Proof.
  unfold main. eapply safe_bind; [apply safe_startup|]. intros _ _.
  eapply safe_bind; [apply safe_redraw|intros l Hl; now apply safe_run].
  repeat split; unfold n; simpl; try reflexivity; try constructor;
    intros H; now elim H.
Qed.

(** Each time the program waits for input, the listing it holds is in the
    order of [direlemcmp]. *)
Lemma main_listing_sorted cfg w0 path0 inputs m l m' :
  main cfg w0 path0 inputs m = (Val l, m') -> StronglySorted elem_le (ents l).
Proof.
  intros H.
  exact (proj2 (proj2 (safe_val _ _ _ _ _ (safe_main cfg w0 path0 inputs) H))).
Qed.

(** The program never reads [ents] outside the elements it has written,
    and never takes the descriptor of a stream it does not hold. *)
Lemma main_defined cfg w0 path0 inputs m :
  fst (main cfg w0 path0 inputs m) <> Stop Undefined.
Proof.
  pose proof (safe_main cfg w0 path0 inputs m) as S.
  destruct (fst (main cfg w0 path0 inputs m)); congruence.
Qed.

(** C2.  Whatever keys and resize signals arrive, and however the system
    answers, each time the program waits for input the selection indexes an
    entry of the listing when the listing is not empty, and is 0 when it is
    empty. *)
Theorem selection_in_range cfg w0 path0 inputs m l m' :
  main cfg w0 path0 inputs m = (Val l, m') ->
  ((n l <> 0)%nat -> (sel l < n l)%nat) /\ ((n l = 0)%nat -> sel l = 0%nat).
Proof.
  intros H. exact (proj1 (safe_val _ _ _ _ _ (safe_main cfg w0 path0 inputs) H)).
Qed.

Lemma selection_in_range_witness :
  exists l m',
    main Example.cfg_a Example.world_b "/tmp/five"
      [ (Example.world_b, Key (key "j")); (Example.world_b, Key (key "j"));
        (Example.world_b, Resize); (Example.world_b, Key (key "j")) ]
      Example.machine_a = (Val l, m') /\
    sel l = 3%nat /\ n l = 5%nat /\
    ((n l <> 0)%nat -> (sel l < n l)%nat) /\ ((n l = 0)%nat -> sel l = 0%nat).
Proof.
  destruct (main Example.cfg_a Example.world_b "/tmp/five"
              [ (Example.world_b, Key (key "j")); (Example.world_b, Key (key "j"));
                (Example.world_b, Resize); (Example.world_b, Key (key "j")) ]
              Example.machine_a) as [[l|h] m'] eqn:E;
    [|vm_compute in E; discriminate].
  pose proof (selection_in_range _ _ _ _ _ _ _ E) as S.
  exists l, m'. split; [reflexivity|].
  vm_compute in E. injection E as <- _.
  split; [reflexivity|]. split; [reflexivity|exact S].
Defined.

(** Scenario B of the specification: five entries; three times [j], then
    [G], then [g]. *)
Example scenario_b :
  let after keys :=
    match main Example.cfg_a Example.world_b "/tmp/five"
            (map (fun c => (Example.world_b, Key (key c))) keys)
            Example.machine_a with
    | (Val l, _) => Some (sel l)
    | _ => None
    end in
  after [] = Some 0%nat /\
  after ["j"; "j"; "j"]%char = Some 3%nat /\
  after ["j"; "j"; "j"; "G"]%char = Some 4%nat /\
  after ["j"; "j"; "j"; "G"; "g"]%char = Some 0%nat /\
  after ["j"; "j"; "j"; "j"; "j"; "j"; "j"]%char = Some 4%nat /\
  after ["k"]%char = Some 0%nat.
Proof. vm_compute. repeat split. Qed.

(** ** Entering a directory *)

Lemma append_assoc (a b c : string) : (a ++ b) ++ c = a ++ (b ++ c).
Proof. induction a as [|x a IH]; simpl; [reflexivity|now rewrite IH]. Qed.

Lemma length_append (a b : string) :
  String.length (a ++ b) = (String.length a + String.length b)%nat.
Proof. induction a as [|x a IH]; simpl; [reflexivity|now rewrite IH]. Qed.

Section Enter.

Variable w : world.
Variable cfg : config.

Lemma switch_always_enter l : switch_always w cfg (key "l") l = ret l.
Proof. reflexivity. Qed.

Lemma nth_error_nonempty {A} (l : list A) i a :
  nth_error l i = Some a -> (List.length l =? 0)%nat = false.
Proof. destruct l; [destruct i; discriminate|reflexivity]. Qed.

(** What the key [l] does on a listing whose selected entry is [e]. *)
Lemma dispatch_enter l e m :
  nth_error (ents l) (sel l) = Some e ->
  dispatch w cfg (key "l") l m =
  if is_dir e then
    if (String.length (entered (path l) (d_name e)) <? PATH_MAX)%nat
    then (Val (set_fetch_dir true
                 (set_path (entered (path l) (d_name e)) l)), m)
    else (Stop Overrun, m)
  else (Val l, m).
Proof.
  intros He. unfold dispatch. rewrite switch_always_enter.
  unfold bind at 1, ret at 1. unfold n.
  rewrite (nth_error_nonempty _ _ _ He).
  unfold switch_entry.
  change (key "l" =? key "j") with false.
  change (key "l" =? key "k") with false.
  change (key "l" =? key "l") with true.
  cbv iota. unfold bind at 1, elem_at. rewrite He. unfold ret at 1, is_dir.
  destruct (elem_type_eqb (type e) TYPE_DIR || _); [|reflexivity].
  unfold entered, bind, written, strcat, ret, stop.
  destruct (negb (char_at (path l) 1 =? 0)).
  - destruct (Nat.ltb_spec (String.length (path l ++ "/")) PATH_MAX)
      as [L|G].
    + rewrite append_assoc. now destruct (_ <? _)%nat.
    + destruct (Nat.ltb_spec (String.length (path l ++ "/" ++ d_name e))
                  PATH_MAX); [|reflexivity].
      rewrite !length_append in *. lia.
  - now destruct (_ <? _)%nat.
Qed.

(** On an entry of any other kind the key [l] changes nothing: not the
    variables of the loop, not the process state, and nothing is written. *)
Lemma enter_noop l e m :
  nth_error (ents l) (sel l) = Some e -> ~ dir_kind e ->
  dispatch w cfg (key "l") l m = (Val l, m).
Proof.
  intros He Hk. rewrite (dispatch_enter l e m He).
  destruct (is_dir e) eqn:D; [|reflexivity].
  apply is_dir_kind in D. contradiction.
Qed.

End Enter.

Lemma char_at_c_string (s : string) (i : nat) :
  c_string s = true -> (i < String.length s)%nat -> char_at s i <> 0.
Proof.
  revert i; induction s as [|c s IH]; intros i C L; simpl in *; [lia|].
  apply andb_true_iff in C. destruct C as [C0 C].
  destruct i as [|i].
  - rewrite char_at_0. apply negb_true_iff, Z.eqb_neq in C0. exact C0.
  - rewrite char_at_S. apply IH; [exact C|lia].
Qed.

(** On a path of one byte the name is appended without a separator,
    whatever the byte. *)
Lemma enter_short_path w cfg l e m :
  nth_error (ents l) (sel l) = Some e -> dir_kind e ->
  String.length (path l) = 1%nat ->
  (String.length (path l ++ d_name e) < PATH_MAX)%nat ->
  dispatch w cfg (key "l") l m
  = (Val (set_fetch_dir true (set_path (path l ++ d_name e) l)), m).
Proof.
  intros He Hk L F. apply is_dir_kind in Hk.
  rewrite (dispatch_enter w cfg l e m He), Hk.
  assert (E : entered (path l) (d_name e) = path l ++ d_name e)
    by (destruct (path l) as [|c [|d r]]; try discriminate; reflexivity).
  rewrite E. apply Nat.ltb_lt in F. now rewrite F.
Qed.

(** C8: the code at an input where it departs from the claim.  The
    program runs on the path "." (it was started as [filet .]), the
    selected entry is the directory "src".  The key [l] makes the path
    ".src", not "./src": the test [path[1] != 0], which the source comments
    with "don't append to /", leaves out the separator for every path of one
    byte. *)
Theorem enter_from_dot w cfg m :
  dispatch w cfg (key "l") Example.locals_dot m
  = (Val (set_fetch_dir true (set_path ".src" Example.locals_dot)), m) /\
  path (set_fetch_dir true (set_path ".src" Example.locals_dot)) = ".src" /\
  ".src" <> "." ++ "/" ++ "src".
Proof.
  split; [|split].
  - apply (enter_short_path w cfg Example.locals_dot
             {| type := TYPE_DIR; d_name := "src" |} m eq_refl
             (or_introl eq_refl) eq_refl).
    apply Nat.ltb_lt. reflexivity.
  - reflexivity.
  - discriminate.
Qed.

(** The claim C10 as it is worded fails on a long path: the path has
    4094 bytes, the selected entry is the directory "b".  The path, a "/"
    and "b" with the terminating NUL are 4097 bytes; the buffer of the path
    has PATH_MAX = 4096, and [strcat] writes past its end. *)
Lemma enter_long_path_overruns :
  nth_error (ents Example.locals_long) (sel Example.locals_long)
  = Some {| type := TYPE_DIR; d_name := "b" |} /\
  c_string (path Example.locals_long) = true /\
  (2 <= String.length (path Example.locals_long) < PATH_MAX)%nat /\
  dispatch Example.world_a Example.cfg_a (key "l") Example.locals_long
    Example.machine_raw
  = (Stop Overrun, Example.machine_raw).
Proof.
  split; [reflexivity|]. split; [vm_compute; reflexivity|].
  split; [split; apply Nat.leb_le; vm_compute; reflexivity|].
  vm_compute. reflexivity.
Qed.

(** C10 (amended).  On a selected entry of kind directory or
    symlink-to-directory named N, the key [l] turns the path "/" into "/N"
    and every path of two bytes or more into the path, a "/", and N, as
    long as the new path and its NUL fit the PATH_MAX bytes of the buffer;
    the listing is marked stale and nothing else changes.  A new path that
    does not fit is written past the end of the buffer. *)
Theorem enter_path w cfg l e m :
  nth_error (ents l) (sel l) = Some e ->
  dir_kind e ->
  c_string (path l) = true ->
  (path l = "/" ->
   (String.length ("/" ++ d_name e) < PATH_MAX)%nat ->
   exists l', dispatch w cfg (key "l") l m = (Val l', m) /\
              moved_to ("/" ++ d_name e) l l') /\
  ((2 <= String.length (path l))%nat ->
   ((String.length (path l ++ "/" ++ d_name e) < PATH_MAX)%nat ->
    exists l', dispatch w cfg (key "l") l m = (Val l', m) /\
               moved_to (path l ++ "/" ++ d_name e) l l') /\
   ((PATH_MAX <= String.length (path l ++ "/" ++ d_name e))%nat ->
    dispatch w cfg (key "l") l m = (Stop Overrun, m))).
Proof.
  intros He Hk C. apply is_dir_kind in Hk.
  rewrite (dispatch_enter w cfg l e m He), Hk. split.
  - intros -> F. change (entered "/" (d_name e)) with ("/" ++ d_name e).
    apply Nat.ltb_lt in F. rewrite F. eexists. split; [reflexivity|].
    repeat split.
  - intros L. pose proof (char_at_c_string (path l) 1 C) as N.
    assert (E : entered (path l) (d_name e) = path l ++ "/" ++ d_name e).
    { unfold entered.
      destruct (Z.eqb_spec (char_at (path l) 1) 0) as [E|_];
        [elim N; [lia|exact E]|reflexivity]. }
    rewrite E. split.
    + intros F. apply Nat.ltb_lt in F. rewrite F. eexists.
      split; [reflexivity|]. repeat split.
    + intros F. apply Nat.ltb_ge in F. now rewrite F.
Qed.

Lemma enter_path_witness :
  let l := {| path := "/tmp"; show_hidden := false; fetch_dir := false;
              sel := 0%nat;
              ents := [ {| type := TYPE_SYML_TO_DIR; d_name := "proj" |} ];
              ents_size := 64%nat; last_dir := Some "/tmp" |} in
  let r := {| path := "/"; show_hidden := false; fetch_dir := false;
              sel := 0%nat;
              ents := [ {| type := TYPE_DIR; d_name := "tmp" |} ];
              ents_size := 64%nat; last_dir := Some "/" |} in
  (exists r', dispatch Example.world_a Example.cfg_a (key "l") r
                Example.machine_raw = (Val r', Example.machine_raw) /\
              moved_to "/tmp" r r') /\
  (exists l', dispatch Example.world_a Example.cfg_a (key "l") l
                Example.machine_raw = (Val l', Example.machine_raw) /\
              moved_to "/tmp/proj" l l') /\
  dispatch Example.world_a Example.cfg_a (key "l") Example.locals_long
    Example.machine_raw = (Stop Overrun, Example.machine_raw).
Proof.
  intros l r. split; [|split].
  - apply (enter_path Example.world_a Example.cfg_a r
             {| type := TYPE_DIR; d_name := "tmp" |} Example.machine_raw
             eq_refl (or_introl eq_refl) eq_refl).
    + reflexivity.
    + apply Nat.ltb_lt. reflexivity.
  - apply (enter_path Example.world_a Example.cfg_a l
             {| type := TYPE_SYML_TO_DIR; d_name := "proj" |}
             Example.machine_raw eq_refl (or_intror eq_refl) eq_refl).
    + simpl. lia.
    + apply Nat.ltb_lt. reflexivity.
  - apply (enter_path Example.world_a Example.cfg_a Example.locals_long
             {| type := TYPE_DIR; d_name := "b" |}
             Example.machine_raw eq_refl (or_introl eq_refl)).
    + vm_compute. reflexivity.
    + apply Nat.leb_le. vm_compute. reflexivity.
    + apply Nat.leb_le. vm_compute. reflexivity.
Defined.

(** ** Spawning *)

(** The editor is started on "notes.txt" in "/tmp/proj" and exits: the
    parent restores the terminal, flushes, waits, and sets the terminal up
    again. *)
Example spawn_parent :
  spawn Example.world_a "/tmp/proj" "vi" (Some "notes.txt") Example.machine_raw
  = (Val tt,
     {| g_old_termios := Example.cooked; g_row := 24; g_col := 80;
        tty := Example.raw; at_exit := true;
        trace :=
          [ Forked 4242;
            Stdout (ESC ++ "[?7h" ++ ESC ++ "[?25h" ++ ESC ++ "[;r"
                    ++ ESC ++ "[?1049l");
            Fflush;
            Stdout (ESC ++ "[?1049h" ++ ESC ++ "[?7l" ++ ESC ++ "[?25l"
                    ++ ESC ++ "[2J" ++ ESC ++ "[3;24r") ] |}).
Proof. reflexivity. Qed.

(** C9.  When [fork] fails, [spawn] returns and the process state is what
    it was: the terminal attributes are untouched, nothing has been
    written or flushed, no child exists. *)
Theorem spawn_fork_fails w dir cmd argv1 m :
  w_fork w < 0 -> spawn w dir cmd argv1 m = (Val tt, m).
Proof.
  intros H. unfold spawn. apply Z.ltb_lt in H. now rewrite H.
Qed.

Lemma spawn_fork_fails_witness :
  w_fork Example.world_nofork < 0 /\
  spawn Example.world_nofork "/tmp/proj" "vi" (Some "notes.txt")
    Example.machine_raw = (Val tt, Example.machine_raw).
Proof.
  assert (H : w_fork Example.world_nofork < 0) by (simpl; lia).
  split; [exact H|].
  exact (spawn_fork_fails Example.world_nofork "/tmp/proj" "vi"
           (Some "notes.txt") Example.machine_raw H).
Defined.

(** ** The resize handler *)

Lemma preserves_ret {A X} (f : machine -> X) (a : A) : preserves f (ret a).
Proof. intros m. reflexivity. Qed.

Lemma preserves_stop {A X} (f : machine -> X) (h : halt) :
  preserves f (@stop A h).
Proof. intros m. reflexivity. Qed.

Lemma preserves_bind {A B X} (f : machine -> X) (c : M A) (k : A -> M B) :
  preserves f c -> (forall a, preserves f (k a)) -> preserves f (bind c k).
Proof.
  intros Hc Hk m. unfold bind. specialize (Hc m).
  destruct (c m) as [[a|h] m1]; simpl in *; [|exact Hc].
  now rewrite Hk.
Qed.

Lemma preserves_get {A X} (f : machine -> X) (g : machine -> A) :
  preserves f (get g).
Proof. intros m. reflexivity. Qed.

Lemma preserves_written {X} (f : machine -> X) r : preserves f (written r).
Proof. intros m. now destruct r. Qed.

Lemma geometry_emit e : preserves geometry (emit e).
Proof. intros m. reflexivity. Qed.

Lemma geometry_set_tty t : preserves geometry (set_tty t).
Proof. intros m. reflexivity. Qed.

Lemma geometry_set_old_termios t : preserves geometry (set_old_termios t).
Proof. intros m. reflexivity. Qed.

Create HintDb geom.

#[local] Hint Resolve preserves_ret preserves_stop preserves_get
  preserves_written geometry_emit
  geometry_set_tty geometry_set_old_termios : geom.
#[local] Hint Unfold printf perror _exit : geom.

Ltac preserve :=
  repeat match goal with
         | |- preserves _ (bind _ _) => apply preserves_bind; [|intros ?]
         | |- preserves _ (if ?b then _ else _) => destruct b
         | |- preserves _ (match ?x with _ => _ end) => destruct x
         | |- preserves _ (printf _) => unfold printf
         | |- preserves _ (perror _) => unfold perror
         | |- preserves _ (_exit _) => unfold _exit
         | |- _ => solve [auto with geom]
         end.

Section Geometry.

Variable w : world.
Variable cfg : config.

Lemma geometry_restore_terminal : preserves geometry (restore_terminal w).
Proof. unfold restore_terminal. preserve. Qed.

Lemma geometry_setup_terminal : preserves geometry (setup_terminal w).
Proof. unfold setup_terminal. preserve. Qed.

Lemma geometry_exit {A} status : preserves geometry (@exit w A status).
Proof.
  unfold exit. pose proof geometry_restore_terminal. preserve.
Qed.

Lemma geometry_wait_loop statuses : preserves geometry (wait_loop statuses).
Proof. induction statuses; simpl; preserve. Qed.

Lemma geometry_spawn dir cmd argv1 :
  preserves geometry (spawn w dir cmd argv1).
Proof.
  unfold spawn.
  pose proof geometry_restore_terminal. pose proof geometry_setup_terminal.
  pose proof (geometry_wait_loop (w_waitpid w)).
  preserve.
Qed.

Lemma geometry_read_dir dir size last_dir sh :
  preserves geometry (read_dir w dir size last_dir sh).
Proof.
  unfold read_dir. pose proof (@geometry_exit (list direlement * nat * option string)).
  preserve.
Qed.

Lemma geometry_draw_line e b : preserves geometry (draw_line e b).
Proof. unfold draw_line. preserve. Qed.

Lemma geometry_draw_lines es : forall i s, preserves geometry (draw_lines es i s).
Proof.
  induction es; intros i s; simpl; pose proof geometry_draw_line; preserve.
Qed.

Lemma geometry_elem_at l i : preserves geometry (elem_at l i).
Proof. unfold elem_at. preserve. Qed.

Lemma geometry_fetch l : preserves geometry (fetch w cfg l).
Proof.
  unfold fetch, render. pose proof geometry_read_dir.
  pose proof geometry_draw_lines. preserve.
Qed.

Lemma geometry_dispatch c l : preserves geometry (dispatch w cfg c l).
Proof.
  unfold dispatch, switch_always, switch_entry.
  pose proof geometry_spawn. pose proof (@geometry_exit locals).
  pose proof geometry_draw_line. pose proof geometry_elem_at.
  preserve.
Qed.

Lemma geometry_step_key c l : preserves geometry (step cfg w (Key c) l).
Proof.
  simpl. unfold redraw.
  pose proof geometry_dispatch. pose proof geometry_fetch. preserve.
Qed.

End Geometry.

(** The claim C6 as the specification words it fails: the handler does
    re-query the size, and so changes the geometry and may write a
    message, inside the notification. *)
Lemma handle_winch_requeries :
  ~ (forall w m,
       geometry (snd (handle_winch w SIGWINCH m)) = geometry m /\
       ~ In (Perror "ioctl") (trace (snd (handle_winch w SIGWINCH m)))).
Proof.
  intros H.
  destruct (H Example.world_a Example.machine_a) as [G _]. discriminate G.
Qed.

Lemma handle_winch_writes :
  trace (snd (handle_winch Example.world_notty SIGWINCH Example.machine_raw))
  = [ Signal SIGWINCH SIG_IGN; Perror "ioctl"; Signal SIGWINCH Handle_winch ].
Proof. reflexivity. Qed.

(** C6 (amended).  The handler of SIGWINCH does the work itself, inside
    the notification: it ignores the signal, queries the size (on success
    [g_row] and [g_col] hold the new size at once, on failure a message is
    written), and installs itself again.  There is no pending flag: a step
    of the main loop never changes the geometry. *)
Theorem resize_in_handler w sig m :
  handle_winch w sig m
  = (Val tt,
     match w_ioctl w with
     | Some (row, col) =>
         {| g_old_termios := g_old_termios m; g_row := row; g_col := col;
            tty := tty m; at_exit := at_exit m;
            trace := trace m ++ [Signal sig SIG_IGN; Signal sig Handle_winch] |}
     | None =>
         {| g_old_termios := g_old_termios m; g_row := g_row m;
            g_col := g_col m; tty := tty m; at_exit := at_exit m;
            trace := trace m ++ [Signal sig SIG_IGN; Perror "ioctl";
                                 Signal sig Handle_winch] |}
     end) /\
  (forall cfg c l,
     g_row (snd (step cfg w (Key c) l m)) = g_row m /\
     g_col (snd (step cfg w (Key c) l m)) = g_col m).
Proof.
  split.
  - unfold handle_winch, get_term_size, bind, emit, perror, emit, set_size, ret.
    destruct (w_ioctl w) as [[row col]|]; simpl; rewrite <- !app_assoc;
      reflexivity.
  - intros cfg c l. pose proof (geometry_step_key w cfg c l m) as G.
    unfold geometry in G. now injection G.
Qed.

(** ** The listing is a function of the files *)

Lemma read_dir_listing w dir size last_dir sh m elems size' dir' m' :
  read_dir w dir size last_dir sh m = (Val (elems, size', dir'), m') ->
  elems = listing w dir sh /\ (size <= size')%nat /\
  (List.length elems <= size')%nat.
Proof.
  intros H. apply read_dir_val in H. unfold listing.
  destruct H as (_ & [(-> & -> & -> & _)|(names & -> & E & -> & _)]).
  - simpl. repeat split; lia.
  - apply read_entries_some in E. destruct E as (_ & Hs & Hl).
    split; [reflexivity|]. split; [exact Hs|].
    rewrite <- (Permutation_length (qsort_perm direlemcmp _)).
    apply Hl. simpl. lia.
Qed.

(** A sorted list is determined by its elements, when no two distinct
    elements are equivalent for the order. *)
Lemma sorted_unique {A} (R : A -> A -> Prop) (l1 : list A) :
  forall l2,
    (forall a b, In a l1 -> In b l1 -> R a b -> R b a -> a = b) ->
    StronglySorted R l1 -> StronglySorted R l2 -> Permutation l1 l2 ->
    l1 = l2.
Proof.
  induction l1 as [|a l1 IH]; intros l2 Anti S1 S2 P.
  - apply Permutation_nil in P. now subst.
  - destruct l2 as [|b l2].
    { apply Permutation_sym, Permutation_nil in P. discriminate. }
    apply StronglySorted_inv in S1. destruct S1 as [S1 Ha].
    apply StronglySorted_inv in S2. destruct S2 as [S2 Hb].
    rewrite Forall_forall in Ha, Hb.
    assert (E : a = b).
    { assert (Hb1 : In b (a :: l1))
        by (apply (Permutation_in _ (Permutation_sym P)); now left).
      assert (Ha2 : In a (b :: l2))
        by (apply (Permutation_in _ P); now left).
      destruct Hb1 as [E|Hb1]; [exact E|].
      destruct Ha2 as [E|Ha2]; [now symmetry|].
      apply Anti; [now left|now right|now apply Ha|now apply Hb]. }
    subst b. f_equal. apply Permutation_cons_inv in P.
    apply IH; auto. intros x y Hx Hy. apply Anti; now right.
Qed.

Section SameFiles.

Variables w w' : world.
Hypothesis same : same_files w w'.

Lemma classify_same dir name sb :
  classify w dir name sb = classify w' dir name sb.
Proof. unfold classify. now rewrite (proj2 same). Qed.

Lemma entry_of_same dir sh ent :
  entry_of w dir sh ent = entry_of w' dir sh ent.
Proof.
  unfold entry_of. cbv zeta. rewrite (proj2 same).
  destruct (w_fstatat w' dir (ent_name ent) AT_SYMLINK_NOFOLLOW);
    [now rewrite classify_same|reflexivity].
Qed.

Lemma visible_ext dir sh stream :
  visible w dir sh stream = visible w' dir sh stream.
Proof.
  induction stream as [|x stream IH]; simpl; [reflexivity|].
  now rewrite <- entry_of_same, IH.
Qed.

Lemma visible_same dir sh stream stream' :
  Permutation stream stream' ->
  Permutation (visible w dir sh stream) (visible w' dir sh stream').
Proof.
  intros P. rewrite <- visible_ext.
  induction P as [|x l l' P IH|x y l|l l' l'' P1 IH1 P2 IH2]; simpl.
  - constructor.
  - destruct (entry_of w dir sh x); [now constructor|exact IH].
  - destruct (entry_of w dir sh x), (entry_of w dir sh y);
      try reflexivity. apply perm_swap.
  - now transitivity (visible w dir sh l').
Qed.

End SameFiles.

(** Two entries that the order does not separate are the same entry, when
    the stream has kept the names. *)
Lemma visible_antisym w dir sh stream a b :
  stable stream ->
  In a (visible w dir sh stream) -> In b (visible w dir sh stream) ->
  elem_le a b -> elem_le b a -> a = b.
Proof.
  intros S Ha Hb Lab Lba.
  apply visible_In in Ha. destruct Ha as (ea & Ia & Ea).
  apply visible_In in Hb. destruct Hb as (eb & Ib & Eb).
  destruct (elem_le_antisym a b Lab Lba) as [N _].
  rewrite (entry_of_name w _ _ _ _ Ea), (entry_of_name w _ _ _ _ Eb) in N.
  assert (E : ea = eb).
  { pose proof (S ea Ia) as Ka. pose proof (S eb Ib) as Kb.
    destruct ea as [na ka], eb as [nb kb]. simpl in *. congruence. }
  subst eb. congruence.
Qed.

(** The model of [qsort] decides nothing there: the directory has one
    sorted arrangement of its entries. *)
Lemma qsort_determined w dir sh stream (sorted : list direlement) :
  stable stream ->
  Permutation (visible w dir sh stream) sorted ->
  StronglySorted elem_le sorted ->
  sorted = qsort (visible w dir sh stream) direlemcmp.
Proof.
  intros St P S. symmetry. apply (sorted_unique elem_le).
  - intros a b Ha Hb. apply (visible_antisym w dir sh stream _ _ St);
      eapply Permutation_in; try eassumption;
      apply Permutation_sym, qsort_perm.
  - apply (qsort_sorted direlemcmp elem_le_trans elem_le_total).
  - exact S.
  - now rewrite <- qsort_perm.
Qed.

(** The listing is the same for the same files. *)
Lemma listing_same w w' dir sh :
  same_files w w' -> listing w dir sh = listing w' dir sh.
Proof.
  intros same. unfold listing. pose proof (proj1 same dir) as O.
  destruct (w_opendir w dir) as [stream|], (w_opendir w' dir) as [stream'|];
    try contradiction; [|reflexivity].
  destruct O as [<-|[O St]].
  { now rewrite (visible_ext w w' same). }
  pose proof (visible_same w w' same dir sh stream stream' O) as V.
  apply (sorted_unique elem_le).
  - intros a b Ha Hb. apply (visible_antisym w dir sh stream _ _ St);
      eapply Permutation_in; try eassumption;
      apply Permutation_sym, qsort_perm.
  - apply (qsort_sorted direlemcmp elem_le_trans elem_le_total).
  - apply (qsort_sorted direlemcmp elem_le_trans elem_le_total).
  - rewrite <- !qsort_perm. exact V.
Qed.

(** ** Toggling the hidden files *)

Lemma returns_ret {A} (a : A) : returns (ret a).
Proof. intros m. now exists a. Qed.

Lemma returns_emit e : returns (emit e).
Proof. intros m. now exists tt. Qed.

Lemma returns_bind {A B} (c : M A) (k : A -> M B) :
  returns c -> (forall a, returns (k a)) -> returns (bind c k).
Proof.
  intros Hc Hk m. unfold bind. destruct (Hc m) as (a & Ha).
  destruct (c m) as [r m1]. simpl in Ha. subst r. apply Hk.
Qed.

Lemma returns_draw_line e b : returns (draw_line e b).
Proof.
  unfold draw_line, printf. apply returns_bind; [apply returns_emit|].
  intros _. destruct b; apply returns_emit.
Qed.

Lemma returns_draw_lines es : forall i s, returns (draw_lines es i s).
Proof.
  induction es as [|e es IH]; intros i s; simpl; [apply returns_ret|].
  apply returns_bind; [apply returns_draw_line|]. intros _.
  apply returns_bind; [apply returns_emit|]. intros _. apply IH.
Qed.

Lemma returns_val {A} (c : M A) m :
  returns c -> exists a m', c m = (Val a, m').
Proof.
  intros H. destruct (H m) as (a & Ha). destruct (c m) as [r m'].
  simpl in Ha. subst r. eauto.
Qed.

Section Toggle.

Variable w : world.
Variable cfg : config.

Lemma returns_render l : returns (render cfg l).
Proof.
  unfold render, printf. apply returns_bind; [apply returns_emit|]. intros _.
  apply returns_bind; [|intros _; apply returns_emit].
  destruct (n l =? 0)%nat; [apply returns_emit|apply returns_draw_lines].
Qed.

Lemma redraw_stale l m elems size dir m1 :
  fetch_dir l = true ->
  read_dir w (path l) (ents_size l) (last_dir l) (show_hidden l) m
  = (Val (elems, size, dir), m1) ->
  exists m2, redraw w cfg l m = (Val (fetched l elems size dir), m2).
Proof.
  intros Hf Hr. unfold redraw, fetch. rewrite Hf.
  unfold bind at 1 2. rewrite Hr. cbv iota beta zeta.
  fold (fetched l elems size dir).
  destruct (returns_val _ m1 (returns_render (fetched l elems size dir)))
    as ([] & m2 & E).
  unfold bind at 1. rewrite E. unfold bind, ret, emit. eexists. reflexivity.
Qed.

Lemma redraw_stale_inv l m l' m' :
  fetch_dir l = true ->
  redraw w cfg l m = (Val l', m') ->
  exists elems size dir m1,
    read_dir w (path l) (ents_size l) (last_dir l) (show_hidden l) m
    = (Val (elems, size, dir), m1) /\
    l' = fetched l elems size dir.
Proof.
  intros Hf H. unfold redraw, fetch in H. rewrite Hf in H.
  apply bind_val in H. destruct H as (l1 & m1 & H & H').
  apply bind_val in H'. destruct H' as (? & ? & _ & H').
  injection H' as <- _.
  apply bind_val in H. destruct H as ([[elems size] dir] & m2 & Hr & H).
  exists elems, size, dir, m2. split; [exact Hr|].
  repeat (apply bind_val in H; destruct H as (? & ? & _ & H)).
  now injection H.
Qed.

Lemma dispatch_toggle l m :
  dispatch w cfg (key ".") l m
  = (Val (set_fetch_dir true (set_show_hidden (negb (show_hidden l)) l)), m).
Proof.
  unfold dispatch.
  change (switch_always w cfg (key ".") l)
    with (ret (set_fetch_dir true (set_show_hidden (negb (show_hidden l)) l))).
  unfold bind, ret. now destruct (n _ =? 0)%nat.
Qed.

Lemma step_toggle l m :
  step cfg w (Key (key ".")) l m
  = redraw w cfg (set_fetch_dir true (set_show_hidden (negb (show_hidden l)) l)) m.
Proof. simpl. unfold bind at 1. now rewrite dispatch_toggle. Qed.

End Toggle.

Lemma read_dir_room w dir size last_dir sh m :
  (List.length (listing w dir sh) <= size)%nat ->
  read_dir w dir size last_dir sh m
  = (Val (listing w dir sh, size,
          match w_opendir w dir with Some _ => Some dir | None => None end),
     closed last_dir m).
Proof.
  unfold listing, read_dir, bind. intros L.
  assert (Hc : (match last_dir with
                | Some d => emit (Closedir d)
                | None => ret tt
                end) m = (Val tt, closed last_dir m))
    by (destruct last_dir; reflexivity).
  rewrite Hc. destruct (w_opendir w dir) as [names|]; [|reflexivity].
  rewrite <- (Permutation_length (qsort_perm direlemcmp _)) in L.
  now rewrite (read_entries_room w dir sh names [] size L).
Qed.

Lemma same_files_refl w : same_files w w.
Proof.
  split; [|reflexivity]. intros dir.
  destruct (w_opendir w dir); [now left|exact I].
Qed.

Lemma stable_stream_of names : stable (stream_of names).
Proof.
  intros ent Hin. apply in_map_iff in Hin. now destruct Hin as (name & <- & _).
Qed.

(** The claim C7 as the specification words it fails in a state whose
    listing is out of date: "Apple" was created after the listing on
    display was read.  From then on the files do not change.  The key [.]
    is pressed twice, each time the directory is read again, and the
    listing ends up with "Apple" in it. *)
Lemma toggle_twice_stale_listing :
  exists l1 m1 l2 m2,
    step Example.cfg_a Example.world_a (Key (key ".")) Example.locals_stale
      Example.machine_raw = (Val l1, m1) /\
    step Example.cfg_a Example.world_a (Key (key ".")) l1 m1 = (Val l2, m2) /\
    ents l2 = [ {| type := TYPE_DIR; d_name := "banana" |};
                {| type := TYPE_NORM; d_name := "Apple" |};
                {| type := TYPE_EXEC; d_name := "cherry.sh" |} ] /\
    ents l2 <> ents Example.locals_stale.
Proof.
  destruct (step Example.cfg_a Example.world_a (Key (key "."))
              Example.locals_stale Example.machine_raw) as [[l1|h] m1] eqn:E1;
    [|vm_compute in E1; discriminate].
  destruct (step Example.cfg_a Example.world_a (Key (key ".")) l1 m1)
    as [[l2|h] m2] eqn:E2;
    [|vm_compute in E1; injection E1 as <- <-; vm_compute in E2; discriminate].
  exists l1, m1, l2, m2. split; [reflexivity|]. split; [exact E2|].
  vm_compute in E1. injection E1 as <- <-.
  vm_compute in E2. injection E2 as <- _.
  split; [reflexivity|discriminate].
Qed.

(** C7 (amended).  The listing on display is the one of the current
    files.  The key [.] is pressed; the program reads the directory with
    the flag flipped, repaints and waits.  The key [.] is pressed again.
    If the files have not changed, the program is then back at a listing
    with the entries it had before the first key, in the same order (and
    this second reading cannot fail for lack of memory). *)
Theorem toggle_hidden_twice cfg w0 w1 w2 l0 l1 m1 m2 size ld m ld' m' :
  read_dir w0 (path l0) size ld (show_hidden l0) m
  = (Val (ents l0, ents_size l0, ld'), m') ->
  same_files w0 w1 -> same_files w0 w2 ->
  step cfg w1 (Key (key ".")) l0 m1 = (Val l1, m2) ->
  exists l2 m3,
    step cfg w2 (Key (key ".")) l1 m2 = (Val l2, m3) /\
    ents l2 = ents l0 /\ path l2 = path l0 /\
    show_hidden l2 = show_hidden l0.
Proof.
  intros H0 S1 S2 H1.
  apply read_dir_listing in H0. destruct H0 as (E0 & _ & L0).
  rewrite step_toggle in H1. apply redraw_stale_inv in H1; [|reflexivity].
  destruct H1 as (elems1 & size1 & dir1 & mm & R1 & ->). simpl in R1.
  apply read_dir_listing in R1. destruct R1 as (_ & Hs & _).
  rewrite step_toggle.
  set (l1' := set_fetch_dir true (set_show_hidden _ _)).
  assert (L : (List.length (listing w2 (path l1') (show_hidden l1'))
               <= ents_size l1')%nat).
  { simpl. rewrite negb_involutive, <- (listing_same w0 w2 _ _ S2), <- E0.
    lia. }
  destruct (redraw_stale w2 cfg l1' m2 _ _ _ _ eq_refl
              (read_dir_room w2 _ _ (last_dir l1') _ m2 L)) as (m3 & R).
  eexists. exists m3. split; [exact R|]. simpl.
  rewrite negb_involutive, <- (listing_same w0 w2 _ _ S2).
  auto.
Qed.

Lemma same_files_a : same_files Example.world_a Example.world_a'.
Proof.
  split; [|reflexivity]. intros dir.
  unfold Example.world_a, Example.world_a'. cbn [w_opendir].
  destruct (String.eqb dir "/tmp/proj"); [|exact I].
  right. split; [|apply stable_stream_of]. apply Permutation_map.
  apply (Permutation_cons_app ["Apple"] [".."; "banana"; ".hidden"; "cherry.sh"]).
  apply (Permutation_cons_app ["Apple"; ".."; "banana"; ".hidden"] []).
  apply (Permutation_cons_app ["Apple"; ".."; "banana"] []).
  apply (Permutation_cons_app ["Apple"] ["banana"]).
  apply (Permutation_cons_app ["Apple"] []).
  apply Permutation_refl.
Defined.

Lemma toggle_hidden_twice_witness :
  exists l1 m2 l2 m3,
    step Example.cfg_a Example.world_a' (Key (key ".")) Example.locals_a
      Example.machine_raw = (Val l1, m2) /\
    step Example.cfg_a Example.world_a (Key (key ".")) l1 m2 = (Val l2, m3) /\
    ents l2 = ents Example.locals_a /\ path l2 = path Example.locals_a /\
    show_hidden l2 = show_hidden Example.locals_a.
Proof.
  destruct (step Example.cfg_a Example.world_a' (Key (key "."))
              Example.locals_a Example.machine_raw) as [[l1|h] m2] eqn:E;
    [|vm_compute in E; discriminate].
  destruct (toggle_hidden_twice Example.cfg_a Example.world_a
              Example.world_a' Example.world_a Example.locals_a l1
              Example.machine_raw m2 64 None Example.machine_a
              (Some "/tmp/proj") Example.machine_a eq_refl same_files_a
              (same_files_refl _) E) as (l2 & m3 & H).
  exists l1, m2, l2, m3. split; [reflexivity|exact H].
Defined.

(** * Further properties of the code *)

(** ** Running a computation on a known state *)

Lemma bind_eq {A B} (c : M A) (k : A -> M B) m a m1 :
  c m = (Val a, m1) -> bind c k m = k a m1.
Proof. intros E. unfold bind. now rewrite E. Qed.

Lemma bind_stop {A B} (c : M A) (k : A -> M B) m h m1 :
  c m = (Stop h, m1) -> bind c k m = (Stop h, m1).
Proof. intros E. unfold bind. now rewrite E. Qed.

Lemma emit_eq e m : emit e m = (Val tt, add_trace [e] m).
Proof. reflexivity. Qed.

Lemma add_trace_app a b m : add_trace b (add_trace a m) = add_trace (a ++ b) m.
Proof. unfold add_trace. simpl. now rewrite app_assoc. Qed.

Lemma add_trace_nil m : add_trace [] m = m.
Proof. destruct m. unfold add_trace. simpl. now rewrite app_nil_r. Qed.

Lemma draw_line_eq e b m :
  draw_line e b m = (Val tt, add_trace (line_events e b) m).
Proof.
  unfold draw_line, printf, line_events, colour.
  rewrite (bind_eq _ _ _ _ _ (emit_eq _ _)).
  destruct b; rewrite emit_eq, add_trace_app; reflexivity.
Qed.

(** ** The terminal *)

Section Terminal.

Variable w : world.

Lemma restore_terminal_eq m :
  restore_terminal w m
  = (Val tt,
     if w_tcsetattr w TCSAFLUSH (g_old_termios m)
     then {| g_old_termios := g_old_termios m; g_row := g_row m;
             g_col := g_col m; tty := g_old_termios m; at_exit := at_exit m;
             trace := trace m ++ [Stdout restore_sequence] |}
     else add_trace [Perror "tcsetattr"; Stdout restore_sequence] m).
Proof.
  unfold restore_terminal, bind, get, printf, perror, emit, set_tty.
  destruct (w_tcsetattr w TCSAFLUSH (g_old_termios m)); simpl.
  - reflexivity.
  - unfold add_trace. simpl. now rewrite <- app_assoc.
Qed.

Lemma setup_terminal_eq m :
  setup_terminal w m =
  if negb (w_tcgetattr w) then (Val false, add_trace [Perror "tcgetattr"] m)
  else if negb (w_tcsetattr w TCSANOW (raw_of (tty m)))
  then (Val false,
        {| g_old_termios := tty m; g_row := g_row m; g_col := g_col m;
           tty := tty m; at_exit := at_exit m;
           trace := trace m ++ [Perror "tcsetattr"] |})
  else (Val true,
        {| g_old_termios := tty m; g_row := g_row m; g_col := g_col m;
           tty := raw_of (tty m); at_exit := at_exit m;
           trace := trace m ++ [Stdout (setup_sequence (g_row m))] |}).
Proof.
  unfold setup_terminal, raw_of.
  destruct (w_tcgetattr w); simpl; [|reflexivity].
  unfold bind, get, set_old_termios, perror, printf, emit, set_tty, ret. simpl.
  destruct (w_tcsetattr w TCSANOW _); reflexivity.
Qed.

End Terminal.

Lemma small_bits (a i : Z) :
  0 <= a < 16 -> 4 <= i -> Z.testbit a i = false.
Proof.
  intros Ha Hi. destruct (Z.eq_dec a 0) as [->|N]; [apply Z.bits_0|].
  apply Z.bits_above_log2; [lia|].
  assert (Z.log2 a < 4) by (apply Z.log2_lt_pow2; lia). lia.
Qed.

(** X1.  When [setup_terminal] succeeds, the terminal has the attributes it
    had, with the bit OPOST cleared in [c_oflag] and the bits ECHO and
    ICANON cleared in [c_lflag]; no other bit has changed. *)
Theorem setup_terminal_raw w m m' :
  setup_terminal w m = (Val true, m') ->
  c_iflag (tty m') = c_iflag (tty m) /\ c_cflag (tty m') = c_cflag (tty m) /\
  (forall i, 0 <= i ->
     Z.testbit (c_oflag (tty m')) i
     = Z.testbit (c_oflag (tty m)) i && negb (i =? 0)) /\
  (forall i, 0 <= i ->
     Z.testbit (c_lflag (tty m')) i
     = Z.testbit (c_lflag (tty m)) i && negb ((i =? 1) || (i =? 3))).
Proof.
  rewrite setup_terminal_eq.
  destruct (negb (w_tcgetattr w)); [discriminate|].
  destruct (negb (w_tcsetattr w TCSANOW _)); [discriminate|].
  intros [= <-]. cbn [tty raw_of c_iflag c_oflag c_cflag c_lflag].
  repeat split; intros i Hi;
    rewrite Z.land_spec, Z.lnot_spec by exact Hi.
  - replace (Z.testbit OPOST i) with (i =? 0); [reflexivity|].
    destruct (Z_lt_le_dec i 4) as [L|G].
    + assert (i = 0 \/ i = 1 \/ i = 2 \/ i = 3) as [->|[->|[->| ->]]] by lia;
        reflexivity.
    + rewrite (small_bits OPOST i) by (unfold OPOST; lia).
      destruct (Z.eqb_spec i 0); [lia|reflexivity].
  - replace (Z.testbit (Z.lor ECHO ICANON) i) with ((i =? 1) || (i =? 3));
      [reflexivity|].
    destruct (Z_lt_le_dec i 4) as [L|G].
    + assert (i = 0 \/ i = 1 \/ i = 2 \/ i = 3) as [->|[->|[->| ->]]] by lia;
        reflexivity.
    + rewrite (small_bits (Z.lor ECHO ICANON) i)
        by (change (Z.lor ECHO ICANON) with 10; lia).
      destruct (Z.eqb_spec i 1); [lia|]. destruct (Z.eqb_spec i 3); [lia|].
      reflexivity.
Qed.

Lemma setup_terminal_raw_witness :
  exists m',
    setup_terminal Example.world_a Example.machine_a = (Val true, m') /\
    c_lflag (tty m') = 0x8A31 /\ c_oflag (tty m') = 0x4 /\
    (forall i, 0 <= i ->
       Z.testbit (c_lflag (tty m')) i
       = Z.testbit (c_lflag (tty Example.machine_a)) i
         && negb ((i =? 1) || (i =? 3))).
Proof.
  exists (snd (setup_terminal Example.world_a Example.machine_a)).
  split; [reflexivity|]. split; [reflexivity|]. split; [reflexivity|].
  exact (proj2 (proj2 (proj2 (setup_terminal_raw Example.world_a
                                Example.machine_a _ eq_refl)))).
Defined.

(** X2.  When [setup_terminal] fails, the attributes of the terminal and
    the geometry are what they were, nothing has been written to the
    terminal, and one message has gone through [perror].  The saved
    attributes are not always what they were: when it is [tcsetattr] that
    fails, [tcgetattr] has already overwritten [g_old_termios] with the
    attributes the terminal has now. *)
Theorem setup_terminal_fails w m m' :
  setup_terminal w m = (Val false, m') ->
  tty m' = tty m /\ geometry m' = geometry m /\ at_exit m' = at_exit m /\
  (exists msg, trace m' = (trace m ++ [Perror msg])%list) /\
  g_old_termios m' = (if w_tcgetattr w then tty m else g_old_termios m).
Proof.
  rewrite setup_terminal_eq.
  destruct (w_tcgetattr w); cbn [negb].
  - destruct (negb (w_tcsetattr w TCSANOW _)); [|discriminate].
    intros [= <-]. repeat split. now exists "tcsetattr".
  - intros [= <-]. repeat split. now exists "tcgetattr".
Qed.

Lemma setup_terminal_fails_witness :
  let w := {| w_opendir := fun _ => None; w_fstatat := fun _ _ _ => None;
              w_realloc := fun _ => true; w_fork := 1;
              w_chdir := fun _ => true; w_execlp := fun _ => true;
              w_waitpid := [0]; w_tcgetattr := true;
              w_tcsetattr := fun _ _ => false; w_ioctl := None |} in
  exists m',
    setup_terminal w Example.machine_raw = (Val false, m') /\
    tty m' = Example.raw /\
    geometry m' = geometry Example.machine_raw /\
    at_exit m' = at_exit Example.machine_raw /\
    (exists msg, trace m' = (trace Example.machine_raw ++ [Perror msg])%list) /\
    g_old_termios m' = Example.raw /\
    g_old_termios Example.machine_raw = Example.cooked.
Proof.
  intros w. exists (snd (setup_terminal w Example.machine_raw)).
  split; [reflexivity|].
  destruct (setup_terminal_fails w Example.machine_raw _ eq_refl)
    as (H1 & H2 & H3 & H4 & H5).
  repeat split; assumption.
Defined.

(** X3.  [restore_terminal] undoes [setup_terminal]: when the calls on the
    attributes succeed, the terminal is back at the attributes it had, and
    the two control strings have been written in this order. *)
Theorem setup_restore_round_trip w m :
  w_tcgetattr w = true ->
  w_tcsetattr w TCSANOW (raw_of (tty m)) = true ->
  w_tcsetattr w TCSAFLUSH (tty m) = true ->
  exists m1,
    setup_terminal w m = (Val true, m1) /\
    tty m1 = raw_of (tty m) /\
    restore_terminal w m1
    = (Val tt,
       {| g_old_termios := tty m; g_row := g_row m; g_col := g_col m;
          tty := tty m; at_exit := at_exit m;
          trace := trace m ++ [Stdout (setup_sequence (g_row m));
                               Stdout restore_sequence] |}).
Proof.
  intros G S R. eexists. rewrite setup_terminal_eq, G, S. simpl.
  split; [reflexivity|]. split; [reflexivity|].
  rewrite restore_terminal_eq. simpl. rewrite R, <- app_assoc. reflexivity.
Qed.

Lemma setup_restore_round_trip_witness :
  exists m1,
    setup_terminal Example.world_a Example.machine_a = (Val true, m1) /\
    tty m1 = raw_of (tty Example.machine_a) /\
    tty (snd (restore_terminal Example.world_a m1)) = Example.cooked.
Proof.
  destruct (setup_restore_round_trip Example.world_a Example.machine_a
              eq_refl eq_refl eq_refl) as (m1 & H1 & H2 & H3).
  exists m1. split; [exact H1|]. split; [exact H2|]. now rewrite H3.
Defined.

Lemma exit_eq w {A} status m :
  @exit w A status m
  = (Stop (Exit status),
     add_trace [Fflush]
       (if at_exit m then snd (restore_terminal w m) else m)).
Proof.
  unfold exit, bind, get. destruct (at_exit m).
  - rewrite restore_terminal_eq. reflexivity.
  - reflexivity.
Qed.

(** X4.  The key [q] ends the process with EXIT_SUCCESS; the handler
    registered with [atexit] has put the saved attributes back and written
    the control string that leaves the alternate screen, and the output has
    been flushed. *)
Theorem quit_restores w cfg l m :
  at_exit m = true ->
  w_tcsetattr w TCSAFLUSH (g_old_termios m) = true ->
  dispatch w cfg (key "q") l m
  = (Stop (Exit EXIT_SUCCESS),
     {| g_old_termios := g_old_termios m; g_row := g_row m; g_col := g_col m;
        tty := g_old_termios m; at_exit := true;
        trace := trace m ++ [Stdout restore_sequence; Fflush] |}).
Proof.
  intros Ha Ht. unfold dispatch.
  change (switch_always w cfg (key "q") l) with (@exit w locals EXIT_SUCCESS).
  rewrite (bind_stop _ _ _ _ _ (exit_eq w EXIT_SUCCESS m)).
  rewrite Ha, restore_terminal_eq, Ht. unfold add_trace. simpl.
  now rewrite Ha, <- app_assoc.
Qed.

Lemma quit_restores_witness :
  at_exit Example.machine_raw = true /\
  w_tcsetattr Example.world_a TCSAFLUSH (g_old_termios Example.machine_raw)
  = true /\
  dispatch Example.world_a Example.cfg_a (key "q") Example.locals_a
    Example.machine_raw
  = (Stop (Exit EXIT_SUCCESS),
     {| g_old_termios := Example.cooked; g_row := 24; g_col := 80;
        tty := Example.cooked; at_exit := true;
        trace := [Stdout restore_sequence; Fflush] |}).
Proof.
  split; [reflexivity|]. split; [reflexivity|].
  exact (quit_restores Example.world_a Example.cfg_a Example.locals_a
           Example.machine_raw eq_refl eq_refl).
Defined.

Lemma get_term_size_eq w m :
  get_term_size w m =
  match w_ioctl w with
  | None => (Val false, add_trace [Perror "ioctl"] m)
  | Some (row, col) =>
      (Val true,
       {| g_old_termios := g_old_termios m; g_row := row; g_col := col;
          tty := tty m; at_exit := at_exit m; trace := trace m |})
  end.
Proof.
  unfold get_term_size. destruct (w_ioctl w) as [[row col]|]; reflexivity.
Qed.

Lemma startup_eq w m :
  startup w m =
  match w_ioctl w with
  | None => @exit w unit EXIT_FAILURE (add_trace [Perror "ioctl"] m)
  | Some (row, col) =>
      let m1 := {| g_old_termios := g_old_termios m; g_row := row;
                   g_col := col; tty := tty m; at_exit := at_exit m;
                   trace := trace m ++ [Signal SIGWINCH Handle_winch] |} in
      match setup_terminal w m1 with
      | (Val true, m2) => set_at_exit m2
      | (Val false, m2) => @exit w unit EXIT_FAILURE m2
      | (Stop h, m2) => (Stop h, m2)
      end
  end.
Proof.
  unfold startup, bind. rewrite get_term_size_eq.
  destruct (w_ioctl w) as [[row col]|]; [|reflexivity].
  simpl. destruct (setup_terminal w _) as [[[|]|h] m2]; reflexivity.
Qed.

(** The state in which [startup] hands over to the loop. *)
Lemma startup_val w m m' :
  startup w m = (Val tt, m') ->
  exists row col,
    w_ioctl w = Some (row, col) /\
    m' = {| g_old_termios := tty m; g_row := row; g_col := col;
            tty := raw_of (tty m); at_exit := true;
            trace := trace m ++ [Signal SIGWINCH Handle_winch;
                                 Stdout (setup_sequence row)] |}.
Proof.
  rewrite startup_eq.
  destruct (w_ioctl w) as [[row col]|];
    [|intros H; now apply exit_not_val in H].
  cbv zeta. rewrite setup_terminal_eq.
  destruct (negb (w_tcgetattr w));
    [intros H; now apply exit_not_val in H|].
  destruct (negb (w_tcsetattr w TCSANOW _));
    [intros H; now apply exit_not_val in H|].
  intros [= <-]. exists row, col. split; [reflexivity|].
  simpl. now rewrite <- app_assoc.
Qed.

(** X5.  When the start of [main] succeeds, the terminal is in the raw
    variant of the attributes found, these attributes are saved and the
    restoring handler is registered; the size is the one just queried, and
    the scroll region written to the terminal runs from row 3 to the last
    row of that size. *)
Theorem startup_succeeds w m m' :
  startup w m = (Val tt, m') ->
  set_up_over (tty m) m' /\
  exists row col,
    w_ioctl w = Some (row, col) /\ geometry m' = (row, col) /\
    trace m' = (trace m ++ [Signal SIGWINCH Handle_winch;
                            Stdout (setup_sequence row)])%list.
Proof.
  intros H. apply startup_val in H. destruct H as (row & col & Hi & ->).
  split; [repeat split|]. exists row, col. repeat split. exact Hi.
Qed.

Lemma startup_succeeds_witness :
  exists m',
    startup Example.world_a Example.machine_a = (Val tt, m') /\
    set_up_over (tty Example.machine_a) m' /\
    exists row col,
      w_ioctl Example.world_a = Some (row, col) /\ geometry m' = (row, col) /\
      trace m' = (trace Example.machine_a
                  ++ [Signal SIGWINCH Handle_winch;
                      Stdout (setup_sequence row)])%list.
Proof.
  exists (snd (startup Example.world_a Example.machine_a)).
  split; [reflexivity|].
  exact (startup_succeeds Example.world_a Example.machine_a _ eq_refl).
Defined.

(** X6.  When the start of [main] fails, the process exits with
    EXIT_FAILURE; the attributes of the terminal are untouched, no handler
    is registered, and nothing has been written to the terminal. *)
Theorem startup_fails w m h m' :
  at_exit m = false ->
  startup w m = (Stop h, m') ->
  h = Exit EXIT_FAILURE /\ tty m' = tty m /\ at_exit m' = false /\
  forall s, In (Stdout s) (trace m') -> In (Stdout s) (trace m).
Proof.
  intros Ha. rewrite startup_eq.
  destruct (w_ioctl w) as [[row col]|].
  - cbv zeta. rewrite setup_terminal_eq.
    cbn [tty g_row g_col g_old_termios at_exit trace].
    destruct (negb (w_tcgetattr w)); [|destruct (negb (w_tcsetattr w TCSANOW _))];
      try discriminate;
      rewrite exit_eq; cbn [at_exit add_trace]; rewrite Ha;
      intros [= <- <-]; repeat split; try exact Ha;
      intros s; cbn [trace add_trace]; rewrite !in_app_iff; simpl;
      intuition discriminate.
  - rewrite exit_eq. cbn [at_exit add_trace]. rewrite Ha.
    intros [= <- <-]. repeat split; try exact Ha.
    intros s. cbn [trace add_trace]. rewrite !in_app_iff. simpl.
    intuition discriminate.
Qed.

Lemma startup_fails_witness :
  at_exit Example.machine_a = false /\
  exists m',
    startup Example.world_notty Example.machine_a
    = (Stop (Exit EXIT_FAILURE), m') /\
    tty m' = tty Example.machine_a /\ at_exit m' = false /\
    forall s, In (Stdout s) (trace m') ->
              In (Stdout s) (trace Example.machine_a).
Proof.
  split; [reflexivity|].
  exists (snd (startup Example.world_notty Example.machine_a)).
  split; [reflexivity|].
  exact (proj2 (startup_fails Example.world_notty Example.machine_a _ _
                  eq_refl eq_refl)).
Defined.

(** ** Spawning a child, continued *)

Lemma wait_loop_eq statuses m :
  wait_loop statuses m = (if ends statuses then Val tt else Stop Hang, m).
Proof.
  unfold ends. induction statuses as [|s statuses IH]; simpl; [reflexivity|].
  destruct (WIFEXITED s), (WIFSIGNALED s); simpl; try reflexivity. exact IH.
Qed.

Section Spawn.

Variable w : world.

(** What [spawn] does in the parent up to the end of the child, and what
    in the child. *)
Lemma spawn_eq dir cmd argv1 m :
  spawn w dir cmd argv1 m =
  if w_fork w <? 0 then (Val tt, m)
  else
    let m0 := if 0 <? w_fork w then add_trace [Forked (w_fork w)] m else m in
    let m1 := add_trace [Fflush] (snd (restore_terminal w m0)) in
    if w_fork w =? 0 then
      (Stop (if w_chdir w dir && w_execlp w cmd
             then Exec cmd argv1 else Exit EXIT_FAILURE), m1)
    else if ends (w_waitpid w)
    then (Val tt, snd (setup_terminal w m1))
    else (Stop Hang, m1).
Proof.
  unfold spawn. destruct (w_fork w <? 0); [reflexivity|].
  unfold bind at 1.
  assert (E : (if 0 <? w_fork w then emit (Forked (w_fork w)) else ret tt) m
              = (Val tt, if 0 <? w_fork w
                         then add_trace [Forked (w_fork w)] m else m))
    by (destruct (0 <? w_fork w); reflexivity).
  rewrite E. clear E. cbv zeta.
  set (m0 := if 0 <? w_fork w then _ else m).
  unfold bind at 1. rewrite restore_terminal_eq.
  unfold bind at 1. rewrite emit_eq.
  replace (snd (_, _)) with
    (if w_tcsetattr w TCSAFLUSH (g_old_termios m0)
     then {| g_old_termios := g_old_termios m0; g_row := g_row m0;
             g_col := g_col m0; tty := g_old_termios m0;
             at_exit := at_exit m0;
             trace := trace m0 ++ [Stdout restore_sequence] |}
     else add_trace [Perror "tcsetattr"; Stdout restore_sequence] m0)
    by reflexivity.
  set (m1 := add_trace [Fflush] _).
  unfold bind at 1.
  destruct (w_fork w =? 0).
  - unfold _exit, stop. destruct (w_chdir w dir); simpl;
      [destruct (w_execlp w cmd)|]; reflexivity.
  - rewrite wait_loop_eq. destruct (ends (w_waitpid w)); [|reflexivity].
    unfold bind. destruct (setup_terminal w m1) as [[b|h] m2] eqn:S.
    + reflexivity.
    + rewrite setup_terminal_eq in S.
      destruct (negb (w_tcgetattr w)); [discriminate|].
      destruct (negb (w_tcsetattr w TCSANOW _)); discriminate.
Qed.


(** X8.  In the child, [spawn] never returns: the process becomes the
    command, with the one argument given, when [chdir] and [execlp]
    succeed; otherwise it ends with EXIT_FAILURE, by [_exit], so that the
    handler registered with [atexit] does not run a second time. *)
Theorem spawn_child dir cmd argv1 m :
  w_fork w = 0 ->
  spawn w dir cmd argv1 m
  = (Stop (if w_chdir w dir && w_execlp w cmd
           then Exec cmd argv1 else Exit EXIT_FAILURE),
     add_trace [Fflush] (snd (restore_terminal w m))).
Proof.
  intros H. rewrite spawn_eq, H. reflexivity.
Qed.

(** X9.  In the parent, [spawn] waits until a status reports that the
    child has exited or was killed by a signal; statuses of a child that
    is only stopped are passed over.  If no status reports an end, the
    program stays in [waitpid], with the terminal handed over. *)
Theorem spawn_waits dir cmd argv1 m :
  0 < w_fork w ->
  (ends (w_waitpid w) = true <->
   exists m', spawn w dir cmd argv1 m = (Val tt, m')) /\
  (ends (w_waitpid w) = false ->
   fst (spawn w dir cmd argv1 m) = Stop Hang /\
   (w_tcsetattr w TCSAFLUSH (g_old_termios m) = true ->
    tty (snd (spawn w dir cmd argv1 m)) = g_old_termios m)).
Proof.
  intros Hp. rewrite spawn_eq.
  destruct (Z.ltb_spec (w_fork w) 0); [lia|].
  destruct (Z.ltb_spec 0 (w_fork w)); [|lia].
  destruct (Z.eqb_spec (w_fork w) 0); [lia|].
  cbv zeta. destruct (ends (w_waitpid w)); split.
  - split; [eauto|reflexivity].
  - discriminate.
  - split; [discriminate|]. intros (m' & E). discriminate.
  - intros _. split; [reflexivity|]. intros Ht.
    rewrite restore_terminal_eq.
    cbn [snd add_trace g_old_termios g_row g_col tty at_exit trace].
    now rewrite Ht.
Qed.


End Spawn.

Lemma termios_ok_a : termios_ok Example.world_a.
Proof. split; [reflexivity|]. intros action t. reflexivity. Defined.


Lemma spawn_child_witness :
  w_fork Example.world_child = 0 /\
  spawn Example.world_child "/tmp/proj" "vi" (Some "notes.txt")
    Example.machine_raw
  = (Stop (Exec "vi" (Some "notes.txt")),
     {| g_old_termios := Example.cooked; g_row := 24; g_col := 80;
        tty := Example.cooked; at_exit := true;
        trace := [Stdout restore_sequence; Fflush] |}).
Proof.
  split; [reflexivity|].
  exact (spawn_child Example.world_child "/tmp/proj" "vi" (Some "notes.txt")
           Example.machine_raw eq_refl).
Defined.

Lemma spawn_waits_witness :
  0 < w_fork Example.world_stopped /\
  ends (w_waitpid Example.world_stopped) = false /\
  fst (spawn Example.world_stopped "/tmp/proj" "/bin/sh" None
         Example.machine_raw) = Stop Hang /\
  tty (snd (spawn Example.world_stopped "/tmp/proj" "/bin/sh" None
              Example.machine_raw)) = Example.cooked.
Proof.
  assert (P : 0 < w_fork Example.world_stopped) by (simpl; lia).
  split; [exact P|]. split; [reflexivity|].
  destruct (proj2 (spawn_waits Example.world_stopped "/tmp/proj" "/bin/sh"
                     None Example.machine_raw P) eq_refl) as [H1 H2].
  split; [exact H1|exact (H2 eq_refl)].
Defined.


(** ** The terminal over a whole run *)

Lemma keeps_ret {A} I (a : A) : keeps I (ret a).
Proof. intros m a' m' H [= _ <-]. exact H. Qed.

Lemma keeps_stop {A} I (h : halt) : keeps I (@stop A h).
Proof. intros m a m' _ H. discriminate. Qed.

Lemma keeps_bind {A B} I (c : M A) (k : A -> M B) :
  keeps I c -> (forall a, keeps I (k a)) -> keeps I (bind c k).
Proof.
  intros Hc Hk m b m' Hi H. apply bind_val in H.
  destruct H as (a & m1 & H1 & H2). exact (Hk a _ _ _ (Hc _ _ _ Hi H1) H2).
Qed.

Lemma keeps_get {A} I (f : machine -> A) : keeps I (get f).
Proof. intros m a m' H [= _ <-]. exact H. Qed.

Lemma keeps_written I r : keeps I (written r).
Proof. intros m a m' H E. destruct r; [now injection E as _ <-|discriminate]. Qed.

Lemma keeps_exit w {A} I status : keeps I (@exit w A status).
Proof. intros m a m' _ H. now apply exit_not_val in H. Qed.

Section SetUp.

Variable t0 : termios.

Lemma set_up_emit e : keeps (set_up_over t0) (emit e).
Proof. intros m a m' H [= _ <-]. exact H. Qed.

Lemma set_up_set_size row col : keeps (set_up_over t0) (set_size row col).
Proof. intros m a m' H [= _ <-]. exact H. Qed.

Lemma raw_of_idempotent t : raw_of (raw_of t) = raw_of t.
Proof.
  unfold raw_of. simpl. f_equal; rewrite <- Z.land_assoc, Z.land_diag;
    reflexivity.
Qed.

Create HintDb setup.

#[local] Hint Resolve keeps_ret keeps_stop keeps_get keeps_exit keeps_written
  set_up_emit set_up_set_size : setup.

Ltac keep :=
  repeat match goal with
         | |- keeps _ (bind _ _) => apply keeps_bind; [|intros ?]
         | |- keeps _ (if ?b then _ else _) => destruct b
         | |- keeps _ (match ?x with _ => _ end) => destruct x
         | |- keeps _ (printf _) => unfold printf
         | |- keeps _ (perror _) => unfold perror
         | |- keeps _ (_exit _) => unfold _exit
         | |- _ => solve [eauto with setup]
         end.

Variable w : world.
Variable cfg : config.
Hypothesis ok : termios_ok w.

Lemma set_up_spawn dir cmd argv1 :
  keeps (set_up_over t0) (spawn w dir cmd argv1).
Proof.
  intros m a m' (Ha & Ho & Ht) H. destruct ok as [Hg Hs].
  rewrite spawn_eq in H.
  destruct (w_fork w <? 0); [injection H as _ <-; repeat split; assumption|].
  cbv zeta in H. destruct (w_fork w =? 0); [discriminate|].
  destruct (ends (w_waitpid w)); [|discriminate].
  injection H as _ <-.
  rewrite restore_terminal_eq, setup_terminal_eq, Hg.
  cbn [snd add_trace g_old_termios g_row g_col tty at_exit trace negb].
  rewrite !Hs.
  cbn [snd add_trace g_old_termios g_row g_col tty at_exit trace negb].
  destruct (0 <? w_fork w); simpl; rewrite ?Ho; repeat split; assumption.
Qed.

Lemma set_up_read_dir dir size last_dir sh :
  keeps (set_up_over t0) (read_dir w dir size last_dir sh).
Proof. unfold read_dir. keep. Qed.

Lemma set_up_draw_line e b : keeps (set_up_over t0) (draw_line e b).
Proof. unfold draw_line. keep. Qed.

Lemma set_up_draw_lines es :
  forall i s, keeps (set_up_over t0) (draw_lines es i s).
Proof.
  induction es; intros i s; simpl; pose proof set_up_draw_line; keep.
Qed.

Lemma set_up_elem_at l i : keeps (set_up_over t0) (elem_at l i).
Proof. unfold elem_at. keep. Qed.

Lemma set_up_redraw l : keeps (set_up_over t0) (redraw w cfg l).
Proof.
  unfold redraw, fetch, render. pose proof set_up_read_dir.
  pose proof set_up_draw_lines. keep.
Qed.

Lemma set_up_dispatch c l : keeps (set_up_over t0) (dispatch w cfg c l).
Proof.
  unfold dispatch, switch_always, switch_entry.
  pose proof set_up_spawn. pose proof set_up_draw_line.
  pose proof set_up_elem_at. keep.
Qed.

Lemma set_up_step i l : keeps (set_up_over t0) (step cfg w i l).
Proof.
  destruct i as [c|]; simpl.
  - pose proof set_up_dispatch. pose proof set_up_redraw. keep.
  - unfold handle_winch, get_term_size. keep.
Qed.

End SetUp.

Lemma set_up_run t0 cfg inputs :
  Forall (fun wi => termios_ok (fst wi)) inputs ->
  forall l, keeps (set_up_over t0) (run cfg inputs l).
Proof.
  induction 1 as [|[w i] inputs Hw _ IH]; intros l; simpl.
  - apply keeps_ret.
  - apply keeps_bind; [now apply set_up_step|exact IH].
Qed.


Lemma termios_ok_b : termios_ok Example.world_b.
Proof. split; [reflexivity|]. intros action t. reflexivity. Defined.


(** ** [direlemcmp] and [read_dir], continued *)

Lemma strcmp_refl (a : string) : strcmp a a = 0.
Proof.
  induction a as [|c a IH]; simpl; [reflexivity|].
  now rewrite Z.compare_refl.
Qed.

(** X12.  [direlemcmp] is a comparison function as [qsort] requires:
    swapping the arguments flips the sign, the order is transitive, and two
    entries compare equal exactly when they are in the same group and have
    the same name. *)
Theorem direlemcmp_consistent (a b c : direlement) :
  Z.sgn (direlemcmp a b) = - Z.sgn (direlemcmp b a) /\
  (direlemcmp a b <= 0 -> direlemcmp b c <= 0 -> direlemcmp a c <= 0) /\
  (direlemcmp a b = 0 <->
   (dir_kind a <-> dir_kind b) /\ d_name a = d_name b).
Proof.
  split; [|split].
  - rewrite !direlemcmp_unfold.
    destruct (is_dir a), (is_dir b); simpl; try reflexivity;
      rewrite (strcmp_antisym (d_name a)); apply Z.sgn_opp.
  - apply elem_le_trans.
  - rewrite <- !is_dir_kind, direlemcmp_unfold. split.
    + destruct (is_dir a), (is_dir b); simpl; try discriminate;
        intros H; (split; [tauto|now apply strcmp_eq]).
    + intros [G N]. rewrite N, strcmp_refl.
      destruct (is_dir a), (is_dir b); simpl; try reflexivity.
      * now specialize (proj1 G eq_refl).
      * now specialize (proj2 G eq_refl).
Qed.

Lemma NoDup_map_filter {A B} (g : A -> B) (f : A -> bool) (l : list A) :
  NoDup (map g l) -> NoDup (map g (filter f l)).
Proof.
  induction l as [|a l IH]; simpl; [auto|].
  intros N. apply NoDup_cons_iff in N. destruct N as [Na N].
  destruct (f a); simpl; [|now apply IH].
  apply NoDup_cons; [|now apply IH].
  intros Hin. apply Na. apply in_map_iff in Hin.
  destruct Hin as (x & E & Hx). apply filter_In in Hx.
  apply in_map_iff. exists x. tauto.
Qed.

(** X13.  The listing shows one string for each member of the directory
    that passes the three tests of the loop (not "." or "..", not hidden
    when hidden files are off, stat succeeds), as often as the stream hands
    the member out: none is lost and none is doubled.  The string is what
    the stream has kept of the name when it has been read to its end;
    where the stream has kept the names, the listing holds the names of
    these members. *)
Theorem read_dir_members w path size last_dir sh m elems size' dir' m' stream :
  read_dir w path size last_dir sh m = (Val (elems, size', dir'), m') ->
  w_opendir w path = Some stream ->
  Permutation (names_of elems)
              (map ent_kept (filter (listed w path sh) stream)) /\
  (forall ent, c_string (ent_name ent) = true ->
     (listed w path sh ent = true <->
      ~ pseudo_entry (ent_name ent) /\
      (hidden_name (ent_name ent) -> sh = true) /\
      w_fstatat w path (ent_name ent) AT_SYMLINK_NOFOLLOW <> None)) /\
  (stable stream ->
   Permutation (names_of elems)
               (map ent_name (filter (listed w path sh) stream)) /\
   (NoDup (map ent_name stream) -> NoDup (names_of elems))).
Proof.
  intros H O.
  pose proof (read_dir_names w _ _ _ _ _ _ _ _ _ stream H O) as P.
  split; [exact P|]. split; [intros ent C; now apply listed_iff|].
  intros S. rewrite (stable_kept _ _ S) in P. split; [exact P|].
  intros N. apply (Permutation_NoDup (Permutation_sym P)).
  now apply NoDup_map_filter.
Qed.

Lemma read_dir_members_witness :
  Permutation
    (names_of [ {| type := TYPE_DIR; d_name := "banana" |};
                {| type := TYPE_NORM; d_name := "Apple" |};
                {| type := TYPE_EXEC; d_name := "cherry.sh" |} ])
    (map ent_name
       (filter (listed Example.world_a "/tmp/proj" false)
          (stream_of ["."; "cherry.sh"; ".hidden"; ".."; "banana"; "Apple"]))) /\
  Permutation
    (names_of [ {| type := TYPE_DIR; d_name := "gamma" |};
                {| type := TYPE_NORM; d_name := "beta" |};
                {| type := TYPE_NORM; d_name := "gamma" |} ])
    (map ent_kept
       (filter (listed Example.world_refilled "/big" false)
          [ {| ent_name := "alpha"; ent_kept := "gamma" |};
            {| ent_name := "beta"; ent_kept := "beta" |};
            {| ent_name := "gamma"; ent_kept := "gamma" |} ])).
Proof.
  split.
  - exact (proj1 (proj2 (proj2
             (read_dir_members Example.world_a "/tmp/proj" 64 None false
                Example.machine_a _ _ _ _ _ eq_refl eq_refl))
             (stable_stream_of _))).
  - exact (proj1 (read_dir_members Example.world_refilled "/big" 64 None false
                    Example.machine_a _ _ _ _ _ eq_refl eq_refl)).
Defined.

(** The array grows by steps of ENT_ALLOC_NUM, and only when it is full. *)
Lemma read_entries_growth w dir sh (names : list dirent) :
  forall acc size es size',
    read_entries w dir sh names acc size = Some (es, size') ->
    (List.length acc <= size)%nat ->
    (List.length es <= size')%nat /\
    exists k, size' = (size + k * ENT_ALLOC_NUM)%nat /\
              (k <> 0%nat -> (size' < List.length es + ENT_ALLOC_NUM)%nat).
Proof.
  induction names as [|name rest IH]; intros acc size es size' H L.
  - simpl in H. injection H as <- <-. split; [exact L|].
    exists 0%nat. split; [lia|congruence].
  - rewrite read_entries_cons in H.
    destruct (entry_of w dir sh name) as [e|]; [|eapply IH; eassumption].
    destruct (Nat.eqb_spec (List.length acc) size) as [E|NE].
    + destruct (w_realloc w (size + ENT_ALLOC_NUM)); [|discriminate].
      pose proof (read_entries_some w _ _ _ _ _ _ _ H) as (Hes & _).
      apply IH in H; [|rewrite length_app; simpl; unfold ENT_ALLOC_NUM; lia].
      destruct H as (Hl & k & Hk & Hmin). split; [exact Hl|].
      exists (S k). split; [lia|]. intros _.
      destruct k as [|k]; [|specialize (Hmin ltac:(discriminate)); lia].
      subst es. rewrite !length_app. simpl. lia.
    + apply IH in H; [exact H|rewrite length_app; simpl; lia].
Qed.

(** X14.  After [read_dir] the array has room for the entries it holds.
    Its size has grown by a multiple of ENT_ALLOC_NUM, and no further than
    the number of entries made necessary. *)
Theorem read_dir_capacity w path size last_dir sh m elems size' dir' m' :
  read_dir w path size last_dir sh m = (Val (elems, size', dir'), m') ->
  (List.length elems <= size')%nat /\
  exists k, size' = (size + k * ENT_ALLOC_NUM)%nat /\
            (k <> 0%nat -> (size' < List.length elems + ENT_ALLOC_NUM)%nat).
Proof.
  intros H. apply read_dir_val in H.
  destruct H as (_ & [(_ & -> & -> & _)|(names & _ & E & -> & _)]).
  - split; [simpl; lia|]. exists 0%nat. split; [lia|congruence].
  - rewrite <- (Permutation_length (qsort_perm direlemcmp _)).
    apply (read_entries_growth w path sh names [] size); [exact E|simpl; lia].
Qed.

Lemma read_dir_capacity_witness :
  exists elems m',
    read_dir Example.world_many "/usr/bin" 64 None false Example.machine_a
    = (Val (elems, 192%nat, Some "/usr/bin"), m') /\
    List.length elems = 130%nat /\
    (List.length elems <= 192)%nat /\
    exists k, 192%nat = (64 + k * ENT_ALLOC_NUM)%nat /\
              (k <> 0%nat -> (192 < List.length elems + ENT_ALLOC_NUM)%nat).
Proof.
  destruct (read_dir Example.world_many "/usr/bin" 64 None false
              Example.machine_a) as [[[[elems size'] dir']|h] m'] eqn:E;
    [|vm_compute in E; discriminate].
  assert (S : size' = 192%nat /\ dir' = Some "/usr/bin"
              /\ List.length elems = 130%nat).
  { vm_compute in E. injection E as <- <- <- _. repeat split. }
  destruct S as (-> & -> & Hl).
  exists elems, m'. split; [reflexivity|]. split; [exact Hl|].
  exact (read_dir_capacity _ _ _ _ _ _ _ _ _ _ E).
Defined.

(** X15.  All [read_dir] does to the outside is to close the stream of
    the previous listing, when there is one; neither the terminal nor the
    output is touched.  The stream it hands back is the one of the
    directory when that could be opened, and none otherwise. *)
Theorem read_dir_streams w path size last_dir sh m elems size' dir' m' :
  read_dir w path size last_dir sh m = (Val (elems, size', dir'), m') ->
  m' = add_trace (match last_dir with
                  | Some d => [Closedir d]
                  | None => []
                  end) m /\
  dir' = match w_opendir w path with
         | Some _ => Some path
         | None => None
         end.
Proof.
  intros H. apply read_dir_val in H. destruct H as (-> & H). split.
  - destruct last_dir; [reflexivity|]. simpl. now rewrite add_trace_nil.
  - destruct H as [(-> & _ & _ & ->)|(names & -> & _ & _ & ->)]; reflexivity.
Qed.

Lemma read_dir_streams_witness :
  read_dir Example.world_a "/tmp/proj" 64 (Some "/tmp") false
    Example.machine_raw
  = (Val (ents Example.locals_a, 64%nat, Some "/tmp/proj"),
     add_trace [Closedir "/tmp"] Example.machine_raw) /\
  add_trace [Closedir "/tmp"] Example.machine_raw
  = add_trace [Closedir "/tmp"] Example.machine_raw /\
  Some "/tmp/proj"
  = match w_opendir Example.world_a "/tmp/proj" with
    | Some _ => Some "/tmp/proj"
    | None => None
    end.
Proof.
  split; [reflexivity|].
  exact (read_dir_streams Example.world_a "/tmp/proj" 64 (Some "/tmp") false
           Example.machine_raw _ _ _ _ eq_refl).
Defined.

(** ** The variables of the loop *)

Lemma gives_ret {A} (a : A) (Q : A -> Prop) : Q a -> gives (ret a) Q.
Proof. intros H m a' m' [= <- _]. exact H. Qed.

Lemma gives_stop {A} (h : halt) (Q : A -> Prop) : gives (stop h) Q.
Proof. intros m a m' H. discriminate. Qed.

Lemma gives_exit w {A} status (Q : A -> Prop) : gives (@exit w A status) Q.
Proof. intros m a m' H. now apply exit_not_val in H. Qed.

Lemma gives_bind {A B} (c : M A) (k : A -> M B) (R : A -> Prop)
    (Q : B -> Prop) :
  gives c R -> (forall a, R a -> gives (k a) Q) -> gives (bind c k) Q.
Proof.
  intros Hc Hk m b m' H. apply bind_val in H.
  destruct H as (a & m1 & H1 & H2). exact (Hk a (Hc _ _ _ H1) _ _ _ H2).
Qed.

Lemma gives_then {A B} (c : M A) (k : A -> M B) (Q : B -> Prop) :
  (forall a, gives (k a) Q) -> gives (bind c k) Q.
Proof.
  intros Hk. apply (gives_bind c k (fun _ => True)); [easy|auto].
Qed.

Ltac key_cases :=
  repeat match goal with
         | |- gives (if ?c =? key ?k then _ else _) _ =>
             destruct (Z.eqb_spec c (key k))
         end.

(** A side condition on the key: it is, or is not, one of a few. *)
Ltac eval_keys :=
  repeat match goal with
         | H : context [key ?a] |- _ =>
             let v := eval vm_compute in (key a) in
             change (key a) with v in H
         | |- context [key ?a] =>
             let v := eval vm_compute in (key a) in
             change (key a) with v
         end.

Ltac key_side :=
  simpl in *; eval_keys;
  solve [ reflexivity | auto 12 | intuition congruence
        | match goal with N : ~ _ |- _ => exfalso; apply N; auto 12 end
        | match goal with N : _ <> _ |- _ => exfalso; apply N; reflexivity end ].

Section Locals.

Variable w : world.
Variable cfg : config.

(** What a key may change among the variables of the loop before the
    listing is read again. *)
Lemma dispatch_changes c l :
  gives (dispatch w cfg c l)
    (fun l1 =>
       ents l1 = ents l /\ ents_size l1 = ents_size l /\
       last_dir l1 = last_dir l /\
       (~ In c (map key ["h"; "~"; "/"; "l"]%char) -> path l1 = path l) /\
       (c <> key "." -> show_hidden l1 = show_hidden l) /\
       (fetch_dir l1 = true \/ fetch_dir l1 = fetch_dir l /\ path l1 = path l
                               /\ show_hidden l1 = show_hidden l) /\
       (~ In c (map key ["h"; "~"; "/"; "."; "r"; "s"; "l"; "e"; "x"]%char) ->
        fetch_dir l1 = fetch_dir l)).
Proof.
  unfold dispatch.
  apply (gives_bind _ _
    (fun l1 =>
       ents l1 = ents l /\ ents_size l1 = ents_size l /\
       last_dir l1 = last_dir l /\ sel l1 = sel l /\
       (~ In c (map key ["h"; "~"; "/"]%char) -> path l1 = path l) /\
       (c <> key "." -> show_hidden l1 = show_hidden l) /\
       (fetch_dir l1 = true /\
        In c (map key ["h"; "~"; "/"; "."; "r"; "s"]%char) \/
        l1 = l /\ ~ In c always_keys))).
  - unfold switch_always. key_cases; subst;
      try (apply gives_exit);
      try (apply gives_then; intros ?);
      try (apply gives_ret; repeat split; try reflexivity;
           try (intros N; key_side);
           try (left; split; [reflexivity|key_side]);
           try (right; split; [reflexivity|intros N; key_side])).
  - intros l1 (He & Hs & Hd & Hsel & Hp & Hh & Hf).
    destruct (n l1 =? 0)%nat.
    + apply gives_ret. repeat split; auto.
      * intros N. apply Hp. key_side.
      * destruct Hf as [[Hf _]|[-> _]]; auto.
      * intros N. destruct Hf as [[_ Hf]|[-> _]]; [|reflexivity]. key_side.
    + destruct Hf as [[Hf Hc]|[-> Hc]].
      * (* a key of the first switch: the second one has no case for it *)
        unfold switch_entry.
        key_cases; subst; try (exfalso; key_side).
        apply gives_ret. repeat split; auto.
        -- intros N. apply Hp. key_side.
        -- intros N. key_side.
      * unfold switch_entry.
        key_cases; subst;
          repeat match goal with
                 | |- gives (bind _ _) _ => apply gives_then; intros ?
                 | |- gives (if ?b then _ else _) _ => destruct b
                 | |- gives (match ?x with _ => _ end) _ => destruct x eqn:?
                 | |- gives (stop _) _ => apply gives_stop
                 | |- gives (ret _) _ =>
                     apply gives_ret; repeat split; auto;
                     try (simpl; congruence);
                     try (intros N; key_side)
                 end.
Qed.

End Locals.

Section LoopVariables.

Variable w : world.
Variable cfg : config.

(** What the head of the loop makes of the variables. *)
Lemma redraw_gives l :
  gives (redraw w cfg l)
    (fun l' =>
       path l' = path l /\ show_hidden l' = show_hidden l /\
       fetch_dir l' = false /\
       (fetch_dir l = false -> l' = l) /\
       (fetch_dir l = true ->
        sel l' = 0%nat /\
        ents l' = listing w (path l) (show_hidden l) /\
        (List.length (ents l') <= ents_size l')%nat /\
        (ents_size l <= ents_size l')%nat /\
        (ents l' <> [] -> last_dir l' = Some (path l)))).
Proof.
  intros m l' m' H. destruct (fetch_dir l) eqn:F.
  - apply redraw_stale_inv in H; [|exact F].
    destruct H as (elems & size & dir & m1 & R & ->). simpl.
    pose proof (read_dir_listing _ _ _ _ _ _ _ _ _ _ R) as (E & Hs & Hl).
    apply read_dir_val in R.
    split; [reflexivity|]. split; [reflexivity|]. split; [reflexivity|].
    split; [discriminate|]. intros _. repeat split; auto.
    intros N. destruct R as (_ & [(_ & -> & _)|(names & _ & _ & _ & ->)]);
      [now elim N|reflexivity].
  - unfold redraw, fetch in H. rewrite F in H.
    unfold bind, ret, emit in H. injection H as <-.
    split; [reflexivity|]. split; [reflexivity|]. split; [exact F|].
    split; [reflexivity|discriminate].
Qed.

(** X17.  Which key can change what.  Between two waits for input, the
    path changes only on [h], [~], [/] and [l], the hidden-files flag only
    on [.], and the directory is read again only on these keys and on [r],
    [s], [e], [x]: every other key leaves the listing, the array and the
    stream as they are. *)
Theorem step_changes c l m l' m' :
  fetch_dir l = false ->
  step cfg w (Key c) l m = (Val l', m') ->
  (~ In c (map key ["h"; "~"; "/"; "l"]%char) -> path l' = path l) /\
  (c <> key "." -> show_hidden l' = show_hidden l) /\
  (~ In c (map key ["h"; "~"; "/"; "."; "r"; "s"; "l"; "e"; "x"]%char) ->
   ents l' = ents l /\ ents_size l' = ents_size l /\
   last_dir l' = last_dir l /\ path l' = path l).
Proof.
  intros F H. simpl in H. apply bind_val in H.
  destruct H as (l1 & m1 & D & R).
  apply dispatch_changes in D.
  destruct D as (He & Hs & Hd & Hp & Hh & Hf & Hn).
  apply redraw_gives in R. destruct R as (Rp & Rh & _ & Rs & _).
  split; [|split].
  - intros N. rewrite Rp. auto.
  - intros N. rewrite Rh. auto.
  - intros N. specialize (Hn N). rewrite F in Hn.
    rewrite (Rs Hn). repeat split; auto.
    destruct Hf as [Hf|(_ & Hf & _)]; [congruence|exact Hf].
Qed.

(** X18.  After a key, either the directory has not been read again and
    the program holds the listing and the selection bounds it had, or the
    selection is at the top and the listing is the one of the path and flag
    the program now has, in the files as they now are. *)
Theorem step_listing c l m l' m' :
  fetch_dir l = false ->
  step cfg w (Key c) l m = (Val l', m') ->
  (ents l' = ents l /\ path l' = path l /\ show_hidden l' = show_hidden l) \/
  (sel l' = 0%nat /\ ents l' = listing w (path l') (show_hidden l')).
Proof.
  intros F H. simpl in H. apply bind_val in H.
  destruct H as (l1 & m1 & D & R).
  apply dispatch_changes in D.
  destruct D as (He & Hs & Hd & Hp & Hh & Hf & Hn).
  apply redraw_gives in R. destruct R as (Rp & Rh & _ & Rs & Rt).
  destruct (fetch_dir l1) eqn:F1.
  - right. destruct (Rt eq_refl) as (S0 & E & _). rewrite Rp, Rh. auto.
  - left. rewrite (Rs eq_refl).
    destruct Hf as [Hf|(_ & Hf1 & Hf2)]; [discriminate|auto].
Qed.

End LoopVariables.

Lemma step_waiting cfg w i l :
  waiting l -> gives (step cfg w i l) waiting.
Proof.
  intros (F & L & S & D) m l' m' H. destruct i as [c|]; simpl in H.
  - apply bind_val in H. destruct H as (l1 & m1 & Hd & R).
    apply dispatch_changes in Hd.
    destruct Hd as (He & Hs & Hl & _ & _ & Hf & _).
    apply redraw_gives in R. destruct R as (Rp & _ & Rf & Rs & Rt).
    destruct (fetch_dir l1) eqn:F1.
    + destruct (Rt eq_refl) as (_ & _ & Rl & Rz & Rd).
      repeat split; auto; [lia|]. intros N. rewrite Rp. auto.
    + rewrite (Rs eq_refl). destruct Hf as [Hf|(_ & Hf & _)]; [discriminate|].
      repeat split; try congruence. intros N. rewrite Hl, Hf.
      apply D. congruence.
  - apply bind_val in H. destruct H as (? & ? & _ & H).
    injection H as <- _. repeat split; auto.
Qed.

Lemma run_waiting cfg inputs :
  forall l, waiting l -> gives (run cfg inputs l) waiting.
Proof.
  induction inputs as [|[w i] inputs IH]; intros l Hl; simpl.
  - now apply gives_ret.
  - eapply gives_bind; [now apply step_waiting|exact IH].
Qed.

Lemma main_gives_waiting cfg w0 path0 inputs :
  gives (main cfg w0 path0 inputs) waiting.
Proof.
  unfold main. apply gives_then. intros _.
  eapply gives_bind; [apply redraw_gives|].
  intros l (Rp & _ & Rf & _ & Rt). apply run_waiting.
  destruct (Rt eq_refl) as (_ & _ & Rl & Rz & Rd).
  repeat split; auto. intros N. rewrite Rp. auto.
Qed.

(** X16.  Each time the program waits for input: the listing is not
    stale; the array has room for the listing and at least the size it
    started with; and a non-empty listing comes with the open stream of the
    very directory the path names, so that [x] and [e] act where the
    listing was read. *)
Theorem main_waiting cfg w0 path0 inputs m l m' :
  main cfg w0 path0 inputs m = (Val l, m') ->
  fetch_dir l = false /\
  (List.length (ents l) <= ents_size l)%nat /\
  (ENT_ALLOC_NUM <= ents_size l)%nat /\
  (ents l <> [] -> last_dir l = Some (path l)).
Proof.
  intros H. exact (main_gives_waiting cfg w0 path0 inputs m l m' H).
Qed.

Lemma step_changes_witness :
  exists l' m',
    step Example.cfg_a Example.world_a (Key (key "j")) Example.locals_a
      Example.machine_raw = (Val l', m') /\
    path l' = path Example.locals_a /\
    show_hidden l' = show_hidden Example.locals_a /\
    ents l' = ents Example.locals_a /\ sel l' = 1%nat.
Proof.
  destruct (step Example.cfg_a Example.world_a (Key (key "j"))
              Example.locals_a Example.machine_raw) as [[l'|h] m'] eqn:E;
    [|vm_compute in E; discriminate].
  destruct (step_changes Example.world_a Example.cfg_a (key "j")
              Example.locals_a Example.machine_raw l' m' eq_refl E)
    as (Hp & Hh & He).
  exists l', m'. split; [reflexivity|].
  split; [apply Hp; vm_compute; intuition discriminate|].
  split; [apply Hh; discriminate|].
  split; [apply He; vm_compute; intuition discriminate|].
  vm_compute in E. now injection E as <- _.
Defined.

Lemma step_listing_witness :
  exists l' m',
    step Example.cfg_a Example.world_a (Key (key ".")) Example.locals_a
      Example.machine_raw = (Val l', m') /\
    show_hidden l' = true /\
    ((ents l' = ents Example.locals_a /\ path l' = path Example.locals_a /\
      show_hidden l' = show_hidden Example.locals_a) \/
     (sel l' = 0%nat /\
      ents l' = listing Example.world_a (path l') (show_hidden l'))).
Proof.
  destruct (step Example.cfg_a Example.world_a (Key (key "."))
              Example.locals_a Example.machine_raw) as [[l'|h] m'] eqn:E;
    [|vm_compute in E; discriminate].
  exists l', m'. split; [reflexivity|]. split.
  - vm_compute in E. now injection E as <- _.
  - exact (step_listing Example.world_a Example.cfg_a (key ".")
             Example.locals_a Example.machine_raw l' m' eq_refl E).
Defined.

Lemma main_waiting_witness :
  exists l m',
    main Example.cfg_a Example.world_many "/usr/bin"
      [ (Example.world_many, Key (key "G"));
        (Example.world_a, Key (key "h")) ]
      Example.machine_a = (Val l, m') /\
    path l = "/" /\ ents l = [] /\ ents_size l = 192%nat /\
    fetch_dir l = false /\
    (List.length (ents l) <= ents_size l)%nat /\
    (ENT_ALLOC_NUM <= ents_size l)%nat /\
    (ents l <> [] -> last_dir l = Some (path l)).
Proof.
  destruct (main Example.cfg_a Example.world_many "/usr/bin"
              [ (Example.world_many, Key (key "G"));
                (Example.world_a, Key (key "h")) ]
              Example.machine_a) as [[l|h] m'] eqn:E;
    [|vm_compute in E; discriminate].
  pose proof (main_waiting _ _ _ _ _ _ _ E) as W.
  exists l, m'. split; [reflexivity|].
  vm_compute in E. injection E as <- _.
  split; [reflexivity|]. split; [reflexivity|]. split; [reflexivity|exact W].
Defined.

(** ** Keys *)

Ltac eval_key_tests :=
  repeat match goal with
         | |- context [key ?a =? key ?b] =>
             let v := eval vm_compute in (key a =? key b) in
             change (key a =? key b) with v
         end;
  cbv iota.

Section Keys.

Variable w : world.
Variable cfg : config.

Lemma elem_at_eq l i e m :
  nth_error (ents l) i = Some e -> elem_at l i m = (Val e, m).
Proof. intros H. unfold elem_at. now rewrite H. Qed.

Lemma bind_elem_at {B} l i e (k : direlement -> M B) m :
  nth_error (ents l) i = Some e -> bind (elem_at l i) k m = k e m.
Proof. intros H. apply bind_eq. now apply elem_at_eq. Qed.

Lemma bind_draw_line {B} e b (k : M B) m :
  bind (draw_line e b) (fun _ => k) m = k (add_trace (line_events e b) m).
Proof. exact (bind_eq _ (fun _ => k) _ _ _ (draw_line_eq e b m)). Qed.

Lemma bind_printf {B} s (k : M B) m :
  bind (printf s) (fun _ => k) m = k (add_trace [Stdout s] m).
Proof. exact (bind_eq _ (fun _ => k) _ _ _ (emit_eq (Stdout s) m)). Qed.

(** X19.  A key that neither [switch] has a case for changes nothing:
    not the variables of the loop, not the terminal, and nothing is written
    but the flush at the head of the loop. *)
Theorem unknown_key c l m :
  ~ In c (always_keys ++ entry_keys) ->
  dispatch w cfg c l m = (Val l, m) /\
  (fetch_dir l = false ->
   step cfg w (Key c) l m = (Val l, add_trace [Fflush] m)).
Proof.
  intros N.
  assert (D : dispatch w cfg c l m = (Val l, m)).
  { unfold dispatch, switch_always, switch_entry.
    repeat match goal with
           | |- context [c =? key ?k] =>
               destruct (Z.eqb_spec c (key k));
               [exfalso; apply N; subst c; vm_compute; tauto|]
           end.
    unfold bind, ret. now destruct (n l =? 0)%nat. }
  split; [exact D|]. intros F. simpl.
  rewrite (bind_eq _ _ _ _ _ D). unfold redraw, fetch. rewrite F. reflexivity.
Qed.

(** X20.  With an empty listing the keys of the second [switch] do
    nothing at all. *)
Theorem entry_key_on_empty c l m :
  In c entry_keys -> ents l = [] ->
  dispatch w cfg c l m = (Val l, m).
Proof.
  intros Hin He. unfold dispatch.
  assert (S : switch_always w cfg c l = ret l).
  { simpl in Hin.
    destruct Hin as [<-|[<-|[<-|[<-|[<-|[<-|[<-|[]]]]]]]]; reflexivity. }
  rewrite S. unfold bind, ret, n. now rewrite He.
Qed.

(** X21.  [j] moves the selection down by one and redraws the two lines
    concerned, the old one unmarked and the new one marked; on the last
    entry it does nothing.  The listing is not read again. *)
Theorem move_down l e m :
  nth_error (ents l) (sel l) = Some e ->
  dispatch w cfg (key "j") l m =
  match nth_error (ents l) (S (sel l)) with
  | Some e' =>
      (Val (set_sel (S (sel l)) l),
       add_trace (line_events e false ++ [Stdout (CR ++ LF)]
                  ++ line_events e' true ++ [Stdout CR]) m)
  | None => (Val l, m)
  end.
Proof.
  intros He. unfold dispatch.
  change (switch_always w cfg (key "j") l) with (ret l).
  unfold bind at 1, ret at 1. unfold n.
  rewrite (nth_error_nonempty _ _ _ He). unfold switch_entry.
  eval_key_tests. unfold n.
  destruct (nth_error (ents l) (S (sel l))) as [e'|] eqn:E'.
  - assert (L : (S (sel l) < List.length (ents l))%nat)
      by (apply nth_error_Some; congruence).
    destruct (Nat.ltb_spec (sel l) (List.length (ents l) - 1)); [|lia].
    rewrite (bind_elem_at l _ e _ _ He), bind_draw_line, bind_printf.
    rewrite (bind_elem_at (set_sel (S (sel l)) l) _ e' _ _ E').
    rewrite bind_draw_line, bind_printf. unfold ret.
    rewrite !add_trace_app, <- ?app_assoc. reflexivity.
  - apply nth_error_None in E'.
    destruct (Nat.ltb_spec (sel l) (List.length (ents l) - 1)); [lia|].
    reflexivity.
Qed.

(** X22.  [k] moves the selection up by one and redraws the two lines
    concerned; on the first entry it does nothing. *)
Theorem move_up l e m :
  nth_error (ents l) (sel l) = Some e ->
  dispatch w cfg (key "k") l m =
  match sel l with
  | O => (Val l, m)
  | S i =>
      (Val (set_sel i l),
       add_trace (line_events e false ++ [Stdout (CR ++ ESC ++ "[A")]
                  ++ line_events (nth i (ents l) e) true ++ [Stdout CR]) m)
  end.
Proof.
  intros He. unfold dispatch.
  change (switch_always w cfg (key "k") l) with (ret l).
  unfold bind at 1, ret at 1. unfold n.
  rewrite (nth_error_nonempty _ _ _ He). unfold switch_entry.
  eval_key_tests.
  destruct (sel l) as [|i] eqn:Hsel; [reflexivity|].
  change (0 <? S i)%nat with true. cbv iota.
  assert (E' : nth_error (ents l) i = Some (nth i (ents l) e)).
  { apply nth_error_nth'. assert (S i < List.length (ents l))%nat; [|lia].
    apply nth_error_Some. congruence. }
  rewrite (bind_elem_at l (S i) e _ _ He), bind_draw_line, bind_printf.
  rewrite (bind_elem_at (set_sel (S i - 1) l) _ (nth i (ents l) e))
    by (simpl; replace (i - 0)%nat with i by lia; exact E').
  rewrite bind_draw_line, bind_printf. unfold ret.
  replace (S i - 1)%nat with i by lia.
  rewrite !add_trace_app, <- ?app_assoc. reflexivity.
Qed.

End Keys.

Lemma unknown_key_witness :
  ~ In (key "z") (always_keys ++ entry_keys) /\
  dispatch Example.world_a Example.cfg_a (key "z") Example.locals_a
    Example.machine_raw = (Val Example.locals_a, Example.machine_raw) /\
  (fetch_dir Example.locals_a = false ->
   step Example.cfg_a Example.world_a (Key (key "z")) Example.locals_a
     Example.machine_raw
   = (Val Example.locals_a, add_trace [Fflush] Example.machine_raw)).
Proof.
  assert (N : ~ In (key "z") (always_keys ++ entry_keys))
    by (vm_compute; intuition discriminate).
  split; [exact N|].
  exact (unknown_key Example.world_a Example.cfg_a (key "z") Example.locals_a
           Example.machine_raw N).
Defined.

Lemma entry_key_on_empty_witness :
  let l := {| path := "/mnt"; show_hidden := false; fetch_dir := false;
              sel := 0%nat; ents := []; ents_size := 64%nat;
              last_dir := None |} in
  In (key "x") entry_keys /\ ents l = [] /\
  dispatch Example.world_a Example.cfg_a (key "x") l Example.machine_raw
  = (Val l, Example.machine_raw).
Proof.
  intros l.
  assert (I : In (key "x") entry_keys) by (vm_compute; tauto).
  split; [exact I|]. split; [reflexivity|].
  exact (entry_key_on_empty Example.world_a Example.cfg_a (key "x") l
           Example.machine_raw I eq_refl).
Defined.

Lemma move_down_witness :
  dispatch Example.world_a Example.cfg_a (key "j") Example.locals_a
    Example.machine_raw
  = (Val (set_sel 1 Example.locals_a),
     add_trace [ Stdout (ESC ++ "[34;1m"); Stdout "  banana ";
                 Stdout (CR ++ LF);
                 Stdout (ESC ++ "[0m"); Stdout ">  Apple";
                 Stdout CR ] Example.machine_raw).
Proof.
  exact (move_down Example.world_a Example.cfg_a Example.locals_a
           {| type := TYPE_DIR; d_name := "banana" |} Example.machine_raw
           eq_refl).
Defined.

Lemma move_up_witness :
  dispatch Example.world_a Example.cfg_a (key "k")
    (set_sel 1 Example.locals_a) Example.machine_raw
  = (Val (set_sel 0 (set_sel 1 Example.locals_a)),
     add_trace [ Stdout (ESC ++ "[0m"); Stdout "  Apple ";
                 Stdout (CR ++ ESC ++ "[A");
                 Stdout (ESC ++ "[34;1m"); Stdout ">  banana";
                 Stdout CR ] Example.machine_raw).
Proof.
  exact (move_up Example.world_a Example.cfg_a (set_sel 1 Example.locals_a)
           {| type := TYPE_NORM; d_name := "Apple" |} Example.machine_raw
           eq_refl).
Defined.

Section MoreKeys.

Variable w : world.
Variable cfg : config.

Lemma size_t_small z : 0 <= z < 2 ^ 64 -> size_t z = z.
Proof. intros H. unfold size_t. now apply Z.mod_small. Qed.

Lemma size_t_wrap z : - 2 ^ 64 <= z < 0 -> size_t z = z + 2 ^ 64.
Proof.
  intros H. unfold size_t.
  rewrite <- (Z.mod_add z 1 (2 ^ 64)) by lia.
  rewrite Z.mod_small; lia.
Qed.

(** X23.  [G] selects the last entry.  The row it sends the cursor to is
    that of the last entry, [n + 2], as long as the listing is shorter than
    the terminal by more than three rows; this includes terminals of fewer
    than three rows, where [g_row - 3] wraps around.  Otherwise the row is
    [g_row + 2], below the last row of the terminal. *)
Theorem jump_bottom l e m :
  nth_error (ents l) (sel l) = Some e ->
  0 <= g_row m < 2 ^ 16 -> Z.of_nat (n l) < 2 ^ 32 ->
  dispatch w cfg (key "G") l m
  = (Val (set_sel (n l - 1) l),
     add_trace
       (line_events e false
        ++ [Stdout (ESC ++ "["
                    ++ decimal (if (3 <=? g_row m)
                                   && (g_row m - 3 <=? Z.of_nat (n l))
                                then g_row m + 2 else Z.of_nat (n l) + 2)
                    ++ ";1H")]
        ++ line_events (last (ents l) e) true ++ [Stdout CR]) m).
Proof.
  intros He Hr Hn. unfold dispatch.
  change (switch_always w cfg (key "G") l) with (ret l).
  unfold bind at 1, ret at 1.
  assert (NZ : (n l =? 0)%nat = false) by (apply (nth_error_nonempty _ _ _ He)).
  rewrite NZ. unfold switch_entry. eval_key_tests.
  rewrite (bind_elem_at l _ e _ _ He), bind_draw_line.
  unfold bind at 1, get at 1. cbn [add_trace g_row].
  rewrite bind_printf.
  assert (E' : nth_error (ents l) (n l - 1) = Some (last (ents l) e)).
  { unfold n in *. destruct (ents l) as [|x es] eqn:E; [discriminate|].
    rewrite <- E. apply Nat.eqb_neq in NZ.
    rewrite (nth_error_nth' _ e) by (rewrite E in *; simpl in *; lia).
    f_equal. rewrite E. simpl List.length. rewrite Nat.sub_1_r. simpl pred.
    clear. revert x. induction es as [|y es IH]; intros x; [reflexivity|].
    change (last (x :: y :: es) e) with (last (y :: es) e).
    rewrite <- IH. reflexivity. }
  rewrite (bind_elem_at (set_sel (n l - 1) l) _ _ _ _ E').
  rewrite bind_draw_line, bind_printf. unfold ret.
  rewrite !add_trace_app, <- ?app_assoc.
  replace (size_t (2 + _)) with
    (if (3 <=? g_row m) && (g_row m - 3 <=? Z.of_nat (n l))
     then g_row m + 2 else Z.of_nat (n l) + 2); [reflexivity|].
  rewrite (size_t_small (Z.of_nat (n l))) by lia.
  rewrite (size_t_small (g_row m)) by lia.
  destruct (Z.leb_spec 3 (g_row m)) as [G3|L3]; cbn [andb].
  - rewrite (size_t_small (g_row m - 3)) by lia.
    destruct (Z.leb_spec (g_row m - 3) (Z.of_nat (n l)));
      destruct (Z.ltb_spec (Z.of_nat (n l)) (g_row m - 3)); try lia;
      rewrite size_t_small; lia.
  - rewrite (size_t_wrap (g_row m - 3)) by lia.
    destruct (Z.ltb_spec (Z.of_nat (n l)) (g_row m - 3 + 2 ^ 64)); [|lia].
    rewrite size_t_small; lia.
Qed.

End MoreKeys.

Lemma jump_bottom_witness :
  let l := {| path := "/tmp/five"; show_hidden := false; fetch_dir := false;
              sel := 1%nat;
              ents := [ {| type := TYPE_NORM; d_name := "a" |};
                        {| type := TYPE_NORM; d_name := "b" |};
                        {| type := TYPE_NORM; d_name := "c" |};
                        {| type := TYPE_NORM; d_name := "d" |};
                        {| type := TYPE_NORM; d_name := "e" |} ];
              ents_size := 64%nat; last_dir := Some "/tmp/five" |} in
  let tiny := {| g_old_termios := Example.cooked; g_row := 2; g_col := 80;
                 tty := Example.raw; at_exit := true; trace := [] |} in
  let short := {| g_old_termios := Example.cooked; g_row := 6; g_col := 80;
                  tty := Example.raw; at_exit := true; trace := [] |} in
  dispatch Example.world_b Example.cfg_a (key "G") l tiny
  = (Val (set_sel 4 l),
     add_trace [ Stdout (ESC ++ "[0m"); Stdout "  b ";
                 Stdout (ESC ++ "[7;1H");
                 Stdout (ESC ++ "[0m"); Stdout ">  e"; Stdout CR ] tiny) /\
  dispatch Example.world_b Example.cfg_a (key "G") l short
  = (Val (set_sel 4 l),
     add_trace [ Stdout (ESC ++ "[0m"); Stdout "  b ";
                 Stdout (ESC ++ "[8;1H");
                 Stdout (ESC ++ "[0m"); Stdout ">  e"; Stdout CR ] short).
Proof.
  intros l tiny short. split.
  - refine (jump_bottom Example.world_b Example.cfg_a l
              {| type := TYPE_NORM; d_name := "b" |} tiny eq_refl _ _);
      simpl; lia.
  - refine (jump_bottom Example.world_b Example.cfg_a l
              {| type := TYPE_NORM; d_name := "b" |} short eq_refl _ _);
      simpl; lia.
Defined.

Section Actions.

Variable w : world.
Variable cfg : config.

Lemma dispatch_delete l e d m :
  nth_error (ents l) (sel l) = Some e -> last_dir l = Some d ->
  dispatch w cfg (key "x") l m
  = (Val (set_fetch_dir true l),
     add_trace [Unlinkat d (d_name e)
                  (if elem_type_eqb (type e) TYPE_DIR then AT_REMOVEDIR else 0)]
       m).
Proof.
  intros He Hd. unfold dispatch.
  change (switch_always w cfg (key "x") l) with (ret l).
  unfold bind at 1, ret at 1. unfold n.
  rewrite (nth_error_nonempty _ _ _ He). unfold switch_entry.
  eval_key_tests. rewrite (bind_elem_at l _ e _ _ He), Hd. reflexivity.
Qed.

Lemma dispatch_edit l e m :
  nth_error (ents l) (sel l) = Some e ->
  dispatch w cfg (key "e") l m
  = bind (spawn w (path l) (editor cfg) (Some (d_name e)))
         (fun _ => ret (set_fetch_dir true l)) m.
Proof.
  intros He. unfold dispatch.
  change (switch_always w cfg (key "e") l) with (ret l).
  unfold bind at 1, ret at 1. unfold n.
  rewrite (nth_error_nonempty _ _ _ He). unfold switch_entry.
  eval_key_tests. now rewrite (bind_elem_at l _ e _ _ He).
Qed.


End Actions.

(** X24.  [x] removes the selected entry from the directory whose listing
    is shown: the call names the entry relative to the stream of the path
    the program is at.  It asks for the removal of a directory exactly when
    the kind of the entry is Directory (a symlink to a directory is removed
    as a file), and marks the listing stale without looking at the
    result. *)
Theorem delete_selected cfg w0 path0 inputs m l m1 w e :
  main cfg w0 path0 inputs m = (Val l, m1) ->
  nth_error (ents l) (sel l) = Some e ->
  exists flags,
    dispatch w cfg (key "x") l m1
    = (Val (set_fetch_dir true l),
       add_trace [Unlinkat (path l) (d_name e) flags] m1) /\
    (type e = TYPE_DIR -> flags = AT_REMOVEDIR) /\
    (type e <> TYPE_DIR -> flags = 0).
Proof.
  intros H He. apply main_gives_waiting in H.
  destruct H as (_ & _ & _ & Hd).
  assert (D : last_dir l = Some (path l)).
  { apply Hd. intros N. rewrite N in He. now destruct (sel l). }
  eexists. split; [apply (dispatch_delete w cfg l e (path l) m1 He D)|].
  destruct (type e); simpl; split; intros; congruence.
Qed.

Lemma delete_selected_witness :
  exists l m1,
    main Example.cfg_a Example.world_a "/tmp/proj" [] Example.machine_a
    = (Val l, m1) /\
    nth_error (ents l) (sel l) = Some {| type := TYPE_DIR; d_name := "banana" |} /\
    dispatch Example.world_a Example.cfg_a (key "x") l m1
    = (Val (set_fetch_dir true l),
       add_trace [Unlinkat "/tmp/proj" "banana" AT_REMOVEDIR] m1).
Proof.
  destruct (main Example.cfg_a Example.world_a "/tmp/proj" []
              Example.machine_a) as [[l|h] m1] eqn:E;
    [|vm_compute in E; discriminate].
  assert (S : nth_error (ents l) (sel l)
              = Some {| type := TYPE_DIR; d_name := "banana" |}
              /\ path l = "/tmp/proj").
  { vm_compute in E. injection E as <- _. split; reflexivity. }
  destruct S as [He Hp].
  destruct (delete_selected _ _ _ _ _ _ _ Example.world_a _ E He)
    as (flags & D & Hdir & _).
  exists l, m1. split; [reflexivity|]. split; [exact He|].
  rewrite D, Hp, (Hdir eq_refl). reflexivity.
Defined.


(** ** [draw_line] *)

(** X29.  [draw_line] writes a colour and then the name with a mark of
    three columns, ">  " in front when the entry is selected, two blanks in
    front and one behind when it is not: both forms are as wide, so that
    drawing an entry unselected wipes all that drawing it selected had
    written. *)
Theorem draw_line_width e m :
  exists marked plain,
    draw_line e true m
    = (Val tt, add_trace [Stdout (colour (type e)); Stdout marked] m) /\
    draw_line e false m
    = (Val tt, add_trace [Stdout (colour (type e)); Stdout plain] m) /\
    String.length marked = (String.length (d_name e) + 3)%nat /\
    String.length plain = String.length marked /\
    String.get (String.length (d_name e) + 2) plain = Some " "%char.
Proof.
  exists (">  " ++ d_name e), ("  " ++ d_name e ++ " ").
  rewrite !draw_line_eq. repeat split.
  - rewrite length_append. simpl. lia.
  - rewrite !length_append. simpl. lia.
  - replace (String.length (d_name e) + 2)%nat
      with (S (S (String.length (d_name e)))) by lia.
    simpl. induction (d_name e) as [|c s IH]; [reflexivity|exact IH].
Qed.

(** ** The start of [main] *)

Lemma strcpy_fits size src :
  (String.length src < size)%nat -> strcpy size src = Some src.
Proof. intros H. unfold strcpy. apply Nat.ltb_lt in H. now rewrite H. Qed.

Lemma strcat_fits size dst src :
  (String.length (dst ++ src) < size)%nat ->
  strcat size dst src = Some (dst ++ src).
Proof. intros H. unfold strcat. apply Nat.ltb_lt in H. now rewrite H. Qed.

Lemma build_user_and_hostname_eq user hostname :
  build_user_and_hostname user hostname
  = Some (identity_string user hostname).
Proof.
  unfold build_user_and_hostname, identity_string, user_and_hostname_size.
  cbv zeta.
  rewrite strcpy_fits by (rewrite !length_append; simpl; lia).
  cbn [and_then].
  rewrite strcat_fits by (rewrite !length_append; simpl; lia).
  cbn [and_then].
  rewrite strcat_fits by (rewrite !length_append; simpl; lia).
  cbn [and_then].
  rewrite strcat_fits by (rewrite !length_append; simpl; lia).
  cbn [and_then].
  rewrite strcat_fits by (rewrite !length_append; simpl; lia).
  now rewrite !append_assoc.
Qed.

(** X26.  The buffer [main] allocates for the identity string is exactly
    as long as the string it then copies into it, terminator included: the
    five writes stay inside the buffer, whatever the user and host names. *)
Theorem user_and_hostname_fits (user hostname : string) :
  build_user_and_hostname user hostname
  = Some (identity_string user hostname) /\
  (String.length (identity_string user hostname) + 1
   = user_and_hostname_size user hostname)%nat.
Proof.
  split; [apply build_user_and_hostname_eq|].
  unfold identity_string, user_and_hostname_size.
  rewrite !length_append. simpl. lia.
Qed.

Lemma perrors_eq messages m :
  perrors messages m = (Val tt, add_trace (map Perror messages) m).
Proof.
  revert m. induction messages as [|s rest IH]; intros m; simpl.
  - now rewrite add_trace_nil.
  - unfold perror. rewrite (bind_eq _ (fun _ => perrors rest) _ _ _ (emit_eq _ m)).
    now rewrite IH, add_trace_app.
Qed.

(** What [main] has when it gets to the terminal. *)
Lemma prologue_inr env p :
  prologue env = inr p ->
  isatty_stdin env = true /\ isatty_stdout env = true /\
  (String.length (p_path p) < PATH_MAX)%nat /\
  match argv1 env with
  | Some a => p_path p = a
  | None => getcwd env = Some (p_path p)
  end /\
  p_editor p = getenv_or (getenv env) "EDITOR" "vi" /\
  p_shell p = getenv_or (getenv env) "SHELL" "/bin/sh" /\
  p_home p = getenv_or (getenv env) "HOME" "/" /\
  p_user p = getlogin env /\ p_hostname p = gethostname env /\
  p_perrors p = match gethostname env with
                | Some _ => []
                | None => ["gethostname"]
                end.
Proof.
  unfold prologue, strcpy.
  destruct (isatty_stdin env), (isatty_stdout env); simpl; try discriminate.
  destruct (malloc_path env); simpl; [|discriminate].
  destruct (argv1 env) as [a|]; [|destruct (getcwd env) as [a|]];
    try discriminate;
    (destruct (Nat.ltb_spec (String.length a) PATH_MAX); [|discriminate]);
    (destruct (malloc_hostname env); simpl; [|discriminate]);
    (destruct (gethostname env) as [h|]);
    (destruct (malloc_ents env); simpl; [|discriminate]);
    intros [= <-]; simpl; repeat split; auto.
Qed.

(** An argument that does not fit the buffer of the path is copied past
    its end, before anything is written. *)
Lemma prologue_long_argument env a :
  isatty_stdin env = true -> isatty_stdout env = true ->
  malloc_path env = true -> argv1 env = Some a ->
  (PATH_MAX <= String.length a)%nat ->
  prologue env = inl Long_argument.
Proof.
  intros I O M A L. unfold prologue, strcpy. rewrite I, O, M, A. simpl.
  apply Nat.ltb_ge in L. now rewrite L.
Qed.

(** X27.  [getlogin] and [gethostname] are not checked before their
    results are measured with [strlen].  When either has failed, the
    program runs into that undefined call after it has switched the
    terminal to raw mode; it does not reach the code that would put the
    terminal back. *)
Theorem filet_null_name env p w0 inputs m m1 :
  prologue env = inr p ->
  getlogin env = None \/ gethostname env = None ->
  startup w0 (add_trace (map Perror (p_perrors p)) m) = (Val tt, m1) ->
  filet_from env p w0 inputs m = (Stop Undefined, m1) /\
  tty m1 = raw_of (tty m) /\
  ~ In (Stdout restore_sequence)
       (skipn (List.length (trace m)) (trace m1)).
Proof.
  intros P N S. apply prologue_inr in P.
  destruct P as (_ & _ & _ & _ & _ & _ & _ & Hu & Hh & _).
  split; [|split].
  - unfold filet_from.
    rewrite (bind_eq _ _ _ _ _ (perrors_eq _ m)).
    rewrite (bind_eq _ _ _ _ _ S). rewrite Hu, Hh.
    destruct N as [-> | ->]; [reflexivity|].
    now destruct (getlogin env).
  - apply startup_val in S. destruct S as (row & col & _ & ->). reflexivity.
  - apply startup_val in S. destruct S as (row & col & _ & ->). simpl.
    rewrite <- app_assoc, skipn_app, skipn_all, Nat.sub_diag. simpl.
    rewrite in_app_iff. intros [H|[H|[H|[]]]].
    + apply in_map_iff in H. destruct H as (s & E & _). discriminate.
    + discriminate.
    + unfold restore_sequence, setup_sequence in H. simpl in H. discriminate.
Qed.

Lemma filet_null_name_witness :
  exists p m1,
    prologue Example.env_nohost = inr p /\
    gethostname Example.env_nohost = None /\
    startup Example.world_a
      (add_trace (map Perror (p_perrors p)) Example.machine_a) = (Val tt, m1) /\
    filet_from Example.env_nohost p Example.world_a [] Example.machine_a
    = (Stop Undefined, m1) /\
    tty m1 = raw_of (tty Example.machine_a) /\
    ~ In (Stdout restore_sequence)
         (skipn (List.length (trace Example.machine_a)) (trace m1)).
Proof.
  destruct (prologue Example.env_nohost) as [e|p] eqn:P;
    [vm_compute in P; discriminate|].
  assert (Hp : p_perrors p = ["gethostname"])
    by (vm_compute in P; now injection P as <-).
  exists p.
  exists (snd (startup Example.world_a
                 (add_trace (map Perror (p_perrors p)) Example.machine_a))).
  split; [reflexivity|]. split; [reflexivity|].
  assert (S : startup Example.world_a
                (add_trace (map Perror (p_perrors p)) Example.machine_a)
              = (Val tt,
                 snd (startup Example.world_a
                        (add_trace (map Perror (p_perrors p))
                           Example.machine_a))))
    by (rewrite Hp; reflexivity).
  split; [exact S|].
  exact (filet_null_name Example.env_nohost p Example.world_a []
           Example.machine_a _ P (or_intror eq_refl) S).
Defined.

(** X28.  When the start goes well, the whole program is [main] on the
    configuration read from the environment: the editor, the shell and the
    home directory with their fallbacks, the identity string built from the
    user and host names, and the path given as argument or else the
    current directory; this path fits its buffer of PATH_MAX bytes.  (An
    argument that does not fit is copied past the end of the buffer before
    anything else happens.) *)
Theorem filet_is_main env p w0 inputs m user hostname :
  prologue env = inr p ->
  getlogin env = Some user -> gethostname env = Some hostname ->
  malloc_user_and_hostname env = true ->
  filet_from env p w0 inputs m
  = main {| editor := getenv_or (getenv env) "EDITOR" "vi";
            shell := getenv_or (getenv env) "SHELL" "/bin/sh";
            home := getenv_or (getenv env) "HOME" "/";
            user_and_hostname := identity_string user hostname;
            dirname := libc_dirname env |} w0 (p_path p) inputs m /\
  (String.length (p_path p) < PATH_MAX)%nat /\
  match argv1 env with
  | Some a => p_path p = a
  | None => getcwd env = Some (p_path p)
  end.
Proof.
  intros P U H A. pose proof (prologue_inr env p P) as I.
  destruct I as (_ & _ & Hl & Hp & He & Hs & Hh & Hu & Hn & Hr).
  split; [|split; [exact Hl|exact Hp]].
  unfold filet_from, main. rewrite Hr, Hu, Hn, U, H, A, He, Hs, Hh.
  rewrite build_user_and_hostname_eq. reflexivity.
Qed.

Lemma filet_is_main_witness :
  exists p,
    prologue Example.env_a = inr p /\
    p_path p = "/tmp/proj" /\
    filet_from Example.env_a p Example.world_a [] Example.machine_a
    = main {| editor := "nano"; shell := "/bin/sh"; home := "/home/user";
              user_and_hostname := identity_string "user" "host";
              dirname := libc_dirname Example.env_a |}
        Example.world_a "/tmp/proj" [] Example.machine_a.
Proof.
  destruct (prologue Example.env_a) as [e|p] eqn:P;
    [vm_compute in P; discriminate|].
  destruct (filet_is_main Example.env_a p Example.world_a []
              Example.machine_a "user" "host" P eq_refl eq_refl eq_refl)
    as (H & _ & Hp).
  exists p. split; [reflexivity|]. split; [exact Hp|].
  simpl in Hp. rewrite Hp in H. exact H.
Defined.

(** ** Going to another directory *)

Section Navigation.

Variable w : world.
Variable cfg : config.

Lemma dispatch_navigate c l m :
  In c (map key ["~"; "/"]%char) ->
  dispatch w cfg c l m
  = let p := if c =? key "~" then home cfg else "/" in
    if (String.length p <? PATH_MAX)%nat
    then (Val (set_fetch_dir true (set_path p l)), m)
    else (Stop Overrun, m).
Proof.
  intros [<-|[<-|[]]]; unfold dispatch, switch_always;
    eval_key_tests; cbv zeta; unfold written, strcpy;
    destruct (_ <? PATH_MAX)%nat; try reflexivity;
    unfold bind, ret; cbv beta iota;
    (match goal with |- context [(n ?x =? 0)%nat] => destruct (n x =? 0)%nat end);
    try reflexivity; unfold switch_entry; eval_key_tests; reflexivity.
Qed.

(** X30.  [~] and [/] take the program to the home directory and to the
    root.  When the program next waits for input, the path is that
    directory, it shows the listing of that directory, the hidden-files
    flag is as it was and the selection is at the top.  A home directory
    whose name does not fit the PATH_MAX bytes of the path is copied past
    the end of the buffer. *)
Theorem step_navigates c l m :
  In c (map key ["~"; "/"]%char) ->
  let target := if c =? key "~" then home cfg else "/" in
  (forall l' m',
     step cfg w (Key c) l m = (Val l', m') ->
     path l' = target /\ (String.length target < PATH_MAX)%nat /\
     show_hidden l' = show_hidden l /\
     sel l' = 0%nat /\
     ents l' = listing w target (show_hidden l)) /\
  ((PATH_MAX <= String.length target)%nat ->
   step cfg w (Key c) l m = (Stop Overrun, m)).
Proof.
  intros Hc target. pose proof (dispatch_navigate c l m Hc) as D.
  cbv zeta in D. fold target in D. split.
  - intros l' m' H. simpl in H. apply bind_val in H.
    destruct H as (l1 & m1 & D1 & R). rewrite D in D1.
    destruct (Nat.ltb_spec (String.length target) PATH_MAX) as [L|G];
      [|discriminate].
    injection D1 as <- <-.
    apply redraw_gives in R. destruct R as (Rp & Rh & _ & _ & Rt).
    destruct (Rt eq_refl) as (S0 & E & _).
    rewrite Rp, Rh. repeat split; auto.
  - intros G. simpl. apply Nat.ltb_ge in G. rewrite G in D.
    now rewrite (bind_stop _ _ _ _ _ D).
Qed.

End Navigation.

Lemma step_navigates_witness :
  exists l' m',
    step Example.cfg_a Example.world_a (Key (key "~")) Example.locals_a
      Example.machine_raw = (Val l', m') /\
    path l' = "/home/user" /\
    (String.length "/home/user" < PATH_MAX)%nat /\
    show_hidden l' = show_hidden Example.locals_a /\
    sel l' = 0%nat /\
    ents l' = listing Example.world_a "/home/user" false.
Proof.
  destruct (step Example.cfg_a Example.world_a (Key (key "~"))
              Example.locals_a Example.machine_raw) as [[l'|h] m'] eqn:E;
    [|vm_compute in E; discriminate].
  exists l', m'. split; [reflexivity|].
  exact (proj1 (step_navigates Example.world_a Example.cfg_a (key "~")
                  Example.locals_a Example.machine_raw
                  (or_introl eq_refl)) l' m' E).
Defined.
